(** * Options.h: command-line option registration, parsing and usage text

    A shallow embedding of [class Options] (include/Options.h) and proofs
    about registration ([Add], [AddSwitch], [add_entry]), parsing ([Parse],
    [set]) and usage formatting ([Usage], [get_default], the wrapping loop
    of [add_entry]).  The file has three parts: the program, the vocabulary
    of the statements, and the properties.

    Conventions of the embedding.
    - [std::string] is [string]; [char] is [ascii]; a [char] converted to
      [int] is [char_to_int] (plain [char] is signed on the x86-64 ABIs).
    - [int], [unsigned] and [size_t] values are [Z], with the wrap-around of
      each C++ operation written out ([s32], [u32], [u64]); the counter
      [optval] wraps like the other integers.  Strings are shorter than
      [2 ^ 31] characters, so that [++i] on a position does not overflow.
    - The caller's bound variables live in a store [gmap nat value]; a
      reference [T& var] is the address of the variable in that store.
    - [std::map<int, std::function<...>>] is a [gmap Z setter], the closures
      being represented by the data they capture.
    - [std::map<std::string, ...>] is iterated by [Usage] in key order, so it
      is an association list kept sorted by [std::string::compare].
    - A thrown [std::runtime_error] is the outcome [Throw]; the members
      modified before the [throw] keep their new values.
    - A [std::string] may hold NUL characters; the name that [getopt_long]
      reads through the pointer [c_str ()] of a long flag ends at the first
      of them ([c_str]).  [optstr] holds none: only short flags other than
      NUL, and colons, are appended to it.
    - What the C++ and C libraries do is either modelled ([getopt_long],
      single precision rounding) or a section variable ([operator>>]); what
      an uninitialised local holds is an argument of the call. *)

From Stdlib Require Import ZArith Ascii String DecimalString List Bool Sorted Lia.
From stdpp Require Import base gmap strings list.

Local Open Scope Z_scope.

(** ** Machine integers *)

Definition u16 (z : Z) : Z := z mod 2 ^ 16.
Definition u32 (z : Z) : Z := z mod 2 ^ 32.
Definition u64 (z : Z) : Z := z mod 2 ^ 64.
Definition s32 (z : Z) : Z := (z + 2 ^ 31) mod 2 ^ 32 - 2 ^ 31.

(** [(int)c] for a plain (signed) [char]. *)
Definition char_to_int (c : ascii) : Z :=
  let n := Z.of_N (N_of_ascii c) in
  if n <? 128 then n else n - 256.

Definition is_nul (c : ascii) : bool := Ascii.eqb c Ascii.zero.

Definition slen (s : string) : Z := Z.of_nat (String.length s).

(** [std::string(n, ' ')] *)
Definition spaces (n : Z) : string :=
  string_of_list_ascii (repeat " "%char (Z.to_nat n)).

Definition str1 (c : ascii) : string := String c EmptyString.

(** ** [struct option] of <getopt.h> *)

Definition no_argument : Z := 0.
Definition required_argument : Z := 1.
Definition optional_argument : Z := 2.

(** [name] is a C string or [NULL]; [flag] is a pointer, [None] when [NULL]. *)
Record struct_option := mk_option {
  name : option string;
  has_arg : Z;
  flag : option Z;
  val : Z
}.

Definition set_name (o : struct_option) (n : option string) :=
  mk_option n (has_arg o) (flag o) (val o).
Definition set_has_arg (o : struct_option) (h : Z) :=
  mk_option (name o) h (flag o) (val o).
Definition set_flag (o : struct_option) (f : option Z) :=
  mk_option (name o) (has_arg o) f (val o).
Definition set_val (o : struct_option) (v : Z) :=
  mk_option (name o) (has_arg o) (flag o) v.

(** The table terminator [{NULL, 0, NULL, 0}]. *)
Definition option_end : struct_option := mk_option None 0 None 0.

(** ** getopt_long(3)

    [getopt_long] belongs to the C library, not to Options.h.  [Parse] calls
    it in a loop until it returns -1, so it is modelled by the list of
    results [(return value, optarg)] of the successive calls on a fresh
    scanner ([optind = 1]), following the GNU implementation: permutation
    of non-options unless the option string starts with [+] or [-], [--]
    as terminator, clusters of short options, [x:] and [x::] arguments,
    long options with exact and abbreviated names, and [?] (or [:] when
    the option string starts with a colon) for errors.  The [W;] extension
    and [POSIXLY_CORRECT] are not modelled. *)
Module Getopt.

Inductive ordering := REQUIRE_ORDER | PERMUTE | RETURN_IN_ORDER.

Definition result : Type := Z * option string.

Definition ordering_of (optstring : list ascii) : ordering * list ascii :=
  match optstring with
  | "-"%char :: rest => (RETURN_IN_ORDER, rest)
  | "+"%char :: rest => (REQUIRE_ORDER, rest)
  | _ => (PERMUTE, optstring)
  end.

(** [optstring[0] == ':'] *)
Definition colon_first (optstring : list ascii) : bool :=
  match optstring with
  | ":"%char :: _ => true
  | _ => false
  end.

Definition missing_code (optstring : list ascii) : Z :=
  if colon_first optstring then char_to_int ":" else char_to_int "?".

(** [strchr (optstring, c)]: the characters from the first [c] on. *)
Fixpoint strchr (optstring : list ascii) (c : ascii) : option (list ascii) :=
  match optstring with
  | [] => None
  | d :: rest => if Ascii.eqb d c then Some optstring else strchr rest c
  end.

Inductive arg_kind := NoArg | RequiredArg | OptionalArg.

(** What follows the option character in the option string. *)
Definition short_kind (temp : list ascii) : arg_kind :=
  match temp with
  | _ :: ":"%char :: ":"%char :: _ => OptionalArg
  | _ :: ":"%char :: _ => RequiredArg
  | _ => NoArg
  end.

(** The short options of one argv element, [chars] being the text after
    the dash.  The boolean tells whether the next argv element was taken
    as the argument of the last option. *)
Fixpoint short_options (optstring : list ascii) (chars : list ascii)
    (next : option string) : list result * bool :=
  match chars with
  | [] => ([], false)
  | c :: rest =>
      match strchr optstring c with
      | None =>
          let '(rs, used) := short_options optstring rest next in
          ((char_to_int "?", None) :: rs, used)
      | Some temp =>
          if Ascii.eqb c ":" || Ascii.eqb c ";" then
            let '(rs, used) := short_options optstring rest next in
            ((char_to_int "?", None) :: rs, used)
          else
            match short_kind temp with
            | NoArg =>
                let '(rs, used) := short_options optstring rest next in
                ((char_to_int c, None) :: rs, used)
            | OptionalArg =>
                match rest with
                | [] => ([(char_to_int c, None)], false)
                | _ => ([(char_to_int c, Some (string_of_list_ascii rest))], false)
                end
            | RequiredArg =>
                match rest with
                | [] =>
                    match next with
                    | Some a => ([(char_to_int c, Some a)], true)
                    | None => ([(missing_code optstring, None)], false)
                    end
                | _ => ([(char_to_int c, Some (string_of_list_ascii rest))], false)
                end
            end
      end
  end.

(** The entries of the table before the first [NULL] name. *)
Fixpoint table (longopts : list struct_option) : list (string * struct_option) :=
  match longopts with
  | [] => []
  | p :: rest =>
      match name p with
      | Some n => (n, p) :: table rest
      | None => []
      end
  end.

(** Splits [name=value] at the first [=]. *)
Fixpoint split_eq (text : list ascii) : list ascii * option (list ascii) :=
  match text with
  | [] => ([], None)
  | c :: rest =>
      if Ascii.eqb c "=" then ([], Some rest)
      else let '(n, a) := split_eq rest in (c :: n, a)
  end.

Definition differs (p q : struct_option) : bool :=
  negb (has_arg p =? has_arg q)
  || negb (bool_decide (flag p = flag q))
  || negb (val p =? val q).

Inductive lookup_result := Found (p : struct_option) | Ambiguous | Unknown.

Definition lookup_long (tbl : list (string * struct_option)) (nm : string)
    : lookup_result :=
  match find (fun e => String.eqb (fst e) nm) tbl with
  | Some e => Found (snd e)
  | None =>
      match filter (fun e => String.prefix nm (fst e) = true) tbl with
      | [] => Unknown
      | e :: others =>
          if existsb (fun e' => differs (snd e) (snd e')) others
          then Ambiguous else Found (snd e)
      end
  end.

(** With a non-null [flag], [*flag = val] (a write outside this model)
    and the return value is 0. *)
Definition long_return (p : struct_option) : Z :=
  match flag p with
  | Some _ => 0
  | None => val p
  end.

(** [process_long_option], [text] being what follows the two dashes. *)
Definition long_option (optstring : list ascii) (longopts : list struct_option)
    (text : list ascii) (next : option string) : result * bool :=
  let '(nm, value) := split_eq text in
  match lookup_long (table longopts) (string_of_list_ascii nm) with
  | Unknown | Ambiguous => ((char_to_int "?", None), false)
  | Found p =>
      match value with
      | Some v =>
          if has_arg p =? 0 then ((char_to_int "?", None), false)
          else ((long_return p, Some (string_of_list_ascii v)), false)
      | None =>
          if has_arg p =? 1 then
            match next with
            | Some a => ((long_return p, Some a), true)
            | None => ((missing_code optstring, None), false)
            end
          else ((long_return p, None), false)
      end
  end.

(** The results of the calls made on one argv element that is an option. *)
Definition element (optstring : list ascii) (longopts : list struct_option)
    (arg : list ascii) (next : option string) : list result * bool :=
  match arg with
  | "-"%char :: "-"%char :: text =>
      let '(r, used) := long_option optstring longopts text next in ([r], used)
  | "-"%char :: chars => short_options optstring chars next
  | _ => ([], false)
  end.

Definition is_option (arg : list ascii) : bool :=
  match arg with
  | "-"%char :: _ :: _ => true
  | _ => false
  end.

Fixpoint scan (ord : ordering) (optstring : list ascii)
    (longopts : list struct_option) (args : list string) : list result :=
  match args with
  | [] => []
  | a :: rest =>
      if String.eqb a "--" then []
      else if is_option (list_ascii_of_string a) then
        let '(rs, used) :=
          element optstring longopts (list_ascii_of_string a) (head rest) in
        rs ++ match rest with
              | [] => []
              | _ :: rest' =>
                  if used then scan ord optstring longopts rest'
                  else scan ord optstring longopts rest
              end
      else
        match ord with
        | REQUIRE_ORDER => []
        | PERMUTE => scan ord optstring longopts rest
        | RETURN_IN_ORDER => (1, Some a) :: scan ord optstring longopts rest
        end
  end.

(** All results of [getopt_long (argc, argv, optstring, longopts, NULL)]
    before the final -1 of the scanner; [argv[0]] is not scanned. *)
Definition getopt_long (argv : list string) (optstring : string)
    (longopts : list struct_option) : list result :=
  let '(ord, os) := ordering_of (list_ascii_of_string optstring) in
  scan ord os longopts (tail argv).

End Getopt.

(** ** Bound variables *)

(** The types [T] at which the templates are instantiated: [bool],
    [unsigned], [int], [std::string]; [VOther text] stands for a value of
    any other streamable type, [text] being what [operator<<] writes for
    it. *)
Inductive value :=
  | VBool (b : bool)
  | VUnsigned (n : Z)
  | VInt (z : Z)
  | VString (s : string)
  | VOther (text : string).

(** [ss << v] *)
Definition show (v : value) : string :=
  match v with
  | VBool b => if b then "1" else "0"
  | VUnsigned n => NilZero.string_of_uint (N.to_uint (Z.to_N n))
  | VInt z => NilZero.string_of_int (Z.to_int z)
  | VString s => s
  | VOther text => text
  end.

(** The closures stored in [setters], by what they capture:
    [std::bind(&Options::set<std::string>, this, std::ref(var), _1)],
    the same for the primary template [set<T>], and the lambda of
    [AddSwitch]. *)
Inductive setter :=
  | SetString (var : nat)
  | SetStream (var : nat)
  | Negate (var : nat).

Definition setter_var (s : setter) : nat :=
  match s with
  | SetString var | SetStream var | Negate var => var
  end.

(** ** The class *)

Record Options := mk_Options {
  Header : string;
  IndentFlag : Z;
  IndentDescription : Z;
  long_flags : gset string;
  options : list struct_option;
  setters : gmap Z setter;
  usage : list (string * list string);
  optval : Z;
  optstr : string
}.

(** [Options() : IndentFlag(2), IndentDescription(18), optval(256) {}] *)
Definition Options_new : Options :=
  mk_Options "" 2 18 ∅ [] ∅ [] 256 "".

Definition with_long_flags (o : Options) (x : gset string) :=
  mk_Options (Header o) (IndentFlag o) (IndentDescription o) x (options o)
    (setters o) (usage o) (optval o) (optstr o).
Definition with_options (o : Options) (x : list struct_option) :=
  mk_Options (Header o) (IndentFlag o) (IndentDescription o) (long_flags o) x
    (setters o) (usage o) (optval o) (optstr o).
Definition with_setters (o : Options) (x : gmap Z setter) :=
  mk_Options (Header o) (IndentFlag o) (IndentDescription o) (long_flags o)
    (options o) x (usage o) (optval o) (optstr o).
Definition with_usage (o : Options) (x : list (string * list string)) :=
  mk_Options (Header o) (IndentFlag o) (IndentDescription o) (long_flags o)
    (options o) (setters o) x (optval o) (optstr o).
Definition with_optval (o : Options) (x : Z) :=
  mk_Options (Header o) (IndentFlag o) (IndentDescription o) (long_flags o)
    (options o) (setters o) (usage o) x (optstr o).
Definition with_optstr (o : Options) (x : string) :=
  mk_Options (Header o) (IndentFlag o) (IndentDescription o) (long_flags o)
    (options o) (setters o) (usage o) (optval o) x.

(** How a call ends: it returns, it throws [std::runtime_error (what)], or
    its wrapping loop does not come to an end (it is still running after
    [desc.size () + 1] iterations, which are enough whenever the column
    width is positive, see [wrap_loop_chunks]). *)
Inductive outcome :=
  | Returned
  | Throw (what : string)
  | Hang.

(** ** [get_default] *)

(** The primary template, whose first two branches test
    [std::is_same<T, bool>] and [std::is_same<T, unsigned>], and the
    specialisation for [std::string]. *)
Definition get_default (default_val : value) : string :=
  match default_val with
  | VBool _ => " <switch>"
  | VUnsigned n =>
      if n =? 0 then ""
      else " <default: " +:+ show default_val +:+ ">"
  | VString s =>
      if slen s =? 0 then ""
      else " <default: " +:+ s +:+ ">"
  | VInt _ | VOther _ => " <default: " +:+ show default_val +:+ ">"
  end.

(** ** [tty_width] *)

(** [ws_col] is the [unsigned short] column count that the ioctl reports. *)
Definition tty_width (ws_col : Z) : Z :=
  let cols := u16 ws_col in
  if 40 <=? cols then cols else 80.

(** ** Single precision arithmetic of [width * 0.3f]

    A non-negative float is represented by its value times [2 ^ 25]; all
    the values that occur are integers in that unit.  [round24] rounds to
    24 significant bits, ties to even. *)
Module Float32.

Definition round24 (p : Z) : Z :=
  if p <? 2 ^ 24 then p
  else
    let k := Z.log2 p - 23 in
    let q := p / 2 ^ k in
    let r := p mod 2 ^ k in
    let half := 2 ^ (k - 1) in
    let q' := if r <? half then q
              else if half <? r then q + 1
              else if Z.even q then q else q + 1 in
    q' * 2 ^ k.

(** [0.3f] is [10066330 * 2 ^ -25]. *)
Definition c03 : Z := 10066330.

(** [(float) n] for an unsigned integer [n], in units of [2 ^ -25]. *)
Definition of_unsigned (n : Z) : Z := round24 n * 2 ^ 25.

(** [(float) w * 0.3f], in units of [2 ^ -25]. *)
Definition mul_03f (w : Z) : Z := round24 (round24 w * c03).

(** [n > w * 0.3f], [n] being a [size_t] and [w] an [unsigned]. *)
Definition gt_03f (n w : Z) : bool := mul_03f w <? of_unsigned n.

End Float32.

(** ** The usage block of one entry *)

(** [s.substr (pos, len)] for [pos <= s.size ()]. *)
Definition substr (s : string) (pos len : Z) : string :=
  string_of_list_ascii
    (take (Z.to_nat (Z.min len (slen s - pos)))
       (drop (Z.to_nat pos) (list_ascii_of_string s))).

(** [s.substr (pos)] *)
Definition substr_from (s : string) (pos : Z) : string :=
  string_of_list_ascii (drop (Z.to_nat pos) (list_ascii_of_string s)).

(** [while (desc.substr (i, 1) == " ") ++i;], [rest] being [desc] from
    position [i] on. *)
Fixpoint skip_spaces (rest : list ascii) (i : Z) : Z :=
  match rest with
  | " "%char :: rest' => skip_spaces rest' (i + 1)
  | _ => i
  end.

(** The [for] loop of [add_entry]; [i] is an [int], [column_width] and
    [desc_pos] are [unsigned], and [i + column_width] is computed in
    [unsigned]. *)
Fixpoint wrap_loop (fuel : nat) (desc : string) (column_width desc_pos : Z)
    (i : Z) (ss : string) : option string :=
  match fuel with
  | O => None
  | S fuel' =>
      if u64 i <? slen desc then
        let i1 := skip_spaces (drop (Z.to_nat i) (list_ascii_of_string desc)) i in
        let ss' :=
          if u32 (i1 + column_width) <? slen desc
          then ss +:+ substr desc i1 column_width +:+ str1 "010" +:+ spaces desc_pos
          else ss +:+ substr_from desc i1 in
        wrap_loop fuel' desc column_width desc_pos (s32 (i1 + column_width)) ss'
      else Some ss
  end.

(** The flag label with its padding: lines 136 to 140. *)
Definition label (indent_flag indent_description : Z) (flag : ascii)
    (long_flag : string) : string :=
  let ss0 := spaces indent_flag in
  let ss1 := if is_nul flag then ss0 else ss0 +:+ "-" +:+ str1 flag +:+ " " in
  let ss2 := if slen long_flag =? 0 then ss1 else ss1 +:+ "--" +:+ long_flag +:+ " " in
  ss2 +:+ spaces (if indent_description <? slen ss2 then 1
                 else indent_description - slen ss2).

(** [desc_pos] of line 146. *)
Definition description_start (indent_flag width prefix_len : Z) : Z :=
  if Float32.gt_03f (u64 (width - prefix_len)) width
  then u32 prefix_len
  else u32 (indent_flag + 2).

(** Lines 135 to 157: the string pushed to [usage[group]], or [None] when
    the loop is still running after [desc.size () + 1] iterations. *)
Definition usage_block (indent_flag indent_description : Z) (flag : ascii)
    (long_flag : string) (default_val : value) (description : string)
    (ws_col : Z) : option string :=
  let ss := label indent_flag indent_description flag long_flag in
  let desc := description +:+ get_default default_val in
  let width := u32 (tty_width ws_col) in
  let desc_pos := description_start indent_flag width (slen ss) in
  let column_width := u32 (width - desc_pos) in
  let ss' := if desc_pos =? u32 (indent_flag + 2) then ss +:+ str1 "010" else ss in
  wrap_loop (S (String.length desc)) desc column_width desc_pos 0 ss'.

(** [usage[group].push_back (block)] on the map kept in key order. *)
Fixpoint usage_push (u : list (string * list string)) (group block : string)
    : list (string * list string) :=
  match u with
  | [] => [(group, [block])]
  | (k, blocks) :: rest =>
      match String.compare group k with
      | Eq => (k, blocks ++ [block]) :: rest
      | Lt => (group, [block]) :: u
      | Gt => (k, blocks) :: usage_push rest group block
      end
  end.

(** ** [add_entry] *)

(** Lines 112 to 122: the option code. *)
Definition add_entry_code (opt : struct_option) (flag : ascii) (o : Options)
    : string + struct_option * Options :=
  if is_nul flag then
    inr (set_val opt (optval o), with_optval o (s32 (optval o + 1)))
  else
    match setters o !! char_to_int flag with
    | Some _ => inl ("Duplicate flag '" +:+ str1 flag +:+ "'")
    | None =>
        inr (set_val opt (char_to_int flag),
             with_optstr o (optstr o +:+ str1 flag))
    end.

(** [s.c_str ()] as [getopt_long] reads it: the characters before the
    first NUL of the [std::string]. *)
Fixpoint c_str (s : string) : string :=
  match s with
  | EmptyString => EmptyString
  | String ch rest => if is_nul ch then EmptyString else String ch (c_str rest)
  end.

(** Lines 124 to 131: the long name.  The set holds the [std::string]
    with all its characters; the entry gets the pointer [c_str ()] of the
    inserted element. *)
Definition add_entry_name (opt : struct_option) (long_flag : string) (o : Options)
    : string + struct_option * Options :=
  if slen long_flag =? 0 then inr (opt, o)
  else if bool_decide (long_flag ∈ long_flags o) then
    inl ("Duplicate long flag " +:+ str1 "034" +:+ long_flag +:+ str1 "034")
  else
    inr (set_name opt (Some (c_str long_flag)),
         with_long_flags o ({[ long_flag ]} ∪ long_flags o)).

(** [opt] is the caller's [struct option&]; [ws_col] is what the terminal
    reports when [tty_width] is called. *)
Definition add_entry (opt : struct_option) (flag : ascii) (long_flag : string)
    (default_val : value) (description group : string) (ws_col : Z)
    (o : Options) : outcome * struct_option * Options :=
  if is_nul flag && (slen long_flag =? 0) then (Returned, opt, o)
  else
    match add_entry_code opt flag o with
    | inl what => (Throw what, opt, o)
    | inr (opt1, o1) =>
        match add_entry_name opt1 long_flag o1 with
        | inl what => (Throw what, opt1, o1)
        | inr (opt2, o2) =>
            let opt3 := set_flag opt2 None in
            if slen description =? 0 then (Returned, opt3, o2)
            else
              match usage_block (IndentFlag o2) (IndentDescription o2) flag
                      long_flag default_val description ws_col with
              | None => (Hang, opt3, o2)
              | Some block =>
                  (Returned, opt3,
                   with_usage o2 (usage_push (usage o2) group block))
              end
        end
    end.

(** ** [Add] and [AddSwitch] *)

(** The instance of [set] that [Add<T>] binds. *)
Definition bind_set (default_val : value) (var : nat) : setter :=
  match default_val with
  | VString _ => SetString var
  | _ => SetStream var
  end.

(** [op] is the content of the uninitialised local [struct option op] at
    entry, [var] the address of the bound variable. *)
Definition Add (var : nat) (flag : ascii) (long_flag description : string)
    (default_val : value) (group : string) (op : struct_option) (ws_col : Z)
    (o : Options) (mem : gmap nat value) : outcome * Options * gmap nat value :=
  match add_entry op flag long_flag default_val description group ws_col o with
  | (Returned, op1, o1) =>
      let o2 := with_optstr o1 (optstr o1 +:+ ":") in
      let op2 := set_has_arg op1 required_argument in
      let mem' := <[var := default_val]> mem in
      let o3 := with_setters o2 (<[val op2 := bind_set default_val var]> (setters o2)) in
      (Returned, with_options o3 (options o3 ++ [op2]), mem')
  | (out, _, o1) => (out, o1, mem)
  end.

Definition read_bool (mem : gmap nat value) (var : nat) : bool :=
  match mem !! var with
  | Some (VBool b) => b
  | _ => false
  end.

Definition AddSwitch (var : nat) (flag : ascii) (long_flag description : string)
    (default_val : bool) (group : string) (op : struct_option) (ws_col : Z)
    (o : Options) (mem : gmap nat value) : outcome * Options * gmap nat value :=
  match add_entry op flag long_flag (VBool (read_bool mem var)) description
          group ws_col o with
  | (Returned, op1, o1) =>
      let op2 := set_has_arg op1 optional_argument in
      let mem' := <[var := VBool default_val]> mem in
      let o2 := with_setters o1 (<[val op2 := Negate var]> (setters o1)) in
      (Returned, with_options o2 (options o2 ++ [op2]), mem')
  | (out, _, o1) => (out, o1, mem)
  end.

(** ** [set] and [Parse] *)

Section Parsing.

(** [ss >> var] of the primary template [set<T>]: the formatted
    extraction of the standard library, applied to the old value of the
    variable and the text of the stream. *)
Variable stream_extract : value -> string -> value.

(** [set<T> (var, optarg)]: the specialisation for [std::string] assigns
    the text, the primary template extracts the variable from a stream
    over the text. *)
Definition set (string_specialisation : bool) (var : nat) (optarg : string)
    (mem : gmap nat value) : gmap nat value :=
  if string_specialisation then <[var := VString optarg]> mem
  else
    match mem !! var with
    | Some v => <[var := stream_extract v optarg]> mem
    | None => mem
    end.

(** A call of the stored closure with the argument text. *)
Definition call_setter (s : setter) (optarg : string) (mem : gmap nat value)
    : gmap nat value :=
  match s with
  | SetString var => set true var optarg mem
  | SetStream var => set false var optarg mem
  | Negate var =>
      match mem !! var with
      | Some (VBool b) => <[var := VBool (negb b)]> mem
      | _ => mem
      end
  end.

(** The [while] loop over the results of [getopt_long]. *)
Fixpoint Parse_loop (setters : gmap Z setter) (results : list Getopt.result)
    (mem : gmap nat value) : bool * gmap nat value :=
  match results with
  | [] => (true, mem)
  | (ch, optarg) :: rest =>
      if ch =? -1 then (true, mem)
      else
        match setters !! ch with
        | Some s => Parse_loop setters rest (call_setter s (default "" optarg) mem)
        | None => (false, mem)
        end
  end.

Definition Parse (argv : list string) (o : Options) (mem : gmap nat value)
    : bool * Options * gmap nat value :=
  let o' := with_options o (options o ++ [option_end]) in
  let '(r, mem') :=
    Parse_loop (setters o') (Getopt.getopt_long argv (optstr o') (options o')) mem in
  (r, o', mem').

End Parsing.

(** ** [Usage] *)

Definition sconcat (l : list string) : string := fold_right String.append "" l.

Definition group_header (group : string) : string :=
  if negb (slen group =? 0) && negb (String.eqb group "_")
  then group +:+ ":" +:+ str1 "010" else "".

Definition usage_section (e : string * list string) : string :=
  group_header (fst e)
  +:+ sconcat (map (fun description => description +:+ str1 "010") (snd e))
  +:+ str1 "010".

Definition Usage (o : Options) : string :=
  (if slen (Header o) =? 0 then "" else Header o)
  +:+ sconcat (map usage_section (usage o)).

(** ** Sequences of registration calls *)

Inductive call_kind :=
  | CallAdd (default_val : value)
  | CallAddSwitch (default_val : bool).

Record call := mk_call {
  c_kind : call_kind;
  c_var : nat;
  c_flag : ascii;
  c_long_flag : string;
  c_description : string;
  c_group : string;
  c_op : struct_option;
  c_ws_col : Z
}.

Definition c_default (c : call) : value :=
  match c_kind c with
  | CallAdd d => d
  | CallAddSwitch b => VBool b
  end.

Definition register (c : call) (o : Options) (mem : gmap nat value)
    : outcome * Options * gmap nat value :=
  match c_kind c with
  | CallAdd d =>
      Add (c_var c) (c_flag c) (c_long_flag c) (c_description c) d
        (c_group c) (c_op c) (c_ws_col c) o mem
  | CallAddSwitch b =>
      AddSwitch (c_var c) (c_flag c) (c_long_flag c) (c_description c) b
        (c_group c) (c_op c) (c_ws_col c) o mem
  end.

(** The calls of a program in order, the caller catching what is thrown;
    nothing runs after a call that does not come back. *)
Fixpoint register_all (cs : list call) (o : Options) (mem : gmap nat value)
    : Options * gmap nat value :=
  match cs with
  | [] => (o, mem)
  | c :: cs' =>
      match register c o mem with
      | (Hang, o', mem') => (o', mem')
      | (_, o', mem') => register_all cs' o' mem'
      end
  end.

(** * Vocabulary of the statements

    Predicates and functions that the properties below are stated with,
    and the registrations that the examples use. *)

Local Open Scope string_scope.
Local Open Scope Z_scope.
Local Open Scope list_scope.

Abbreviation chars := list_ascii_of_string.

(** ** Registration *)

(** The call names a short or a long flag. *)
Definition names_flag (c : call) : bool :=
  negb (is_nul (c_flag c) && (slen (c_long_flag c) =? 0)).

Definition short_registered (o : Options) (flag : ascii) : Prop :=
  is_nul flag = false /\ char_to_int flag ∈ dom (setters o).

Definition long_registered (o : Options) (long_flag : string) : Prop :=
  long_flag <> "" /\ long_flag ∈ long_flags o.

(** Every call of the sequence returns. *)
Fixpoint all_returned (cs : list call) (o : Options) (mem : gmap nat value)
    : bool :=
  match cs with
  | [] => true
  | c :: cs' =>
      match register c o mem with
      | (Returned, o', mem') => all_returned cs' o' mem'
      | _ => false
      end
  end.

(** The entries have pairwise distinct codes, each with a setter and below
    the counter, and the counter has moved at most [k] times. *)
Definition codes_inv (k : Z) (o : Options) : Prop :=
  NoDup (map val (options o))
  /\ Forall (fun e => val e ∈ dom (setters o) /\ val e < optval o) (options o)
  /\ 256 <= optval o <= 256 + k.

(** ** Default values *)

(** Whether a default is the empty or zero value of its type. *)
Definition is_blank (v : value) : bool :=
  match v with
  | VBool b => negb b
  | VUnsigned n => n =? 0
  | VInt z => z =? 0
  | VString s | VOther s => slen s =? 0
  end.

(** ** The usage table *)

(** The order of [std::map<std::string, ...>]. *)
Definition string_lt (a b : string) : Prop := String.compare a b = Lt.

Definition keys_sorted (u : list (string * list string)) : Prop :=
  StronglySorted string_lt (map fst u).

(** The sequence of [usage[group].push_back (block)] that built a table. *)
Definition usage_of (pushes : list (string * string))
    : list (string * list string) :=
  fold_left (fun u p => usage_push u (fst p) (snd p)) pushes [].

(** The blocks pushed for a group, in the order of the pushes. *)
Definition blocks_of (pushes : list (string * string)) (group : string)
    : list string :=
  map snd (List.filter (fun p => String.eqb (fst p) group) pushes).

(** [usage[group]] read without inserting. *)
Fixpoint usage_get (u : list (string * list string)) (group : string)
    : list string :=
  match u with
  | [] => []
  | (k, blocks) :: rest =>
      if String.eqb group k then blocks else usage_get rest group
  end.

(** The claim's table: a group keeps the place of its first push. *)
Fixpoint ordered_push (u : list (string * list string)) (group block : string)
    : list (string * list string) :=
  match u with
  | [] => [(group, [block])]
  | (k, blocks) :: rest =>
      if String.eqb group k then (k, blocks ++ [block]) :: rest
      else (k, blocks) :: ordered_push rest group block
  end.

(** [Usage] as C5 words it: the header, then the sections in the order in
    which the groups first appeared. *)
Definition Usage_in_registration_order (header : string)
    (pushes : list (string * string)) : string :=
  header
  +:+ sconcat (map usage_section
                 (fold_left (fun u p => ordered_push u (fst p) (snd p)) pushes [])).

(** ** The reports of [getopt_long] *)

(** The result is not the final -1 and its code has a setter. *)
Definition dispatched (st : gmap Z setter) (r : Getopt.result) : Prop :=
  fst r <> -1 /\ is_Some (st !! fst r).

Section Reports.

Variable ex : value -> string -> value.

(** The setters of a list of results called in order. *)
Fixpoint run_setters (st : gmap Z setter) (rs : list Getopt.result)
    (mem : gmap nat value) : gmap nat value :=
  match rs with
  | [] => mem
  | (ch, optarg) :: rest =>
      match st !! ch with
      | Some s => run_setters st rest (call_setter ex s (default "" optarg) mem)
      | None => run_setters st rest mem
      end
  end.

End Reports.

(** The variables that the setters of a list of results are bound to. *)
Definition targets (st : gmap Z setter) (rs : list Getopt.result) : list nat :=
  omap (fun r => setter_var <$> st !! fst r) rs.

(** The number of reports of the code [ch]. *)
Definition occurrences (ch : Z) (rs : list Getopt.result) : nat :=
  length (List.filter (fun r => fst r =? ch) rs).

(** No report of another code has a setter bound to [var]. *)
Definition only_bound_by (st : gmap Z setter) (ch : Z) (var : nat)
    (rs : list Getopt.result) : Prop :=
  Forall (fun r => fst r <> ch ->
                   forall s, st !! fst r = Some s -> setter_var s <> var) rs.

(** The name part of the text after the two dashes. *)
Definition long_name (text : string) : string :=
  string_of_list_ascii (fst (Getopt.split_eq (list_ascii_of_string text))).

(** No entry has a long name that [nm] is, or abbreviates. *)
Definition unknown_long (longopts : list struct_option) (nm : string) : Prop :=
  Forall (fun p => match name p with
                   | Some n => String.prefix nm n = false
                   | None => True
                   end) longopts.

(** The character is not an option character of the option string. *)
Definition unknown_short (optstring : string) (c : ascii) : Prop :=
  Getopt.strchr (snd (Getopt.ordering_of (list_ascii_of_string optstring))) c
  = None.

(** An argv element that names no flag of the object: [--name] or
    [--name=value] where [name] is neither the name of an entry nor the
    beginning of one, or [-c...] where [c] is not an option character. *)
Definition unregistered (o : Options) (a : string) : Prop :=
  (exists text,
     a = "--" +:+ text /\ text <> ""
     /\ unknown_long (options o) (long_name text))
  \/ (exists c more,
        a = String "-" (String c more) /\ c <> "-"%char
        /\ unknown_short (optstr o) c).

(** An extraction that leaves the variable as it was; it stands for
    [operator>>] where no stream is read. *)
Definition keep_value (v : value) (text : string) : value := v.

(** ** The wrapped description *)

(** The characters other than spaces, in order. *)
Definition nonspace (l : list ascii) : list ascii :=
  List.filter (fun c => negb (Ascii.eqb c " ")) l.

(** The chunks separated by a newline and the indentation. *)
Definition joined (desc_pos : Z) (chunks : list string) : string :=
  match chunks with
  | [] => ""
  | c :: cs =>
      c +:+ sconcat (map (fun c' => str1 "010" +:+ spaces desc_pos +:+ c') cs)
  end.

(** A text cut into pieces: a piece is a run of spaces, given by its
    length, followed by a chunk. *)
Definition pieces_text (pieces : list (nat * string)) : list ascii :=
  concat (map (fun p => repeat " "%char (fst p) ++ chars (snd p)) pieces).

(** What the loop does from position [i] of [desc] on: it skips the
    spaces of each piece and appends its chunk. *)
Definition wrapped_from (desc : string) (column_width : Z) (i : Z)
    (pieces : list (nat * string)) : Prop :=
  let chunks := map snd pieces in
  (i < slen desc -> chunks <> [])
  /\ (slen desc <= i -> chunks = [])
  /\ Forall (fun c => slen c <= column_width) chunks
  /\ Forall (fun c => head (chars c) <> Some " "%char) chunks
  /\ Forall (fun c => slen c = column_width) (removelast chunks)
  /\ drop (Z.to_nat i) (chars desc) = pieces_text pieces
  /\ Forall (fun p => snd p = "" -> (0 < fst p)%nat) pieces
  /\ nonspace (concat (map chars chunks))
     = nonspace (drop (Z.to_nat i) (chars desc)).

(** ** Registrations used in the examples *)

Definition switch_v : call :=
  mk_call (CallAddSwitch false) 0 "v" "verbose" "increase verbosity" ""
    option_end 80.

Definition string_o : call :=
  mk_call (CallAdd (VString "out.txt")) 1 "o" "output" "output file path" ""
    option_end 80.

Definition string_v : call :=
  mk_call (CallAdd (VString "x")) 2 "v" "other" "" "" option_end 80.

Definition long_only_input : call :=
  mk_call (CallAdd (VString "")) 3 Ascii.zero "input" "" "" option_end 80.

Definition long_only_mode : call :=
  mk_call (CallAdd (VUnsigned 4)) 4 Ascii.zero "mode" "" "" option_end 80.

Definition help_question : call :=
  mk_call (CallAddSwitch false) 0 "?" "help" "print this help" ""
    option_end 80.

Definition group_b_first : call :=
  mk_call (CallAdd (VString "")) 0 "x" "" "first" "b" option_end 80.

Definition group_a_second : call :=
  mk_call (CallAdd (VString "")) 1 "y" "" "second" "a" option_end 80.

Definition with_switch_and_string : Options * gmap nat value :=
  register_all [switch_v; string_o] Options_new ∅.

Definition with_help_question : Options * gmap nat value :=
  register_all [help_question] Options_new ∅.

Definition two_groups : Options :=
  (register_all [group_b_first; group_a_second] Options_new ∅).1.

Definition two_pushes : list (string * string) :=
  [("b", "  -x              first"); ("a", "  -y              second")].

(** [Add (a, 'a', "alpha", "", "dflt")] followed by
    [Add (b, '\0', "beta", "", "")], [op1] and [op2] being whatever the
    uninitialised locals held. *)
Definition value_flag_then_long_only (op1 op2 : struct_option)
    : Options * gmap nat value :=
  register_all
    [mk_call (CallAdd (VString "dflt")) 0 "a" "alpha" "" "" op1 80;
     mk_call (CallAdd (VString "")) 1 Ascii.zero "beta" "" "" op2 80]
    Options_new ∅.

(** [AddSwitch (v, 'v', "verbose", "", false)] followed by
    [Add (input, '\0', "input", "", "")]. *)
Definition switch_then_long_only (op1 op2 : struct_option)
    : Options * gmap nat value :=
  register_all
    [mk_call (CallAddSwitch false) 0 "v" "verbose" "" "" op1 80;
     mk_call (CallAdd (VString "")) 1 Ascii.zero "input" "" "" op2 80]
    Options_new ∅.

(** [AddSwitch (v, 'v', "verbose", "", false)] followed by
    [Add (s, '\0', "", "", "")], [op] being what the uninitialised local
    of the second call held. *)
Definition flagless_after_switch (op : struct_option)
    : Options * gmap nat value :=
  register_all
    [mk_call (CallAddSwitch false) 0 "v" "verbose" "" "" option_end 80;
     mk_call (CallAdd (VString "")) 1 Ascii.zero "" "" "" op 80]
    Options_new ∅.

Definition long_label : string := "transparent-color-index-for-sprites".

Definition long_description : string :=
  "Palette index that is treated as transparent when sprites are converted".

(** ** What a returning call records *)

(** The option code of a call, [optval] being the counter at the call:
    lines 112 to 122. *)
Definition code_of (c : call) (optval : Z) : Z :=
  if is_nul (c_flag c) then optval else char_to_int (c_flag c).

(** The counter after the call. *)
Definition next_optval (c : call) (optval : Z) : Z :=
  if is_nul (c_flag c) then s32 (optval + 1) else optval.

(** The entry that the call pushes to [options]: the name is the long
    flag as a C string, or what the uninitialised [op.name] held when the
    call has no long flag; [has_arg] is set by [Add] or [AddSwitch],
    [flag] is null. *)
Definition entry_of (c : call) (optval : Z) : struct_option :=
  mk_option
    (if slen (c_long_flag c) =? 0 then name (c_op c)
     else Some (c_str (c_long_flag c)))
    (match c_kind c with
     | CallAdd _ => required_argument
     | CallAddSwitch _ => optional_argument
     end)
    None (code_of c optval).

(** The closure that the call stores in [setters]. *)
Definition setter_of (c : call) : setter :=
  match c_kind c with
  | CallAdd d => bind_set d (c_var c)
  | CallAddSwitch _ => Negate (c_var c)
  end.

(** What the call appends to [optstr]: its short character in
    [add_entry], and a colon in [Add]. *)
Definition optstr_piece (c : call) : string :=
  (if is_nul (c_flag c) then "" else str1 (c_flag c))
  +:+ match c_kind c with
      | CallAdd _ => ":"
      | CallAddSwitch _ => ""
      end.

(** The entries of a sequence of calls, from the counter [optval] on. *)
Fixpoint entries (cs : list call) (optval : Z) : list struct_option :=
  match cs with
  | [] => []
  | c :: cs' => entry_of c optval :: entries cs' (next_optval c optval)
  end.

(** The setters of a sequence of calls, stored in the order of the calls. *)
Fixpoint bind_all (cs : list call) (optval : Z) (st : gmap Z setter)
    : gmap Z setter :=
  match cs with
  | [] => st
  | c :: cs' =>
      bind_all cs' (next_optval c optval) (<[code_of c optval := setter_of c]> st)
  end.

(** The counter after a sequence of calls. *)
Definition counter_after (cs : list call) (optval : Z) : Z :=
  fold_left (fun v c => next_optval c v) cs optval.

(** A short flag that [getopt_long] reports under its own code: not one
    of the characters that have a meaning of their own in an option
    string or on the command line, and not the character whose code is
    -1, the value that ends the loop of [Parse]. *)
Definition plain_flag (f : ascii) : bool :=
  negb (Ascii.eqb f ":" || Ascii.eqb f ";" || Ascii.eqb f "+" || Ascii.eqb f "-"
        || Ascii.eqb f "255" || is_nul f).

(** The string has no NUL character: it is the same as a C string. *)
Definition no_nul (s : string) : bool :=
  forallb (fun ch => negb (is_nul ch)) (chars s).

(** The call names a flag, its short flag if any is a plain one, and a
    call of [Add] has a short flag. *)
Definition well_formed (c : call) : bool :=
  names_flag c
  && (is_nul (c_flag c) || plain_flag (c_flag c))
  && match c_kind c with
     | CallAdd _ => negb (is_nul (c_flag c))
     | CallAddSwitch _ => true
     end.

(** [Add (x, 'x', "output")] on an object that has a flag [--output]. *)
Definition string_x_output : call :=
  mk_call (CallAdd (VString "")) 2 "x" "output" "" "" option_end 80.

(** ** Command lines *)

(** The ways to give a flag on the command line: [-f text], [-ftext],
    [--name=text] and [--name text]; a switch takes no text in the first
    and the last. *)
Inductive form := ShortSeparate | ShortJoined | LongJoined | LongSeparate.

(** One item of a command line: a flag in one of its forms with the text
    of its argument, or an operand. *)
Inductive argument :=
  | Flag (c : call) (f : form) (text : string)
  | Operand (a : string).

Definition is_switch (c : call) : bool :=
  match c_kind c with
  | CallAdd _ => false
  | CallAddSwitch _ => true
  end.

(** The argv elements of an item. *)
Definition render (a : argument) : list string :=
  match a with
  | Flag c ShortSeparate text =>
      if is_switch c then ["-" +:+ str1 (c_flag c)]
      else ["-" +:+ str1 (c_flag c); text]
  | Flag c ShortJoined text => ["-" +:+ str1 (c_flag c) +:+ text]
  | Flag c LongJoined text => ["--" +:+ c_long_flag c +:+ "=" +:+ text]
  | Flag c LongSeparate text =>
      if is_switch c then ["--" +:+ c_long_flag c]
      else ["--" +:+ c_long_flag c; text]
  | Operand a => [a]
  end.

(** What an item does to the variables: the setter of its flag is called
    with the text (the setter of a switch does not look at it). *)
Definition effect (ex : value -> string -> value) (a : argument)
    (mem : gmap nat value) : gmap nat value :=
  match a with
  | Flag c _ text => call_setter ex (setter_of c) text mem
  | Operand _ => mem
  end.

(** The items that the calls [cs] provide for: a short form needs a
    short flag, the joined short form a value flag and a text; a long
    form needs a long flag without [=] and without NUL that follows only
    calls with long flags without NUL; an operand does not begin with a
    dash, or is a lone dash. *)
Definition allowed (cs : list call) (a : argument) : Prop :=
  match a with
  | Flag c f text =>
      c ∈ cs
      /\ match f with
         | ShortSeparate => is_nul (c_flag c) = false
         | ShortJoined =>
             is_nul (c_flag c) = false /\ is_switch c = false /\ text <> ""
         | LongJoined | LongSeparate =>
             c_long_flag c <> "" /\ ("="%char ∉ chars (c_long_flag c))
             /\ no_nul (c_long_flag c) = true
             /\ (exists pre post,
                   cs = pre ++ c :: post
                   /\ Forall (fun c' => c_long_flag c' <> ""
                                        /\ no_nul (c_long_flag c') = true) pre)
         end
  | Operand a => Getopt.is_option (chars a) = false
  end.

(** [prog -v in.png --output=b.txt -o c.txt --verbose -od.txt] *)
Definition sample_command_line : list argument :=
  [Flag switch_v ShortSeparate ""; Operand "in.png";
   Flag string_o LongJoined "b.txt"; Flag string_o ShortSeparate "c.txt";
   Flag switch_v LongSeparate ""; Flag string_o ShortJoined "d.txt"].

(** [prog -v in.png --output=b.txt], to be followed by an option that
    is not registered. *)
Definition sample_items : list argument :=
  [Flag switch_v ShortSeparate ""; Operand "in.png";
   Flag string_o LongJoined "b.txt"].

(** * Properties *)

(** ** The model of [getopt_long] on the example of the specification *)

Example getopt_ex1 :
  Getopt.getopt_long ["prog"; "-v"; "--output=result.txt"]%string "vo:"
    [mk_option (Some "verbose"%string) 2 None 118;
     mk_option (Some "output"%string) 1 None 111; option_end]
  = [(118, None); (111, Some "result.txt"%string)].
Proof. reflexivity. Qed.

(** ** Default-value suffix *)

Lemma slen_zero_iff (s : string) : slen s = 0 <-> s = "".
Proof.
  unfold slen. destruct s; simpl; split; intros H; try reflexivity; try lia.
  discriminate H.
Qed.

Lemma append_nonempty_l (s t : string) : s <> "" -> s +:+ t <> "".
Proof. destruct s; simpl; [congruence | discriminate]. Qed.

(** C8, counterexample: an [int] default of zero is a default of "every
    other type" that is zero, and yet its suffix is rendered. *)
Lemma get_default_int_zero_rendered :
  is_blank (VInt 0) = true /\ get_default (VInt 0) = " <default: 0>"
  /\ get_default (VInt 0) <> "".
Proof. repeat split; discriminate. Qed.

(** C8, amended: the suffix is the fixed marker [" <switch>"] for [bool];
    for [unsigned] it is rendered exactly when the default is nonzero; for
    [std::string] exactly when the default is non-empty; for every other
    type it is always rendered, whatever the default. *)
Theorem get_default_by_type (v : value) :
  match v with
  | VBool _ => get_default v = " <switch>"
  | VUnsigned n =>
      (n <> 0 -> get_default v = " <default: " +:+ show v +:+ ">")
      /\ (get_default v = "" <-> n = 0)
  | VString s =>
      (s <> "" -> get_default v = " <default: " +:+ s +:+ ">")
      /\ (get_default v = "" <-> s = "")
  | VInt _ | VOther _ =>
      get_default v = " <default: " +:+ show v +:+ ">" /\ get_default v <> ""
  end.
Proof.
  destruct v as [b | n | z | s | t]; simpl.
  - reflexivity.
  - destruct (Z.eqb_spec n 0) as [-> | Hn]; split; intros; try tauto; try reflexivity.
    split; [discriminate | congruence].
  - split; [reflexivity | discriminate].
  - destruct (Z.eqb_spec (slen s) 0) as [Hs | Hs].
    + apply slen_zero_iff in Hs. subst s. split; [congruence | tauto].
    + split; [reflexivity |].
      split; [discriminate |]. intros ->. now elim Hs.
  - split; [reflexivity | discriminate].
Qed.

(** ** What a registration call changes *)

Lemma is_nul_true (c : ascii) : is_nul c = true <-> c = Ascii.zero.
Proof. unfold is_nul. apply Ascii.eqb_eq. Qed.

(** [add_entry] never touches [setters], [options] or the layout settings,
    and only adds to [long_flags]. *)
Lemma add_entry_frame opt flag long_flag default_val description group ws_col o
    out opt' o' :
  add_entry opt flag long_flag default_val description group ws_col o
    = (out, opt', o') ->
  setters o' = setters o /\ options o' = options o
  /\ long_flags o ⊆ long_flags o'
  /\ Header o' = Header o /\ IndentFlag o' = IndentFlag o
  /\ IndentDescription o' = IndentDescription o.
Proof.
  unfold add_entry, add_entry_code, add_entry_name. intros H.
  repeat case_match; simplify_eq; simpl; repeat split; try reflexivity;
    set_solver.
Qed.

(** When [add_entry] returns for a call that names a flag, the entry has
    its code, its name when there is one, and a null [flag]. *)
Lemma add_entry_returned opt fl long_flag default_val description group ws_col
    o opt' o' :
  add_entry opt fl long_flag default_val description group ws_col o
    = (Returned, opt', o') ->
  is_nul fl && (slen long_flag =? 0) = false ->
  val opt' = (if is_nul fl then optval o else char_to_int fl)
  /\ optval o' = (if is_nul fl then s32 (optval o + 1) else optval o)
  /\ (is_nul fl = false -> setters o !! char_to_int fl = None)
  /\ (slen long_flag <> 0 -> long_flag ∈ long_flags o')
  /\ flag opt' = None.
Proof.
  unfold add_entry, add_entry_code, add_entry_name. intros H Hf. rewrite Hf in H.
  repeat case_match; simplify_eq; simpl; repeat split; intros;
    try reflexivity; try congruence; try lia; try set_solver.
Qed.

Lemma register_frame c o mem out o' mem' :
  register c o mem = (out, o', mem') ->
  dom (setters o) ⊆ dom (setters o') /\ long_flags o ⊆ long_flags o'.
Proof.
  unfold register, Add, AddSwitch. intros H.
  repeat case_match; simplify_eq;
    match goal with
    | E : add_entry _ _ _ _ _ _ _ _ = _ |- _ =>
        apply add_entry_frame in E; destruct E as (Hs & _ & Hl & _)
    end; simpl; rewrite ?dom_insert_L, ?Hs; split; set_solver.
Qed.

Lemma register_all_frame cs : forall o mem o' mem',
  register_all cs o mem = (o', mem') ->
  dom (setters o) ⊆ dom (setters o') /\ long_flags o ⊆ long_flags o'.
Proof.
  induction cs as [| c cs IH]; simpl; intros o mem o' mem' H.
  - simplify_eq. split; reflexivity.
  - destruct (register c o mem) as [[out o1] mem1] eqn:E.
    apply register_frame in E. destruct E as [E1 E2].
    destruct out; simplify_eq; try (split; assumption);
      pose proof (IH _ _ _ _ H) as [H1 H2]; split; etransitivity; eassumption.
Qed.

(** A call that returns leaves its short flag in [setters] and its long
    flag in [long_flags]. *)
Lemma register_records c o mem o' mem' :
  register c o mem = (Returned, o', mem') ->
  (is_nul (c_flag c) = false -> char_to_int (c_flag c) ∈ dom (setters o'))
  /\ (c_long_flag c <> "" -> c_long_flag c ∈ long_flags o').
Proof.
  unfold register, Add, AddSwitch. intros H.
  repeat case_match; simplify_eq;
    match goal with
    | E : add_entry _ _ _ _ _ _ _ _ = _ |- _ =>
        pose proof (add_entry_returned _ _ _ _ _ _ _ _ _ _ E) as R
    end; simpl; split; intros Hf.
  all: try (rewrite Hf in R; simpl in R; destruct R as (R1 & _); [reflexivity |];
            rewrite dom_insert_L, R1; set_solver).
  all: assert (Hl : slen (c_long_flag c) <> 0) by (rewrite slen_zero_iff; exact Hf);
    apply Z.eqb_neq in Hl as Hl'; rewrite Hl', andb_false_r in R;
    destruct R as (_ & _ & _ & R4 & _); [reflexivity |]; auto.
Qed.

(** ** Duplicate flags *)

Lemma register_duplicate c o mem :
  short_registered o (c_flag c) \/ long_registered o (c_long_flag c) ->
  exists what o',
    register c o mem = (Throw what, o', mem)
    /\ setters o' = setters o /\ options o' = options o.
Proof.
  intros Hdup.
  assert (Hne : is_nul (c_flag c) && (slen (c_long_flag c) =? 0) = false).
  { destruct Hdup as [[H _] | [H _]].
    - now rewrite H.
    - apply andb_false_iff. right. apply Z.eqb_neq. now rewrite slen_zero_iff. }
  assert (Hadd : forall opt d,
    exists what opt' o',
      add_entry opt (c_flag c) (c_long_flag c) d (c_description c) (c_group c)
        (c_ws_col c) o = (Throw what, opt', o')
      /\ setters o' = setters o /\ options o' = options o).
  { intros opt d. unfold add_entry. rewrite Hne.
    unfold add_entry_code.
    destruct (is_nul (c_flag c)) eqn:Hf.
    - destruct Hdup as [[H _] | [Hl Hin]]; [congruence |].
      unfold add_entry_name. simpl.
      assert ((slen (c_long_flag c) =? 0) = false) as ->
        by (apply Z.eqb_neq; now rewrite slen_zero_iff).
      rewrite bool_decide_eq_true_2 by exact Hin. eauto 10.
    - destruct (setters o !! char_to_int (c_flag c)) eqn:Hs; [eauto 10 |].
      destruct Hdup as [[_ H] | [Hl Hin]].
      + apply elem_of_dom in H. rewrite Hs in H. destruct H; discriminate.
      + unfold add_entry_name. simpl.
        assert ((slen (c_long_flag c) =? 0) = false) as ->
          by (apply Z.eqb_neq; now rewrite slen_zero_iff).
        rewrite bool_decide_eq_true_2 by exact Hin. eauto 10. }
  unfold register, Add, AddSwitch.
  destruct (c_kind c) as [d | b].
  - destruct (Hadd (c_op c) d) as (what & opt' & o' & -> & H1 & H2). eauto.
  - destruct (Hadd (c_op c) (VBool (read_bool mem (c_var c))))
      as (what & opt' & o' & -> & H1 & H2). eauto.
Qed.

(** C3: once a call has registered a short flag character or a long flag
    string, any later call (whatever happened in between) that names the
    same short character or the same long string throws a
    [std::runtime_error] from the registering call itself; the store of
    bound variables is returned unchanged, and so are [setters] and
    [options]: the second variable gets no setter. *)
Theorem duplicate_registration_throws (c1 c2 : call) (cs : list call)
    (o0 o1 o : Options) (mem0 mem1 mem : gmap nat value) :
  register c1 o0 mem0 = (Returned, o1, mem1) ->
  register_all cs o1 mem1 = (o, mem) ->
  (is_nul (c_flag c2) = false /\ c_flag c2 = c_flag c1)
  \/ (c_long_flag c2 <> "" /\ c_long_flag c2 = c_long_flag c1) ->
  exists what o',
    register c2 o mem = (Throw what, o', mem)
    /\ setters o' = setters o /\ options o' = options o.
Proof.
  intros H1 Hall Hsame.
  apply register_records in H1 as [Hshort Hlong].
  apply register_all_frame in Hall as [Hs Hl].
  apply register_duplicate.
  destruct Hsame as [[Hf E] | [Hf E]]; [left | right]; split; try assumption.
  - rewrite E in *. apply Hs, Hshort, Hf.
  - rewrite E in *. apply Hl, Hlong, Hf.
Qed.

Lemma duplicate_registration_throws_witness :
  exists what o',
    register string_v (register_all [switch_v; string_o] Options_new ∅).1
      (register_all [switch_v; string_o] Options_new ∅).2
    = (Throw what, o', (register_all [switch_v; string_o] Options_new ∅).2)
    /\ setters o' = setters (register_all [switch_v; string_o] Options_new ∅).1
    /\ options o' = options (register_all [switch_v; string_o] Options_new ∅).1.
Proof.
  apply (duplicate_registration_throws switch_v string_v [string_o]
           Options_new (register switch_v Options_new ∅).1.2
           (register_all [switch_v; string_o] Options_new ∅).1
           ∅ (register switch_v Options_new ∅).2
           (register_all [switch_v; string_o] Options_new ∅).2).
  - vm_compute. reflexivity.
  - vm_compute. reflexivity.
  - left. split; reflexivity.
Defined.

(** ** Registration without any flag *)

(** C4: a call of [Add] or [AddSwitch] that names neither a short nor a
    long flag comes back from [add_entry] at once, and then goes on in the
    caller: [Add] appends a colon to [optstr], both assign the default to
    the bound variable, store a setter under the code found in the
    uninitialised [op], and push that [op] to [options].  The call is not
    a no-op. *)
Theorem registration_without_flags (var : nat) (description group : string)
    (op : struct_option) (ws_col : Z) (o : Options) (mem : gmap nat value) :
  (forall default_val : value,
     Add var Ascii.zero "" description default_val group op ws_col o mem
     = (Returned,
        mk_Options (Header o) (IndentFlag o) (IndentDescription o)
          (long_flags o) (options o ++ [set_has_arg op required_argument])
          (<[val op := bind_set default_val var]> (setters o)) (usage o)
          (optval o) (optstr o +:+ ":"),
        <[var := default_val]> mem))
  /\ (forall default_val : bool,
     AddSwitch var Ascii.zero "" description default_val group op ws_col o mem
     = (Returned,
        mk_Options (Header o) (IndentFlag o) (IndentDescription o)
          (long_flags o) (options o ++ [set_has_arg op optional_argument])
          (<[val op := Negate var]> (setters o)) (usage o)
          (optval o) (optstr o),
        <[var := VBool default_val]> mem)).
Proof. split; intros d; reflexivity. Qed.

(** On a fresh object and a variable holding ["keep"]: one entry, one
    setter, a changed [optstr], and the variable overwritten. *)
Example registration_without_flags_observed :
  let '(out, o, mem) :=
    Add 0 Ascii.zero "" "" (VString "dflt") "" (mk_option None 0 None 7) 80
      Options_new (<[0%nat := VString "keep"]> ∅) in
  out = Returned /\ length (options o) = 1%nat /\ optstr o = ":"
  /\ setters o !! 7 = Some (SetString 0) /\ mem !! 0%nat = Some (VString "dflt").
Proof. vm_compute. repeat split. Qed.

(** ** Defaults *)







(** ** Option codes *)

Lemma char_to_int_range (c : ascii) : -128 <= char_to_int c < 128.
Proof.
  unfold char_to_int.
  pose proof (N_ascii_bounded c) as H.
  destruct (Z.ltb_spec (Z.of_N (N_of_ascii c)) 128); lia.
Qed.

Lemma s32_small (z : Z) : - 2 ^ 31 <= z < 2 ^ 31 -> s32 z = z.
Proof. intros H. unfold s32. rewrite Z.mod_small; lia. Qed.

Lemma add_entry_optval opt fl long_flag default_val description group ws_col o
    out opt' o' :
  add_entry opt fl long_flag default_val description group ws_col o
    = (out, opt', o') ->
  optval o' = optval o \/ optval o' = s32 (optval o + 1).
Proof.
  unfold add_entry, add_entry_code, add_entry_name. intros H.
  repeat case_match; simplify_eq; simpl; auto.
Qed.

Lemma codes_inv_new : codes_inv 0 Options_new.
Proof.
  unfold codes_inv. simpl. repeat split; try constructor; lia.
Qed.

Lemma register_entry c o mem o' mem' :
  names_flag c = true ->
  register c o mem = (Returned, o', mem') ->
  exists e,
    options o' = options o ++ [e]
    /\ val e = (if is_nul (c_flag c) then optval o else char_to_int (c_flag c))
    /\ optval o' = (if is_nul (c_flag c) then s32 (optval o + 1) else optval o)
    /\ setters o' = <[val e := match c_kind c with
                               | CallAdd d => bind_set d (c_var c)
                               | CallAddSwitch _ => Negate (c_var c)
                               end]> (setters o)
    /\ (is_nul (c_flag c) = false -> setters o !! val e = None).
Proof.
  unfold names_flag, register, Add, AddSwitch. intros Hn H.
  apply negb_true_iff in Hn.
  destruct (c_kind c) as [d | b];
    match type of H with
    | context [add_entry ?a1 ?a2 ?a3 ?a4 ?a5 ?a6 ?a7 ?a8] =>
        destruct (add_entry a1 a2 a3 a4 a5 a6 a7 a8) as [[out1 op1] o1] eqn:E
    end;
    destruct out1; simplify_eq;
    pose proof (add_entry_returned _ _ _ _ _ _ _ _ _ _ E Hn)
      as (R1 & R2 & R3 & _);
    apply add_entry_frame in E; destruct E as (Hs & Ho & _);
    eexists; simpl; rewrite Ho, Hs; (split; [reflexivity |]); simpl;
    rewrite R1; repeat split; try assumption;
    intros Hf; rewrite Hf; exact (R3 Hf).
Qed.

Lemma register_codes_inv c o mem out o' mem' k :
  names_flag c = true -> 256 + k + 1 < 2 ^ 31 ->
  codes_inv k o ->
  register c o mem = (out, o', mem') ->
  codes_inv (k + 1) o'.
Proof.
  intros Hn Hk (Hnd & Hall & Hlo & Hhi) H.
  assert (Hs32 : s32 (optval o + 1) = optval o + 1) by (apply s32_small; lia).
  destruct out.
  - destruct (register_entry _ _ _ _ _ Hn H) as (e & Ho & Hv & Hc & Hs & Hfresh).
    assert (Hnew : val e ∉ map val (options o)).
    { intros Hin. apply list_elem_of_fmap in Hin as (e' & He' & Hin').
      rewrite Forall_forall in Hall. destruct (Hall _ Hin') as [Hd Hlt].
      destruct (is_nul (c_flag c)) eqn:Hf.
      - lia.
      - apply elem_of_dom in Hd. rewrite <- He', Hfresh in Hd by reflexivity.
        destruct Hd; discriminate. }
    unfold codes_inv. rewrite Ho, Hs, Hc, map_app. simpl.
    pose proof (char_to_int_range (c_flag c)).
    repeat split.
    + apply NoDup_app. repeat split; [assumption | | apply NoDup_singleton].
      intros x Hx Hx'. apply list_elem_of_singleton in Hx'. now subst x.
    + apply Forall_app. split.
      * eapply Forall_impl; [exact Hall |]. intros x [Hx1 Hx2]. split.
        -- rewrite dom_insert_L. apply elem_of_union. now right.
        -- destruct (is_nul (c_flag c)); lia.
      * constructor; [| constructor]. split.
        -- rewrite dom_insert_L. apply elem_of_union. left.
           now apply elem_of_singleton.
        -- destruct (is_nul (c_flag c)); lia.
    + destruct (is_nul (c_flag c)); lia.
    + destruct (is_nul (c_flag c)); lia.
  - assert (F : setters o' = setters o /\ options o' = options o
                /\ (optval o' = optval o \/ optval o' = s32 (optval o + 1))).
    { unfold register, Add, AddSwitch in H.
      repeat case_match; simplify_eq;
        match goal with
        | E : add_entry _ _ _ _ _ _ _ _ = _ |- _ =>
            pose proof (add_entry_optval _ _ _ _ _ _ _ _ _ _ _ E);
            apply add_entry_frame in E; destruct E as (? & ? & _)
        end; auto. }
    destruct F as (Fs & Fo & Fv). unfold codes_inv. rewrite Fs, Fo.
    repeat split; try assumption; try lia.
    eapply Forall_impl; [exact Hall |]. intros x [Hx1 Hx2]. split; [assumption | lia].
  - assert (F : setters o' = setters o /\ options o' = options o
                /\ (optval o' = optval o \/ optval o' = s32 (optval o + 1))).
    { unfold register, Add, AddSwitch in H.
      repeat case_match; simplify_eq;
        match goal with
        | E : add_entry _ _ _ _ _ _ _ _ = _ |- _ =>
            pose proof (add_entry_optval _ _ _ _ _ _ _ _ _ _ _ E);
            apply add_entry_frame in E; destruct E as (? & ? & _)
        end; auto. }
    destruct F as (Fs & Fo & Fv). unfold codes_inv. rewrite Fs, Fo.
    repeat split; try assumption; try lia.
    eapply Forall_impl; [exact Hall |]. intros x [Hx1 Hx2]. split; [assumption | lia].
Qed.

Lemma register_all_codes_inv (cs : list call) : forall k o mem,
  forallb names_flag cs = true ->
  256 + k + Z.of_nat (length cs) < 2 ^ 31 ->
  codes_inv k o ->
  codes_inv (k + Z.of_nat (length cs)) (register_all cs o mem).1.
Proof.
  induction cs as [| c cs IH]; intros k o mem Hn Hk Hinv; simpl in *.
  - now rewrite Z.add_0_r.
  - apply andb_true_iff in Hn as [Hc Hn].
    destruct (register c o mem) as [[out o1] mem1] eqn:E.
    assert (H1 : codes_inv (k + 1) o1).
    { eapply register_codes_inv; [exact Hc | lia | exact Hinv | exact E]. }
    assert (Hmono : forall j o2, 0 <= j -> codes_inv (k + 1) o2 ->
              codes_inv (k + 1 + j) o2).
    { intros j o2 Hj (A & B & C). repeat split; try assumption; lia. }
    replace (k + Z.of_nat (S (length cs)))
      with (k + 1 + Z.of_nat (length cs)) by lia.
    destruct out; simpl; try (apply Hmono; [lia | exact H1]);
      apply IH; try assumption; lia.
Qed.

(** X20: option codes of calls that name a flag.  The counter of a new
    object is 256; a returning call that names a short or a long flag
    pushes one entry, whose code is the short character when there is one
    and otherwise the value of the counter, which is then incremented;
    and after any sequence of calls that all name a flag, on a new object,
    no two entries share a code. *)
Theorem option_codes :
  optval Options_new = 256
  /\ (forall c o mem o' mem',
        names_flag c = true ->
        register c o mem = (Returned, o', mem') ->
        exists e,
          options o' = options o ++ [e]
          /\ val e = (if is_nul (c_flag c) then optval o
                      else char_to_int (c_flag c))
          /\ optval o' = (if is_nul (c_flag c) then s32 (optval o + 1)
                          else optval o))
  /\ (forall cs mem,
        forallb names_flag cs = true ->
        Z.of_nat (length cs) < 2 ^ 31 - 256 ->
        NoDup (map val (options (register_all cs Options_new mem).1))).
Proof.
  split; [reflexivity |]. split.
  - intros c o mem o' mem' Hn H.
    destruct (register_entry _ _ _ _ _ Hn H) as (e & A & B & C & _). eauto.
  - intros cs mem Hn Hlen.
    pose proof (register_all_codes_inv cs 0 Options_new mem Hn) as H.
    destruct H as [H _]; [lia | apply codes_inv_new | exact H].
Qed.

Lemma option_codes_witness :
  map val (options (register_all [switch_v; long_only_input; string_o;
                                  long_only_mode] Options_new ∅).1)
    = [118; 256; 111; 257]
  /\ NoDup (map val (options (register_all [switch_v; long_only_input; string_o;
                                           long_only_mode] Options_new ∅).1)).
Proof.
  split.
  - vm_compute. reflexivity.
  - apply (proj2 (proj2 option_codes)).
    + vm_compute. reflexivity.
    + vm_compute. reflexivity.
Defined.

(** C7, at the failing input: a call that names no flag comes back from
    [add_entry] before a code is chosen, and the caller pushes the entry
    all the same.  Its code is what the uninitialised [op.val] held:
    neither a short character nor the counter, which stays at 256.  When
    that value is 118, the code of [-v], two entries share the code 118,
    and the setter of the switch is replaced by the one of the second
    call. *)
Theorem flagless_entry_code_is_not_assigned (op : struct_option) :
  map val (options (flagless_after_switch op).1) = [char_to_int "v"; val op]
  /\ optval (flagless_after_switch op).1 = 256
  /\ setters (flagless_after_switch op).1 !! val op = Some (SetString 1)
  /\ map val (options (flagless_after_switch (mk_option None 0 None 118)).1)
     = [118; 118]
  /\ ~ NoDup (map val (options
                        (flagless_after_switch (mk_option None 0 None 118)).1))
  /\ setters (flagless_after_switch (mk_option None 0 None 118)).1
       !! char_to_int "v"
     = Some (SetString 1).
Proof.
  split; [reflexivity |]. split; [reflexivity |].
  split; [apply lookup_insert_eq |]. split; [reflexivity |].
  split; [| vm_compute; reflexivity].
  change (map val (options (flagless_after_switch (mk_option None 0 None 118)).1))
    with [118; 118].
  intros H. apply NoDup_cons in H as [H _]. apply H. apply list_elem_of_here.
Qed.

(** ** The usage table and [Usage] *)

Lemma ascii_compare_refl (c : ascii) : Ascii.compare c c = Eq.
Proof. unfold Ascii.compare. apply N.compare_refl. Qed.

Lemma ascii_compare_lt_trans (a b c : ascii) :
  Ascii.compare a b = Lt -> Ascii.compare b c = Lt -> Ascii.compare a c = Lt.
Proof.
  unfold Ascii.compare. rewrite !N.compare_lt_iff. lia.
Qed.

Lemma string_compare_refl (s : string) : String.compare s s = Eq.
Proof.
  induction s as [| c s IH]; simpl; [reflexivity |].
  now rewrite ascii_compare_refl.
Qed.

Lemma string_lt_trans (a b c : string) :
  string_lt a b -> string_lt b c -> string_lt a c.
Proof.
  unfold string_lt. revert b c.
  induction a as [| x a IH]; intros [| y b] [| z c]; simpl; try discriminate;
    try reflexivity.
  destruct (Ascii.compare x y) eqn:E1; try discriminate;
    destruct (Ascii.compare y z) eqn:E2; try discriminate; intros H1 H2.
  - apply Ascii.compare_eq_iff in E1, E2. subst.
    rewrite ascii_compare_refl. eapply IH; eassumption.
  - apply Ascii.compare_eq_iff in E1. subst. now rewrite E2.
  - apply Ascii.compare_eq_iff in E2. subst. now rewrite E1.
  - now rewrite (ascii_compare_lt_trans _ _ _ E1 E2).
Qed.

Lemma string_lt_irrefl (a : string) : ~ string_lt a a.
Proof. unfold string_lt. now rewrite string_compare_refl. Qed.

Lemma string_compare_gt (a b : string) :
  String.compare a b = Gt -> string_lt b a.
Proof.
  unfold string_lt. rewrite (String.compare_antisym a b).
  now destruct (String.compare b a).
Qed.

Lemma usage_push_keys u group block g :
  In g (map fst (usage_push u group block)) <-> g = group \/ In g (map fst u).
Proof.
  induction u as [| [k bs] u IH]; simpl.
  - intuition.
  - destruct (String.compare group k) eqn:E; simpl.
    + apply String.compare_eq_iff in E. subst k. intuition.
    + intuition.
    + rewrite IH. intuition.
Qed.

Lemma usage_push_sorted u group block :
  keys_sorted u -> keys_sorted (usage_push u group block).
Proof.
  unfold keys_sorted.
  induction u as [| [k bs] u IH]; simpl; intros Hs.
  - repeat constructor.
  - apply StronglySorted_inv in Hs as [Hs Hk].
    destruct (String.compare group k) eqn:E; simpl.
    + constructor; assumption.
    + constructor; [constructor; assumption |].
      constructor; [exact E |].
      eapply Forall_impl; [exact Hk |]. intros x Hx.
      eapply string_lt_trans; [exact E | exact Hx].
    + constructor; [now apply IH |].
      apply Forall_forall. intros x Hx. apply list_elem_of_In in Hx.
      apply usage_push_keys in Hx as [-> | Hx].
      * now apply string_compare_gt.
      * rewrite Forall_forall in Hk. now apply Hk, list_elem_of_In.
Qed.

Lemma usage_get_absent u g : ~ In g (map fst u) -> usage_get u g = [].
Proof.
  induction u as [| [k bs] u IH]; simpl; intros H; [reflexivity |].
  destruct (String.eqb_spec g k) as [-> | Hne]; [tauto |].
  apply IH. tauto.
Qed.

Lemma keys_sorted_head_absent k bs u :
  keys_sorted ((k, bs) :: u) -> forall g, string_lt g k \/ g = k -> ~ In g (map fst u).
Proof.
  unfold keys_sorted. simpl. intros Hs g Hg Hin.
  apply StronglySorted_inv in Hs as [_ Hk].
  rewrite Forall_forall in Hk. apply list_elem_of_In in Hin.
  specialize (Hk _ Hin).
  destruct Hg as [Hg | ->].
  - eapply string_lt_irrefl, string_lt_trans; eassumption.
  - now apply string_lt_irrefl in Hk.
Qed.

Lemma usage_push_get u group block g :
  keys_sorted u ->
  usage_get (usage_push u group block) g
  = if String.eqb g group then usage_get u group ++ [block] else usage_get u g.
Proof.
  induction u as [| [k bs] u IH]; simpl; intros Hs.
  - now destruct (String.eqb g group).
  - destruct (String.compare group k) eqn:E; simpl.
    + apply String.compare_eq_iff in E. subst k.
      rewrite String.eqb_refl.
      now destruct (String.eqb_spec g group).
    + assert (Hne : group <> k) by (intros ->; now rewrite string_compare_refl in E).
      apply String.eqb_neq in Hne as Hne'. rewrite Hne'.
      destruct (String.eqb_spec g group) as [Hg | Hg]; [| reflexivity].
      rewrite (usage_get_absent _ group); [reflexivity |].
      eapply keys_sorted_head_absent; [exact Hs | now left].
    + assert (Hne : group <> k) by (intros ->; now rewrite string_compare_refl in E).
      apply String.eqb_neq in Hne as Hne'. rewrite Hne'.
      assert (Hs' : keys_sorted u).
      { unfold keys_sorted in *. simpl in Hs. now apply StronglySorted_inv in Hs. }
      rewrite (IH Hs').
      destruct (String.eqb_spec g k) as [-> | Hgk]; [| reflexivity].
      apply String.eqb_neq in Hne. rewrite String.eqb_sym in Hne'. now rewrite Hne'.
Qed.

Lemma usage_get_member u g bs :
  keys_sorted u -> In (g, bs) u -> usage_get u g = bs.
Proof.
  induction u as [| [k bs'] u IH]; simpl; intros Hs Hin; [contradiction |].
  destruct Hin as [Heq | Hin].
  - inversion Heq. subst. now rewrite String.eqb_refl.
  - destruct (String.eqb_spec g k) as [-> | Hne].
    + exfalso. eapply keys_sorted_head_absent; [exact Hs | now right |].
      apply in_map_iff. now exists (k, bs).
    + apply IH; [| assumption].
      unfold keys_sorted in *. simpl in Hs. now apply StronglySorted_inv in Hs.
Qed.

(** The table built by a sequence of pushes: its keys ascend, they are the
    groups pushed, and each holds its blocks in the order of the pushes. *)
Lemma usage_of_spec (pushes : list (string * string)) :
  keys_sorted (usage_of pushes)
  /\ (forall g, In g (map fst (usage_of pushes)) <-> In g (map fst pushes))
  /\ (forall g, usage_get (usage_of pushes) g = blocks_of pushes g).
Proof.
  unfold usage_of.
  induction pushes as [| [g0 b0] pushes IH] using rev_ind; simpl.
  - repeat split; try tauto. constructor.
  - destruct IH as (Hs & Hk & Hg). rewrite fold_left_app. simpl.
    repeat split.
    + now apply usage_push_sorted.
    + rewrite usage_push_keys, map_app, in_app_iff, Hk. simpl. intuition.
    + rewrite usage_push_keys, map_app, in_app_iff, Hk. simpl. intuition.
    + intros g. rewrite usage_push_get by assumption.
      unfold blocks_of. rewrite List.filter_app, map_app. simpl.
      rewrite !Hg. unfold blocks_of.
      rewrite (String.eqb_sym g0 g).
      destruct (String.eqb_spec g g0) as [-> | Hne]; simpl;
        [reflexivity | now rewrite app_nil_r].
Qed.

Lemma header_verbatim (h : string) : (if slen h =? 0 then "" else h) = h.
Proof.
  destruct (Z.eqb_spec (slen h) 0) as [H | H]; [| reflexivity].
  apply slen_zero_iff in H. now subst.
Qed.

(** A registration call pushes at most one block, to its own group. *)
Lemma register_usage c o mem out o' mem' :
  register c o mem = (out, o', mem') ->
  usage o' = usage o
  \/ (c_description c <> ""
      /\ exists block, usage o' = usage_push (usage o) (c_group c) block).
Proof.
  unfold register, Add, AddSwitch. intros H.
  assert (Hadd : forall opt d out1 opt1 o1,
    add_entry opt (c_flag c) (c_long_flag c) d (c_description c) (c_group c)
      (c_ws_col c) o = (out1, opt1, o1) ->
    usage o1 = usage o
    \/ (c_description c <> ""
        /\ exists block, usage o1 = usage_push (usage o) (c_group c) block)).
  { intros opt d out1 opt1 o1. unfold add_entry, add_entry_code, add_entry_name.
    intros E. repeat case_match; simplify_eq; simpl; auto.
    all: right; split; [| eauto].
    all: intros Hd; rewrite Hd in *; discriminate. }
  destruct (c_kind c) as [d | b];
    match type of H with
    | context [add_entry ?a1 ?a2 ?a3 ?a4 ?a5 ?a6 ?a7 ?a8] =>
        destruct (add_entry a1 a2 a3 a4 a5 a6 a7 a8) as [[out1 op1] o1] eqn:E
    end;
    apply Hadd in E; destruct out1; simplify_eq; exact E.
Qed.

(** The table after a sequence of calls is built by pushes to groups of
    those calls, in the order of the calls. *)
Lemma register_all_usage (cs : list call) : forall o mem pushes,
  usage o = usage_of pushes ->
  exists more,
    usage (register_all cs o mem).1 = usage_of (pushes ++ more)
    /\ sublist (map fst more) (map c_group cs).
Proof.
  induction cs as [| c cs IH]; intros o mem pushes Hu; simpl.
  - exists []. rewrite app_nil_r. split; [assumption | constructor].
  - destruct (register c o mem) as [[out o1] mem1] eqn:E.
    apply register_usage in E.
    assert (Hstep : exists one,
      usage o1 = usage_of (pushes ++ one) /\ sublist (map fst one) [c_group c]).
    { destruct E as [E | (_ & block & E)].
      - exists []. rewrite app_nil_r, E. split; [assumption | apply sublist_nil_l].
      - exists [(c_group c, block)]. split; [| reflexivity].
        unfold usage_of in *. rewrite fold_left_app. simpl. now rewrite <- Hu. }
    destruct Hstep as (one & H1 & Hsub).
    assert (Hdone : exists more,
      usage o1 = usage_of (pushes ++ more)
      /\ sublist (map fst more) (c_group c :: map c_group cs)).
    { exists one. split; [assumption |].
      change (c_group c :: map c_group cs) with ([c_group c] ++ map c_group cs).
      now apply sublist_inserts_r. }
    destruct out; simpl; try exact Hdone.
    all: destruct (IH o1 mem1 _ H1) as (more & H2 & Hsub2).
    all: exists (one ++ more); rewrite app_assoc; split; [assumption |].
    all: rewrite map_app.
    all: change (c_group c :: map c_group cs) with ([c_group c] ++ map c_group cs).
    all: now apply sublist_app.
Qed.

(** C5, counterexample: group ["b"] is registered before group ["a"], and
    [Usage] emits the section of ["a"] first. *)
Lemma Usage_not_in_registration_order :
  usage (register_all [group_b_first; group_a_second] Options_new ∅).1
  = [("a", ["  -y              second"]); ("b", ["  -x              first"])]
  /\ Usage (register_all [group_b_first; group_a_second] Options_new ∅).1
     <> Usage_in_registration_order ""
          [("b", "  -x              first"); ("a", "  -y              second")].
Proof. vm_compute. split; [reflexivity | discriminate]. Qed.

(** C5, amended: [Usage] emits the header verbatim, then exactly one
    section per distinct group that received a block, in ascending order
    of the group names as [std::string] compares them (not in the order of
    registration); a section is the line [group:] (left out for the empty
    group and for ["_"]), then the blocks pushed for the group in the
    order of their registration, each followed by a newline, then an
    empty line. *)
Theorem Usage_sections_in_key_order (o : Options)
    (pushes : list (string * string)) :
  usage o = usage_of pushes ->
  Usage o
  = Header o
    +:+ sconcat (map (fun g => usage_section (g, blocks_of pushes g))
                   (map fst (usage o)))
  /\ StronglySorted string_lt (map fst (usage o))
  /\ (forall g, In g (map fst (usage o)) <-> In g (map fst pushes))
  /\ (forall g blocks,
        usage_section (g, blocks)
        = (if String.eqb g "" || String.eqb g "_" then ""
           else g +:+ ":" +:+ str1 "010")
          +:+ sconcat (map (fun d => d +:+ str1 "010") blocks)
          +:+ str1 "010").
Proof.
  intros Hu. destruct (usage_of_spec pushes) as (Hs & Hk & Hg).
  rewrite <- Hu in Hs, Hk, Hg. repeat split.
  - unfold Usage. rewrite header_verbatim. f_equal. f_equal.
    rewrite map_map. apply map_ext_in. intros [g bs] Hin. simpl.
    now rewrite <- Hg, (usage_get_member _ _ _ Hs Hin).
  - exact Hs.
  - apply Hk.
  - apply Hk.
  - intros g blocks. unfold usage_section, group_header. simpl.
    destruct g as [| c g]; [reflexivity |].
    now destruct (String.eqb (String c g) "_").
Qed.

Lemma Usage_sections_in_key_order_witness :
  usage two_groups = usage_of two_pushes
  /\ Usage two_groups
     = Header two_groups
       +:+ sconcat (map (fun g => usage_section (g, blocks_of two_pushes g))
                      (map fst (usage two_groups)))
  /\ StronglySorted string_lt (map fst (usage two_groups)).
Proof.
  assert (H : usage two_groups = usage_of two_pushes) by (vm_compute; reflexivity).
  split; [exact H |].
  split; [exact (proj1 (Usage_sections_in_key_order two_groups two_pushes H)) |].
  exact (proj1 (proj2 (Usage_sections_in_key_order two_groups two_pushes H))).
Defined.

(** ** Parsing *)

Section ParseProperties.

Variable ex : value -> string -> value.

Lemma call_setter_other s optarg mem var :
  var <> setter_var s -> call_setter ex s optarg mem !! var = mem !! var.
Proof.
  intros Hne. destruct s as [v | v | v]; unfold call_setter, set; simpl in *.
  - now apply lookup_insert_ne.
  - destruct (mem !! v); [now apply lookup_insert_ne | reflexivity].
  - destruct (mem !! v) as [[b | | | |] |]; try reflexivity.
    now apply lookup_insert_ne.
Qed.

Lemma run_setters_other st rs : forall mem var,
  var ∉ targets st rs -> run_setters ex st rs mem !! var = mem !! var.
Proof.
  unfold targets.
  induction rs as [| [ch optarg] rs IH]; intros mem var Hvar; simpl in *;
    [reflexivity |].
  destruct (st !! ch) as [s |] eqn:E; simpl in Hvar.
  - apply not_elem_of_cons in Hvar as [Hne Hvar].
    rewrite IH by exact Hvar. now apply call_setter_other.
  - now apply IH.
Qed.

Lemma Parse_loop_prefix st pre rest : forall mem,
  Forall (dispatched st) pre ->
  Parse_loop ex st (pre ++ rest) mem
  = Parse_loop ex st rest (run_setters ex st pre mem).
Proof.
  induction pre as [| [ch optarg] pre IH]; intros mem Hpre; simpl;
    [reflexivity |].
  apply Forall_cons in Hpre as [[Hch [s Hs]] Hpre]. simpl in *.
  apply Z.eqb_neq in Hch. rewrite Hch, Hs. now apply IH.
Qed.

(** Every code has a setter: all setters run and the loop ends with
    [true]. *)
Lemma Parse_loop_true st rs mem :
  Forall (dispatched st) rs ->
  Parse_loop ex st rs mem = (true, run_setters ex st rs mem).
Proof.
  intros H. rewrite <- (app_nil_r rs) at 1.
  now rewrite Parse_loop_prefix.
Qed.

(** The first code without a setter ends the loop with [false]; the
    setters of the results before it have run. *)
Lemma Parse_loop_false st pre ch optarg post mem :
  Forall (dispatched st) pre -> ch <> -1 -> st !! ch = None ->
  Parse_loop ex st (pre ++ (ch, optarg) :: post) mem
  = (false, run_setters ex st pre mem).
Proof.
  intros Hpre Hch Hs. rewrite Parse_loop_prefix by exact Hpre. simpl.
  apply Z.eqb_neq in Hch. now rewrite Hch, Hs.
Qed.

End ParseProperties.

(** *** What the loop does with the reports of [getopt_long] *)

Section Dispatch.

Variable ex : value -> string -> value.

Lemma run_setters_app st pre post mem :
  run_setters ex st (pre ++ post) mem
  = run_setters ex st post (run_setters ex st pre mem).
Proof.
  revert mem. induction pre as [| [ch optarg] pre IH]; intros mem; simpl;
    [reflexivity |].
  destruct (st !! ch); apply IH.
Qed.

(** X1: a value flag of type [std::string]: when every report of
    [getopt_long] has a setter, [Parse] returns [true] and the variable
    holds the argument text of the last report of the flag. *)
Theorem Parse_last_occurrence_wins (argv : list string) (o : Options)
    (mem : gmap nat value) (pre post : list Getopt.result) (ch : Z)
    (text : string) (var : nat) :
  Getopt.getopt_long argv (optstr o) (options o ++ [option_end])
    = pre ++ (ch, Some text) :: post ->
  Forall (dispatched (setters o)) (pre ++ (ch, Some text) :: post) ->
  setters o !! ch = Some (SetString var) ->
  var ∉ targets (setters o) post ->
  (Parse ex argv o mem).1.1 = true
  /\ (Parse ex argv o mem).2 !! var = Some (VString text).
Proof.
  intros Hres Hall Hs Hpost. unfold Parse. simpl. rewrite Hres.
  rewrite Parse_loop_true by exact Hall. simpl. split; [reflexivity |].
  rewrite run_setters_app. simpl. rewrite Hs. unfold call_setter, set.
  rewrite run_setters_other by exact Hpost. apply lookup_insert_eq.
Qed.

Lemma run_setters_negate st ch var : forall rs mem b,
  st !! ch = Some (Negate var) ->
  only_bound_by st ch var rs ->
  mem !! var = Some (VBool b) ->
  run_setters ex st rs mem !! var
  = Some (VBool (xorb b (Nat.odd (occurrences ch rs)))).
Proof.
  unfold occurrences, only_bound_by.
  induction rs as [| [c optarg] rs IH]; intros mem b Hs Hrs Hb; simpl.
  - now rewrite xorb_false_r.
  - apply Forall_cons in Hrs as [Hr Hrs]. simpl in Hr.
    destruct (Z.eqb_spec c ch) as [-> | Hne]; simpl.
    + rewrite Hs. simpl. rewrite Hb.
      rewrite (IH _ (negb b)); [| assumption | assumption | apply lookup_insert_eq].
      f_equal. f_equal. rewrite Nat.odd_succ, <- Nat.negb_odd.
      now destruct b, (Nat.odd (length (List.filter (fun r => fst r =? ch) rs))).
    + destruct (st !! c) as [s |] eqn:E.
      * apply (IH _ b); try assumption.
        rewrite call_setter_other; [assumption |].
        intros Heq. now apply (Hr Hne s eq_refl).
      * now apply IH.
Qed.

(** X2: a switch: when every report of [getopt_long] has a setter, the
    variable ends as its value at the call of [Parse] negated once per
    report of the switch, so from [false] an even number of reports
    leaves [false] and an odd number leaves [true], whatever the argument
    texts. *)
Theorem Parse_switch_parity (argv : list string) (o : Options)
    (mem : gmap nat value) (ch : Z) (var : nat) (b : bool) :
  let results :=
    Getopt.getopt_long argv (optstr o) (options o ++ [option_end]) in
  Forall (dispatched (setters o)) results ->
  setters o !! ch = Some (Negate var) ->
  only_bound_by (setters o) ch var results ->
  mem !! var = Some (VBool b) ->
  (Parse ex argv o mem).2 !! var
  = Some (VBool (xorb b (Nat.odd (occurrences ch results)))).
Proof.
  intros results Hall Hs Honly Hb. unfold Parse. simpl. fold results.
  rewrite Parse_loop_true by exact Hall. simpl.
  now apply run_setters_negate.
Qed.

End Dispatch.

Lemma Parse_last_occurrence_wins_witness :
  (Parse keep_value ["prog"; "-o"; "a.txt"; "-v"; "--output=b.txt"]
     with_switch_and_string.1 with_switch_and_string.2).1.1 = true
  /\ (Parse keep_value ["prog"; "-o"; "a.txt"; "-v"; "--output=b.txt"]
        with_switch_and_string.1 with_switch_and_string.2).2 !! 1%nat
     = Some (VString "b.txt").
Proof.
  apply (Parse_last_occurrence_wins keep_value
           ["prog"; "-o"; "a.txt"; "-v"; "--output=b.txt"]
           with_switch_and_string.1 with_switch_and_string.2
           [(111, Some "a.txt"); (118, None)] [] 111 "b.txt" 1%nat).
  - vm_compute. reflexivity.
  - repeat constructor; simpl; try lia; vm_compute; eauto.
  - vm_compute. reflexivity.
  - vm_compute. apply not_elem_of_nil.
Defined.

Lemma Parse_switch_parity_witness :
  (Parse keep_value ["prog"; "-v"; "--verbose"; "-vv"; "--verbose=no"; "-v"]
     with_switch_and_string.1 with_switch_and_string.2).2 !! 0%nat
  = Some (VBool (xorb false (Nat.odd
       (occurrences 118
          (Getopt.getopt_long
             ["prog"; "-v"; "--verbose"; "-vv"; "--verbose=no"; "-v"]
             (optstr with_switch_and_string.1)
             (options with_switch_and_string.1 ++ [option_end])))))).
Proof.
  apply (Parse_switch_parity keep_value
           ["prog"; "-v"; "--verbose"; "-vv"; "--verbose=no"; "-v"]
           with_switch_and_string.1 with_switch_and_string.2 118 0%nat false).
  - vm_compute. repeat constructor; simpl; try lia; eauto.
  - vm_compute. reflexivity.
  - vm_compute. repeat constructor; simpl; intros; congruence.
  - vm_compute. reflexivity.
Defined.

(** *** Options that [getopt_long] does not know *)

Lemma string_prefix_refl (s : string) : String.prefix s s = true.
Proof.
  induction s as [| c s IH]; simpl; [reflexivity |].
  now destruct (ascii_dec c c).
Qed.

Lemma lookup_long_unknown tbl nm :
  Forall (fun e : string * struct_option => String.prefix nm (fst e) = false) tbl ->
  Getopt.lookup_long tbl nm = Getopt.Unknown.
Proof.
  intros H. unfold Getopt.lookup_long.
  assert (Hfind : find (fun e => String.eqb (fst e) nm) tbl = None).
  { induction H as [| e tbl He _ IH]; simpl; [reflexivity |].
    destruct (String.eqb_spec (fst e) nm) as [Heq | _]; [| exact IH].
    rewrite Heq, string_prefix_refl in He. discriminate. }
  rewrite Hfind. clear Hfind.
  assert (Hfilter : filter (fun e : string * struct_option =>
                              String.prefix nm (fst e) = true) tbl = []).
  { induction H as [| e tbl He _ IH]; [reflexivity |].
    rewrite filter_cons_False; [exact IH | congruence]. }
  now rewrite Hfilter.
Qed.

Lemma table_unknown longopts nm :
  unknown_long longopts nm ->
  Forall (fun e : string * struct_option => String.prefix nm (fst e) = false)
    (Getopt.table longopts).
Proof.
  induction 1 as [| p longopts Hp _ IH]; simpl; [constructor |].
  destruct (name p); constructor; assumption.
Qed.

(** An argument [--text] whose name no entry matches: the first report
    is [?]. *)
Lemma getopt_long_unknown prog text post optstring longopts :
  text <> "" -> unknown_long longopts (long_name text) ->
  exists rs,
    Getopt.getopt_long (prog :: ("--" +:+ text) :: post) optstring longopts
    = (char_to_int "?", None) :: rs.
Proof.
  intros Htext Hunk. unfold Getopt.getopt_long.
  destruct (Getopt.ordering_of (list_ascii_of_string optstring)) as [ord os].
  simpl. destruct text as [| c text]; [congruence |]. simpl.
  unfold Getopt.long_option.
  change (c :: list_ascii_of_string text)
    with (list_ascii_of_string (String c text)).
  unfold long_name in Hunk.
  destruct (Getopt.split_eq (list_ascii_of_string (String c text))) as [nm v].
  simpl in Hunk.
  rewrite (lookup_long_unknown _ _ (table_unknown _ _ Hunk)). simpl.
  eexists. reflexivity.
Qed.

Lemma element_short os longopts (c : ascii) chars next :
  c <> "-"%char ->
  Getopt.element os longopts ("-"%char :: c :: chars) next
  = Getopt.short_options os (c :: chars) next.
Proof.
  intros Hc. destruct c as [[] [] [] [] [] [] [] []]; try reflexivity.
  now elim Hc.
Qed.

(** An argument [-c...] whose first character is not in the option
    string: the first report is [?]. *)
Lemma getopt_short_unknown prog (c : ascii) chars post optstring longopts :
  c <> "-"%char -> unknown_short optstring c ->
  exists rs,
    Getopt.getopt_long (prog :: String "-" (String c chars) :: post)
      optstring longopts
    = (char_to_int "?", None) :: rs.
Proof.
  intros Hc Hunk. unfold Getopt.getopt_long, unknown_short in *.
  destruct (Getopt.ordering_of (list_ascii_of_string optstring)) as [ord os].
  simpl in Hunk.
  change (tail (prog :: String "-" (String c chars) :: post))
    with (String "-" (String c chars) :: post).
  unfold Getopt.scan; fold Getopt.scan.
  assert (Hdd : String.eqb (String "-" (String c chars)) "--" = false).
  { apply String.eqb_neq. intros H. inversion H. now elim Hc. }
  rewrite Hdd.
  change (list_ascii_of_string (String "-" (String c chars)))
    with ("-"%char :: c :: list_ascii_of_string chars).
  change (Getopt.is_option ("-"%char :: c :: list_ascii_of_string chars))
    with true.
  cbv iota. rewrite element_short by exact Hc.
  unfold Getopt.short_options; fold Getopt.short_options. rewrite Hunk.
  destruct (Getopt.short_options os (list_ascii_of_string chars) (head post))
    as [rs used].
  simpl. eexists. reflexivity.
Qed.

Lemma unknown_long_end longopts nm :
  unknown_long longopts nm -> unknown_long (longopts ++ [option_end]) nm.
Proof.
  intros H. apply Forall_app. split; [exact H |].
  constructor; [exact I | constructor].
Qed.

(** An element that names no flag: the first report is [?]. *)
Lemma getopt_unregistered prog a post o :
  unregistered o a ->
  exists rs,
    Getopt.getopt_long (prog :: a :: post) (optstr o) (options o ++ [option_end])
    = (char_to_int "?", None) :: rs.
Proof.
  intros [(text & -> & Htext & Hunk) | (c & more & -> & Hc & Hunk)].
  - apply getopt_long_unknown; [exact Htext | now apply unknown_long_end].
  - now apply getopt_short_unknown.
Qed.

(** C2, counterexample.  With a switch registered under the short
    character [?], the option [--unknown], registered under no form, does
    not make [Parse] return [false]: its report [?] finds the setter of
    that switch, which is called, and [Parse] returns [true].  With
    [-v, --verbose] and [-o, --output] registered, [--verb] is registered
    under no form either, but [getopt_long] takes it for [--verbose]:
    the switch is toggled and [Parse] returns [true].  And [-o] as the
    last argument is a registered option, the only one of the command
    line, yet [Parse] returns [false], its argument being missing. *)
Lemma Parse_unknown_option_not_rejected :
  ((Parse keep_value ["prog"; "--unknown"] with_help_question.1
      with_help_question.2).1.1 = true
   /\ with_help_question.2 !! 0%nat = Some (VBool false)
   /\ (Parse keep_value ["prog"; "--unknown"] with_help_question.1
         with_help_question.2).2 !! 0%nat = Some (VBool true))
  /\ ((Parse keep_value ["prog"; "--verb"] with_switch_and_string.1
         with_switch_and_string.2).1.1 = true
      /\ with_switch_and_string.2 !! 0%nat = Some (VBool false)
      /\ (Parse keep_value ["prog"; "--verb"] with_switch_and_string.1
            with_switch_and_string.2).2 !! 0%nat = Some (VBool true))
  /\ (Parse keep_value ["prog"; "-o"] with_switch_and_string.1
        with_switch_and_string.2).1.1 = false.
Proof. vm_compute. repeat split. Qed.

(** *** The colon that [Add] appends for a flag without a short character *)

(** C1, at the failing input: the second call appends its colon although
    it appended no character, the option string becomes ["a::"], which
    gives [-a] an optional argument; for [prog -a value] [getopt_long]
    reports [a] with a null [optarg], the setter is called with the empty
    text, and the variable ends as [""] and not as ["value"]. *)
Theorem short_value_flag_loses_its_argument
    (ex : value -> string -> value) (op1 op2 : struct_option) :
  optstr (value_flag_then_long_only op1 op2).1 = "a::"
  /\ Getopt.getopt_long ["prog"; "-a"; "value"]
       (optstr (value_flag_then_long_only op1 op2).1)
       (options (value_flag_then_long_only op1 op2).1 ++ [option_end])
     = [(char_to_int "a", None)]
  /\ (Parse ex ["prog"; "-a"; "value"] (value_flag_then_long_only op1 op2).1
        (value_flag_then_long_only op1 op2).2).1.1 = true
  /\ (Parse ex ["prog"; "-a"; "value"] (value_flag_then_long_only op1 op2).1
        (value_flag_then_long_only op1 op2).2).2 !! 0%nat = Some (VString "").
Proof. vm_compute. repeat split. Qed.

(** The example of C1: a switch [-v, --verbose] and a string flag
    [-o, --output] with default ["out.txt"]; [prog -v --output=result.txt]
    sets the first to [true], the second to ["result.txt"], and [Parse]
    returns [true]. *)
Lemma Parse_verbose_output (ex : value -> string -> value) :
  (Parse ex ["prog"; "-v"; "--output=result.txt"] with_switch_and_string.1
     with_switch_and_string.2).1.1 = true
  /\ (Parse ex ["prog"; "-v"; "--output=result.txt"] with_switch_and_string.1
        with_switch_and_string.2).2
     = <[1%nat := VString "result.txt"]> (<[0%nat := VBool true]> ∅).
Proof. split; [vm_compute; reflexivity |]. apply map_eq. intros i.
  destruct i as [| [| i]]; vm_compute; reflexivity.
Qed.

(** C6, at the failing input: the colon of the second call makes the
    option string ["v:"], so the switch takes an argument.  For
    [prog -v -v] the second [-v] is consumed as that argument: the setter
    runs once and two occurrences leave the variable [true]; for
    [prog -v] the argument is missing, [Parse] returns [false] and one
    occurrence leaves the variable [false]. *)
Theorem switch_before_long_only_flag_takes_an_argument
    (ex : value -> string -> value) (op1 op2 : struct_option) :
  optstr (switch_then_long_only op1 op2).1 = "v:"
  /\ Getopt.getopt_long ["prog"; "-v"; "-v"]
       (optstr (switch_then_long_only op1 op2).1)
       (options (switch_then_long_only op1 op2).1 ++ [option_end])
     = [(char_to_int "v", Some "-v")]
  /\ (Parse ex ["prog"; "-v"; "-v"] (switch_then_long_only op1 op2).1
        (switch_then_long_only op1 op2).2).2 !! 0%nat = Some (VBool true)
  /\ (Parse ex ["prog"; "-v"] (switch_then_long_only op1 op2).1
        (switch_then_long_only op1 op2).2).1.1 = false
  /\ (Parse ex ["prog"; "-v"] (switch_then_long_only op1 op2).1
        (switch_then_long_only op1 op2).2).2 !! 0%nat = Some (VBool false).
Proof. vm_compute. repeat split. Qed.

(** ** The layout of a usage block *)

(** C9, at the failing input: on a terminal of 40 columns the label of
    [--transparent-color-index-for-sprites] is 41 characters long.  The
    remaining width [width - 41] wraps around in [size_t], the comparison
    with [width * 0.3f] succeeds, and the description starts at column 41
    instead of falling back to [IndentFlag + 2]; the column width
    [width - desc_pos] wraps around in [unsigned], and the description
    follows the label on one line of 112 characters.  When the
    description begins with a space, [i + column_width] wraps around to
    the position before the skipped space and the loop is still running
    after [desc.size () + 1] iterations. *)
Theorem label_wider_than_terminal :
  tty_width 40 = 40
  /\ slen (label 2 18 Ascii.zero long_label) = 41
  /\ description_start 2 40 41 = 41
  /\ u32 (40 - description_start 2 40 41) = 2 ^ 32 - 1
  /\ usage_block 2 18 Ascii.zero long_label (VUnsigned 0) long_description 40
     = Some (label 2 18 Ascii.zero long_label +:+ long_description)
  /\ slen (label 2 18 Ascii.zero long_label +:+ long_description) = 112
  /\ usage_block 2 18 Ascii.zero long_label (VUnsigned 0)
       (" " +:+ long_description) 40 = None.
Proof. vm_compute. repeat split. Qed.

(** ** Wrapping when the label fits the terminal *)

Lemma chars_append (a b : string) : chars (a +:+ b) = chars a ++ chars b.
Proof. induction a as [| c a IH]; simpl; [reflexivity | now rewrite IH]. Qed.

Lemma string_of_chars_app (l1 l2 : list ascii) :
  string_of_list_ascii (l1 ++ l2)
  = string_of_list_ascii l1 +:+ string_of_list_ascii l2.
Proof. induction l1 as [| c l1 IH]; simpl; [reflexivity | now rewrite IH]. Qed.

Lemma chars_inj (a b : string) : chars a = chars b -> a = b.
Proof.
  intros H. rewrite <- (string_of_list_ascii_of_string a),
    <- (string_of_list_ascii_of_string b). now f_equal.
Qed.

Lemma append_assoc (a b c : string) : (a +:+ b) +:+ c = a +:+ (b +:+ c).
Proof. apply chars_inj. rewrite !chars_append. symmetry. apply app_assoc. Qed.

Lemma append_empty_r (a : string) : a +:+ "" = a.
Proof. apply chars_inj. rewrite chars_append. apply app_nil_r. Qed.

Lemma slen_chars (s : string) : slen s = Z.of_nat (length (chars s)).
Proof.
  unfold slen. f_equal. induction s as [| c s IH]; simpl; [reflexivity | now rewrite IH].
Qed.

Lemma slen_string_of_chars (l : list ascii) :
  slen (string_of_list_ascii l) = Z.of_nat (length l).
Proof. now rewrite slen_chars, list_ascii_of_string_of_list_ascii. Qed.

Lemma skip_spaces_cons (c : ascii) (rest : list ascii) (i : Z) :
  skip_spaces (c :: rest) i
  = if Ascii.eqb c " " then skip_spaces rest (i + 1) else i.
Proof. destruct c as [[] [] [] [] [] [] [] []]; reflexivity. Qed.

Lemma skip_spaces_spec (rest : list ascii) : forall i,
  exists k : nat,
    skip_spaces rest i = i + Z.of_nat k
    /\ (k <= length rest)%nat
    /\ nonspace (take k rest) = []
    /\ head (drop k rest) <> Some " "%char.
Proof.
  induction rest as [| c rest IH]; intros i.
  - exists 0%nat. repeat split; simpl; try lia. discriminate.
  - rewrite skip_spaces_cons.
    destruct (Ascii.eqb_spec c " ") as [-> | Hc].
    + destruct (IH (i + 1)) as (k & H1 & H2 & H3 & H4).
      exists (S k). simpl. repeat split; try lia; assumption.
    + exists 0%nat. repeat split; simpl; try lia. congruence.
Qed.

Lemma u64_small (z : Z) : 0 <= z < 2 ^ 64 -> u64 z = z.
Proof. intros H. unfold u64. now apply Z.mod_small. Qed.

Lemma u32_small (z : Z) : 0 <= z < 2 ^ 32 -> u32 z = z.
Proof. intros H. unfold u32. now apply Z.mod_small. Qed.

Lemma chars_substr (desc : string) (pos len : Z) :
  chars (substr desc pos len)
  = take (Z.to_nat (Z.min len (slen desc - pos)))
      (drop (Z.to_nat pos) (chars desc)).
Proof. unfold substr. apply list_ascii_of_string_of_list_ascii. Qed.

Lemma chars_substr_from (desc : string) (pos : Z) :
  chars (substr_from desc pos) = drop (Z.to_nat pos) (chars desc).
Proof. unfold substr_from. apply list_ascii_of_string_of_list_ascii. Qed.

Lemma nonspace_app (l1 l2 : list ascii) :
  nonspace (l1 ++ l2) = nonspace l1 ++ nonspace l2.
Proof. unfold nonspace. apply List.filter_app. Qed.

(** Equations between appended strings, up to associativity. *)
Ltac string_assoc :=
  apply chars_inj; unfold joined;
  repeat first [rewrite chars_append | progress simpl];
  rewrite <- ?app_assoc, ?app_nil_r; reflexivity.

Lemma nonspace_nil_spaces (l : list ascii) :
  nonspace l = [] -> l = repeat " "%char (length l).
Proof.
  induction l as [| c l IH]; simpl; [reflexivity |].
  destruct (Ascii.eqb_spec c " ") as [-> | Hc]; simpl; [| discriminate].
  intros H. now rewrite <- IH.
Qed.

Section Wrapping.

Variable desc : string.
Variables column_width desc_pos : Z.
Hypothesis column_width_positive : 1 <= column_width.
Hypothesis no_overflow : slen desc + column_width < 2 ^ 31.

Lemma wrap_loop_from (fuel : nat) : forall i ss,
  0 <= i <= slen desc + column_width ->
  Z.max 0 (slen desc - i) < Z.of_nat fuel ->
  exists pieces,
    wrap_loop fuel desc column_width desc_pos i ss
    = Some (ss +:+ joined desc_pos (map snd pieces))
    /\ wrapped_from desc column_width i pieces.
Proof.
  unfold wrapped_from.
  induction fuel as [| fuel IH]; intros i ss Hi Hfuel; [lia |].
  pose proof (slen_chars desc) as Hlen.
  simpl. rewrite (u64_small i) by lia.
  destruct (Z.ltb_spec i (slen desc)) as [Hlt | Hge].
  - destruct (skip_spaces_spec (drop (Z.to_nat i) (chars desc)) i)
      as (k & Hk & Hkl & Hsp & Hhd).
    rewrite Hk. rewrite length_drop in Hkl.
    set (i1 := i + Z.of_nat k) in *.
    assert (Hi1 : i <= i1 <= slen desc) by lia.
    assert (Hdrop : drop (Z.to_nat i1) (chars desc)
                    = drop k (drop (Z.to_nat i) (chars desc))).
    { rewrite drop_drop. f_equal. lia. }
    assert (Hsplit : nonspace (drop (Z.to_nat i) (chars desc))
                     = nonspace (drop (Z.to_nat i1) (chars desc))).
    { rewrite <- (take_drop k (drop (Z.to_nat i) (chars desc))) at 1.
      now rewrite nonspace_app, Hsp, Hdrop. }
    assert (Hgap : drop (Z.to_nat i) (chars desc)
                   = repeat " "%char k ++ drop (Z.to_nat i1) (chars desc)).
    { rewrite <- (take_drop k (drop (Z.to_nat i) (chars desc))) at 1.
      rewrite <- Hdrop. f_equal.
      rewrite (nonspace_nil_spaces _ Hsp), length_take, length_drop.
      f_equal. lia. }
    rewrite (u32_small (i1 + column_width)) by lia.
    rewrite (s32_small (i1 + column_width)) by lia.
    destruct (Z.ltb_spec (i1 + column_width) (slen desc)) as [Hwrap | Hlast].
    + destruct (IH (i1 + column_width)
                  (ss +:+ substr desc i1 column_width +:+ str1 "010"
                   +:+ spaces desc_pos))
        as (pieces & Hrun & Hne & _ & Hle & Hsp' & Hfull & Htext & Hgaps & Hns);
        [lia | lia |].
      destruct pieces as [| [g1 c1] ps]; [now elim (Hne Hwrap) |].
      exists ((k, substr desc i1 column_width) :: (g1, c1) :: ps).
      assert (Hchunk : chars (substr desc i1 column_width)
                       = take (Z.to_nat column_width)
                           (drop (Z.to_nat i1) (chars desc))).
      { rewrite chars_substr. f_equal. lia. }
      assert (Hcut : drop (Z.to_nat i1) (chars desc)
                     = chars (substr desc i1 column_width)
                       ++ drop (Z.to_nat (i1 + column_width)) (chars desc)).
      { rewrite Hchunk.
        transitivity (take (Z.to_nat column_width)
                        (drop (Z.to_nat i1) (chars desc))
                      ++ drop (Z.to_nat column_width)
                           (drop (Z.to_nat i1) (chars desc)));
          [symmetry; apply take_drop |].
        f_equal. rewrite drop_drop. f_equal. lia. }
      assert (Hsize : slen (substr desc i1 column_width) = column_width).
      { rewrite slen_chars, Hchunk, length_take, length_drop. lia. }
      split.
      * rewrite Hrun. f_equal. string_assoc.
      * simpl map in *. repeat split.
        -- discriminate.
        -- lia.
        -- constructor; [lia | exact Hle].
        -- constructor; [| exact Hsp'].
           rewrite Hchunk, Hdrop.
           destruct (drop k (drop (Z.to_nat i) (chars desc))) as [| x xs] eqn:E;
             [destruct (Z.to_nat column_width); discriminate |].
           destruct (Z.to_nat column_width) eqn:Ecw; [lia |]. exact Hhd.
        -- change (removelast (substr desc i1 column_width :: c1 :: map snd ps))
             with (substr desc i1 column_width :: removelast (c1 :: map snd ps)).
           constructor; [exact Hsize | exact Hfull].
        -- rewrite Hgap, Hcut, Htext. unfold pieces_text. simpl.
           now rewrite <- !app_assoc.
        -- constructor; [| exact Hgaps]. simpl. intros E.
           rewrite E in Hsize. change (slen "") with 0 in Hsize. lia.
        -- rewrite concat_cons, nonspace_app, Hns, Hsplit, <- nonspace_app.
           now rewrite <- Hcut.
    + destruct (IH (i1 + column_width) (ss +:+ substr_from desc i1))
        as (pieces & Hrun & _ & Hnil & _); [lia | lia |].
      rewrite (Hnil Hlast) in Hrun.
      exists [(k, substr_from desc i1)]. split.
      * rewrite Hrun. f_equal. string_assoc.
      * simpl map. repeat split.
        -- discriminate.
        -- lia.
        -- constructor; [| constructor].
           rewrite slen_chars, chars_substr_from, length_drop. lia.
        -- constructor; [| constructor].
           rewrite chars_substr_from, Hdrop. exact Hhd.
        -- constructor.
        -- rewrite Hgap. unfold pieces_text. simpl.
           now rewrite chars_substr_from, !app_nil_r.
        -- constructor; [| constructor]. simpl. intros E.
           apply (f_equal slen) in E.
           rewrite slen_chars, chars_substr_from, length_drop in E.
           change (slen "") with 0 in E. lia.
        -- simpl. now rewrite app_nil_r, chars_substr_from, Hsplit.
  - exists []. split.
    + simpl. now rewrite append_empty_r.
    + simpl map. repeat split; try constructor; try lia.
      * rewrite drop_ge; [reflexivity | lia].
      * simpl. rewrite drop_ge; [reflexivity | lia].
Qed.

End Wrapping.

(** The loop of [add_entry] run from the start: it ends, and what it
    appends is a list of chunks, joined by a newline and [desc_pos]
    spaces.  The description is cut into pieces, each a run of spaces
    that is skipped and the chunk that follows it; no chunk is longer than
    the column width, none begins with a space, all but the last are
    full, and only a chunk that follows skipped spaces can be empty. *)
Lemma wrap_loop_chunks (desc : string) (column_width desc_pos : Z) (ss : string) :
  1 <= column_width -> slen desc + column_width < 2 ^ 31 ->
  exists pieces,
    wrap_loop (S (String.length desc)) desc column_width desc_pos 0 ss
    = Some (ss +:+ joined desc_pos (map snd pieces))
    /\ chars desc = pieces_text pieces
    /\ Forall (fun c => slen c <= column_width) (map snd pieces)
    /\ Forall (fun c => head (chars c) <> Some " "%char) (map snd pieces)
    /\ Forall (fun c => slen c = column_width) (removelast (map snd pieces))
    /\ Forall (fun p => snd p = "" -> (0 < fst p)%nat) pieces
    /\ nonspace (concat (map chars (map snd pieces))) = nonspace (chars desc).
Proof.
  intros Hcw Hsize.
  destruct (wrap_loop_from desc column_width desc_pos Hcw Hsize
              (S (String.length desc)) 0 ss)
    as (pieces & Hrun & _ & _ & H1 & H2 & H3 & H4 & H5 & H6).
  - unfold slen in *. lia.
  - unfold slen. lia.
  - exists pieces. repeat split; assumption.
Qed.

(** *** The comparison with [width * 0.3f] *)

(** Rounded to single precision, [w * 0.3f] has the integer part of
    [3 * w / 10]: the product is [3 * w / 10 + 4 * w / (10 * 2 ^ 25)], and
    rounding to 24 bits moves it by less than one unit of [2 ^ k], with
    [k <= 16], and never below a multiple of [2 ^ 25]. *)
Lemma mul_03f_floor (w : Z) :
  0 <= w < 2 ^ 16 ->
  Float32.round24 (w * Float32.c03) / 2 ^ 25 = 3 * w / 10.
Proof.
  intros Hw. unfold Float32.c03, Float32.round24.
  set (p := w * 10066330).
  destruct (Z.ltb_spec p (2 ^ 24)) as [Hsmall | Hbig].
  - subst p. rewrite Z.div_small by lia. symmetry. apply Z.div_small. lia.
  - assert (Hlog : 24 <= Z.log2 p < 40).
    { split.
      - apply Z.log2_le_pow2; lia.
      - apply Z.log2_lt_pow2; subst p; lia. }
    assert (Hk : exists k, Z.log2 p - 23 = k /\ 1 <= k <= 16)
      by (eexists; split; [reflexivity | lia]).
    destruct Hk as (k & -> & Hk).
    assert (Hcases : k = 1 \/ k = 2 \/ k = 3 \/ k = 4 \/ k = 5 \/ k = 6 \/ k = 7
                     \/ k = 8 \/ k = 9 \/ k = 10 \/ k = 11 \/ k = 12 \/ k = 13
                     \/ k = 14 \/ k = 15 \/ k = 16) by lia.
    clear Hlog Hk.
    repeat (destruct Hcases as [-> | Hcases]); try subst k;
      cbv zeta; change (2 ^ 25) with 33554432;
      match goal with
      | |- context [2 ^ ?a] =>
          let v := eval compute in (2 ^ a) in change (2 ^ a) with v
      end;
      match goal with
      | |- context [2 ^ ?a] =>
          let v := eval compute in (2 ^ a) in change (2 ^ a) with v
      | _ => idtac
      end;
      subst p;
      repeat match goal with
             | |- context [if ?b then _ else _] => destruct b
             end;
      Z.div_mod_to_equations; lia.
Qed.

(** For a width below [2 ^ 16] and an [n] that [float] represents
    exactly, the single precision comparison [n > w * 0.3f] decides
    whether [n] exceeds 30% of [w]. *)
Lemma gt_03f_decides (n w : Z) :
  0 <= n < 2 ^ 24 -> 0 <= w < 2 ^ 16 ->
  Float32.gt_03f n w = (3 * w <? 10 * n).
Proof.
  intros Hn Hw. unfold Float32.gt_03f, Float32.of_unsigned, Float32.mul_03f.
  assert (Hr : forall p, 0 <= p < 2 ^ 24 -> Float32.round24 p = p).
  { intros p Hp. unfold Float32.round24.
    destruct (Z.ltb_spec p (2 ^ 24)); [reflexivity | lia]. }
  rewrite (Hr n), (Hr w) by lia.
  pose proof (mul_03f_floor w Hw) as Hfloor.
  generalize dependent (Float32.round24 (w * Float32.c03)). intros m Hfloor.
  destruct (Z.ltb_spec m (n * 2 ^ 25)) as [H1 | H1];
    destruct (Z.ltb_spec (3 * w) (10 * n)) as [H2 | H2]; try reflexivity;
    exfalso.
  - assert (m / 2 ^ 25 < n) by (apply Z.div_lt_upper_bound; lia).
    assert (n <= 3 * w / 10) by (apply Z.div_le_lower_bound; lia). lia.
  - assert (n <= m / 2 ^ 25) by (apply Z.div_le_lower_bound; lia).
    assert (3 * w / 10 < n) by (apply Z.div_lt_upper_bound; lia). lia.
Qed.

Lemma tty_width_range (ws_col : Z) : 40 <= tty_width ws_col < 2 ^ 16.
Proof.
  unfold tty_width, u16.
  pose proof (Z.mod_pos_bound ws_col (2 ^ 16)).
  destruct (Z.leb_spec 40 (ws_col mod 2 ^ 16)); lia.
Qed.

Lemma slen_append (a b : string) : slen (a +:+ b) = slen a + slen b.
Proof. rewrite !slen_chars, chars_append, length_app. lia. Qed.

Lemma slen_spaces (n : Z) : 0 <= n -> slen (spaces n) = n.
Proof.
  intros Hn. unfold spaces. rewrite slen_string_of_chars, repeat_length. lia.
Qed.

Lemma slen_nonneg (s : string) : 0 <= slen s.
Proof. unfold slen. lia. Qed.

(** The label of a call that names a flag is longer than the fallback
    indentation. *)
Lemma label_length (indent_flag indent_description : Z) (fl : ascii)
    (long_flag : string) :
  0 <= indent_flag ->
  is_nul fl && (slen long_flag =? 0) = false ->
  indent_flag + 3 <= slen (label indent_flag indent_description fl long_flag).
Proof.
  intros Hi Hf. unfold label.
  set (ss1 := if is_nul fl then spaces indent_flag
              else spaces indent_flag +:+ "-" +:+ str1 fl +:+ " ").
  set (ss2 := if slen long_flag =? 0 then ss1
              else ss1 +:+ "--" +:+ long_flag +:+ " ").
  assert (H1 : indent_flag <= slen ss1
               /\ (is_nul fl = false -> indent_flag + 3 <= slen ss1)).
  { subst ss1. destruct (is_nul fl).
    - rewrite slen_spaces by lia. split; [lia | discriminate].
    - rewrite !slen_append, slen_spaces by lia.
      change (slen "-") with 1. change (slen (str1 fl)) with 1.
      change (slen " ") with 1. split; intros; lia. }
  assert (H2 : indent_flag + 3 <= slen ss2).
  { subst ss2. destruct (Z.eqb_spec (slen long_flag) 0) as [E | E].
    - rewrite andb_true_r in Hf. now apply H1.
    - rewrite !slen_append. change (slen "--") with 2. change (slen " ") with 1.
      pose proof (slen_nonneg long_flag). lia. }
  rewrite slen_append.
  pose proof (slen_nonneg
    (spaces (if indent_description <? slen ss2 then 1
             else indent_description - slen ss2))). lia.
Qed.

(** [desc_pos] when the label fits the terminal. *)
Lemma description_start_fits (indent_flag width prefix_len : Z) :
  0 <= indent_flag -> indent_flag + 3 <= prefix_len -> prefix_len <= width ->
  width < 2 ^ 16 ->
  description_start indent_flag width prefix_len
  = if 3 * width <? 10 * (width - prefix_len) then prefix_len
    else indent_flag + 2.
Proof.
  intros Hi Hp Hw Hw'. unfold description_start.
  rewrite (u64_small (width - prefix_len)) by lia.
  rewrite gt_03f_decides by lia.
  rewrite !u32_small by lia. reflexivity.
Qed.

(** X5: for a terminal width below [2 ^ 16] and a label that is not wider
    than the terminal, the comparison of line 146, computed in [size_t]
    and single precision, holds exactly when the remaining width exceeds
    30% of the terminal width. *)
Theorem remaining_width_comparison_exact (width prefix_len : Z) :
  0 <= prefix_len <= width -> width < 2 ^ 16 ->
  Float32.gt_03f (u64 (width - prefix_len)) width
  = (3 * width <? 10 * (width - prefix_len)).
Proof.
  intros Hp Hw. rewrite (u64_small (width - prefix_len)) by lia.
  apply gt_03f_decides; lia.
Qed.

Lemma remaining_width_comparison_exact_witness :
  Float32.gt_03f (u64 (80 - 56)) 80 = (3 * 80 <? 10 * (80 - 56))
  /\ Float32.gt_03f (u64 (80 - 55)) 80 = (3 * 80 <? 10 * (80 - 55)).
Proof. split; apply remaining_width_comparison_exact; lia. Defined.

(** X3: a usage block when the padded label is not wider than the terminal:
    the description starts at the end of the label when more than 30% of
    the width remains there, and otherwise on a line of its own with the
    continuation lines at [IndentFlag + 2]; the loop ends.  The
    description with its suffix is cut into pieces, each a run of spaces
    that is left out followed by a chunk that is written, in the order of
    the text; the chunks are joined by a newline and the indentation; no
    chunk is longer than the column width [width - desc_pos], none
    begins with a space, all but the last have exactly the column width,
    and only a chunk that follows left-out spaces can be empty. *)
Theorem usage_block_when_label_fits (indent_flag indent_description : Z)
    (fl : ascii) (long_flag : string) (default_val : value)
    (description : string) (ws_col : Z) :
  let ss := label indent_flag indent_description fl long_flag in
  let desc := description +:+ get_default default_val in
  let width := tty_width ws_col in
  let remains := 3 * width <? 10 * (width - slen ss) in
  let desc_pos := if remains then slen ss else indent_flag + 2 in
  let column_width := width - desc_pos in
  0 <= indent_flag ->
  is_nul fl && (slen long_flag =? 0) = false ->
  slen ss <= width ->
  slen desc < 2 ^ 30 ->
  1 <= column_width
  /\ exists pieces,
       usage_block indent_flag indent_description fl long_flag default_val
         description ws_col
       = Some ((if remains then ss else ss +:+ str1 "010")
               +:+ joined desc_pos (map snd pieces))
       /\ chars desc = pieces_text pieces
       /\ Forall (fun c => slen c <= column_width) (map snd pieces)
       /\ Forall (fun c => head (chars c) <> Some " "%char) (map snd pieces)
       /\ Forall (fun c => slen c = column_width) (removelast (map snd pieces))
       /\ Forall (fun p => snd p = "" -> (0 < fst p)%nat) pieces
       /\ nonspace (concat (map chars (map snd pieces))) = nonspace (chars desc).
Proof.
  intros ss desc width remains desc_pos column_width Hi Hf Hfit Hsize.
  pose proof (tty_width_range ws_col) as Hw. fold width in Hw.
  pose proof (label_length indent_flag indent_description fl long_flag Hi Hf)
    as Hlabel. fold ss in Hlabel.
  assert (Hcw : 1 <= column_width).
  { subst column_width desc_pos remains.
    destruct (Z.ltb_spec (3 * width) (10 * (width - slen ss))); lia. }
  split; [exact Hcw |].
  unfold usage_block. fold ss desc width.
  rewrite (u32_small width) by lia.
  rewrite description_start_fits by lia. fold remains desc_pos.
  assert (Hpos : 0 <= desc_pos <= width).
  { subst desc_pos. destruct remains; lia. }
  rewrite (u32_small (width - desc_pos)) by lia. fold column_width.
  rewrite (u32_small (indent_flag + 2)) by lia.
  assert (Hnl : (desc_pos =? indent_flag + 2) = negb remains).
  { subst desc_pos. destruct remains; simpl; [apply Z.eqb_neq | apply Z.eqb_eq]; lia. }
  rewrite Hnl.
  destruct (wrap_loop_chunks desc column_width desc_pos
              (if negb remains then ss +:+ str1 "010" else ss))
    as (pieces & Hrun & H1 & H2 & H3 & H4 & H5 & H6); [exact Hcw | lia |].
  exists pieces. rewrite Hrun. repeat split; try assumption.
  now destruct remains.
Qed.

(** On a terminal of 40 columns, with the label [  -x --long ] padded to
    18 characters: the 43 characters of the description are cut into two
    chunks of at most 22, the space between them being left out. *)
Lemma usage_block_when_label_fits_witness :
  1 <= 40 - 18
  /\ exists pieces,
       usage_block 2 18 "x" "long" (VString "")
         "The quick brown fox jumps over the lazy dog" 40
       = Some (label 2 18 "x" "long" +:+ joined 18 (map snd pieces))
       /\ chars ("The quick brown fox jumps over the lazy dog"
                 +:+ get_default (VString ""))
          = pieces_text pieces
       /\ Forall (fun c => slen c <= 40 - 18) (map snd pieces)
       /\ Forall (fun c => head (chars c) <> Some " "%char) (map snd pieces)
       /\ Forall (fun c => slen c = 40 - 18) (removelast (map snd pieces))
       /\ Forall (fun p => snd p = "" -> (0 < fst p)%nat) pieces
       /\ nonspace (concat (map chars (map snd pieces)))
          = nonspace (chars ("The quick brown fox jumps over the lazy dog"
                             +:+ get_default (VString ""))).
Proof.
  apply (usage_block_when_label_fits 2 18 "x" "long" (VString "")
           "The quick brown fox jumps over the lazy dog" 40).
  - lia.
  - reflexivity.
  - vm_compute. discriminate.
  - vm_compute. reflexivity.
Defined.

(** ** The object after calls that return *)

(** What a call that names a flag and returns has done to the object. *)
Lemma register_returned c o mem o' mem' :
  names_flag c = true ->
  register c o mem = (Returned, o', mem') ->
  options o' = options o ++ [entry_of c (optval o)]
  /\ setters o' = <[code_of c (optval o) := setter_of c]> (setters o)
  /\ optstr o' = optstr o +:+ optstr_piece c
  /\ optval o' = next_optval c (optval o)
  /\ (c_long_flag c <> "" -> c_long_flag c ∉ long_flags o).
Proof.
  unfold names_flag, register, Add, AddSwitch, entry_of, setter_of, optstr_piece,
    code_of, next_optval.
  intros Hn H. apply negb_true_iff in Hn.
  destruct (c_kind c) as [d | b]; unfold add_entry, add_entry_code, add_entry_name in H;
    rewrite Hn in H.
  all: destruct (is_nul (c_flag c)) eqn:Hf; simpl in *.
  all: repeat case_match; simplify_eq; simpl.
  all: repeat split; try reflexivity; try congruence.
  all: try (rewrite ?append_assoc, ?append_empty_r; reflexivity).
  all: try (intros Hl Hin; match goal with
            | E : bool_decide _ = false |- _ =>
                apply bool_decide_eq_false_1 in E; now apply E
            | E : (slen _ =? 0) = true |- _ =>
                apply Z.eqb_eq, slen_zero_iff in E; congruence
            end).
Qed.

Lemma all_returned_app pre post o mem :
  all_returned (pre ++ post) o mem = true ->
  all_returned pre o mem = true
  /\ all_returned post (register_all pre o mem).1 (register_all pre o mem).2 = true.
Proof.
  revert o mem. induction pre as [| c pre IH]; intros o mem H; simpl in *.
  - now split.
  - destruct (register c o mem) as [[out o1] mem1] eqn:E.
    destruct out; try discriminate. now apply IH.
Qed.

Lemma sconcat_app (l1 l2 : list string) :
  sconcat (l1 ++ l2) = sconcat l1 +:+ sconcat l2.
Proof.
  induction l1 as [| s l1 IH]; simpl; [reflexivity |].
  now rewrite IH, append_assoc.
Qed.

(** The object after a sequence of calls that all name a flag and all
    return. *)
Lemma register_all_returned (cs : list call) : forall o mem,
  forallb names_flag cs = true ->
  all_returned cs o mem = true ->
  options (register_all cs o mem).1 = options o ++ entries cs (optval o)
  /\ setters (register_all cs o mem).1 = bind_all cs (optval o) (setters o)
  /\ optstr (register_all cs o mem).1
     = optstr o +:+ sconcat (map optstr_piece cs).
Proof.
  induction cs as [| c cs IH]; intros o mem Hn Hall; simpl in *.
  - now rewrite app_nil_r, append_empty_r.
  - apply andb_true_iff in Hn as [Hc Hn].
    destruct (register c o mem) as [[out o1] mem1] eqn:E.
    destruct out; try discriminate.
    destruct (register_returned _ _ _ _ _ Hc E) as (Ho & Hs & Hstr & Hv & _).
    destruct (IH o1 mem1 Hn Hall) as (IH1 & IH2 & IH3).
    rewrite IH1, IH2, IH3, Ho, Hs, Hstr, Hv.
    rewrite <- app_assoc, append_assoc. repeat split.
Qed.

Lemma entries_app pre post v :
  entries (pre ++ post) v = entries pre v ++ entries post (counter_after pre v).
Proof.
  revert v. induction pre as [| c pre IH]; intros v; simpl; [reflexivity |].
  now rewrite IH.
Qed.

Lemma entries_length cs : forall v, length (entries cs v) = length cs.
Proof. induction cs as [| c cs IH]; intros v; simpl; [reflexivity | now rewrite IH]. Qed.

Lemma bind_all_app pre post v st :
  bind_all (pre ++ post) v st
  = bind_all post (counter_after pre v) (bind_all pre v st).
Proof.
  revert v st. induction pre as [| c pre IH]; intros v st; simpl; [reflexivity |].
  now rewrite IH.
Qed.

Lemma bind_all_other cs : forall v st k,
  k ∉ map val (entries cs v) -> bind_all cs v st !! k = st !! k.
Proof.
  induction cs as [| c cs IH]; intros v st k Hk; simpl in *; [reflexivity |].
  apply not_elem_of_cons in Hk as [Hne Hk].
  rewrite IH by exact Hk. now apply lookup_insert_ne.
Qed.

(** On a new object the codes of the entries are pairwise distinct. *)
Lemma entries_codes_NoDup cs mem :
  forallb names_flag cs = true ->
  all_returned cs Options_new mem = true ->
  Z.of_nat (length cs) < 2 ^ 31 - 256 ->
  NoDup (map val (entries cs 256)).
Proof.
  intros Hn Hall Hlen.
  destruct (register_all_returned cs Options_new mem Hn Hall) as (Ho & _).
  simpl in Ho. rewrite <- Ho.
  pose proof (register_all_codes_inv cs 0 Options_new mem Hn) as H.
  destruct H as [H _]; [lia | apply codes_inv_new | exact H].
Qed.

(** Later calls do not replace the setter of a call. *)
Lemma registered_setter pre c post mem :
  forallb names_flag (pre ++ c :: post) = true ->
  all_returned (pre ++ c :: post) Options_new mem = true ->
  Z.of_nat (length (pre ++ c :: post)) < 2 ^ 31 - 256 ->
  setters (register_all (pre ++ c :: post) Options_new mem).1
    !! code_of c (counter_after pre 256)
  = Some (setter_of c).
Proof.
  intros Hn Hall Hlen.
  pose proof (entries_codes_NoDup _ _ Hn Hall Hlen) as Hnd.
  destruct (register_all_returned _ Options_new mem Hn Hall) as (_ & Hs & _).
  rewrite Hs. simpl. rewrite bind_all_app. simpl.
  rewrite entries_app, map_app in Hnd. simpl in Hnd.
  apply NoDup_app in Hnd as (_ & _ & Hnd). apply NoDup_cons in Hnd as [Hnot _].
  rewrite bind_all_other by exact Hnot. apply lookup_insert_eq.
Qed.

(** The counter has moved once for each call without a short flag. *)
Lemma counter_after_count (cs : list call) : forall v,
  256 <= v -> v + Z.of_nat (length cs) < 2 ^ 31 ->
  counter_after cs v
  = v + Z.of_nat (length (List.filter (fun c => is_nul (c_flag c)) cs)).
Proof.
  unfold counter_after.
  induction cs as [| c cs IH]; intros v Hv Hlen; simpl in *; [lia |].
  unfold next_optval at 2.
  pose proof (List.filter_length_le (fun c => is_nul (c_flag c)) cs) as Hle.
  destruct (is_nul (c_flag c)); simpl.
  - rewrite s32_small by lia. rewrite IH by lia. lia.
  - apply IH; lia.
Qed.

(** X17: the entry and the setter of a call.  After calls on a new object
    that all name a flag and all return, [options] holds one entry for
    each call, in the order of the calls.  The entry of a call has the
    code of its short flag, or 256 plus the number of earlier calls
    without a short flag; [has_arg] is [required_argument] for [Add] and
    [optional_argument] for [AddSwitch]; [flag] is null; the name is the
    long flag when there is one, as a C string (the characters before its
    first NUL); and the setter found under the code of the entry is the
    one of this call, whatever was registered later. *)
Theorem registered_entry_and_setter (pre post : list call) (c : call)
    (mem : gmap nat value) :
  let cs := pre ++ c :: post in
  let o := (register_all cs Options_new mem).1 in
  forallb names_flag cs = true ->
  all_returned cs Options_new mem = true ->
  Z.of_nat (length cs) < 2 ^ 31 - 256 ->
  length (options o) = length cs
  /\ exists e,
       options o !! length pre = Some e
       /\ val e
          = (if is_nul (c_flag c)
             then 256 + Z.of_nat (length (List.filter
                                            (fun c' => is_nul (c_flag c')) pre))
             else char_to_int (c_flag c))
       /\ has_arg e = match c_kind c with
                      | CallAdd _ => required_argument
                      | CallAddSwitch _ => optional_argument
                      end
       /\ flag e = None
       /\ (c_long_flag c <> "" -> name e = Some (c_str (c_long_flag c)))
       /\ setters o !! val e
          = Some match c_kind c with
                 | CallAdd d => bind_set d (c_var c)
                 | CallAddSwitch _ => Negate (c_var c)
                 end.
Proof.
  intros cs o Hn Hall Hlen.
  destruct (register_all_returned cs Options_new mem Hn Hall) as (Ho & _).
  change (options o = entries cs 256) in Ho.
  split; [now rewrite Ho, entries_length |].
  exists (entry_of c (counter_after pre 256)).
  assert (Hcount : counter_after pre 256
                   = 256 + Z.of_nat (length (List.filter
                                               (fun c' => is_nul (c_flag c')) pre))).
  { apply counter_after_count; [lia |].
    unfold cs in Hlen. rewrite length_app in Hlen. simpl in Hlen. lia. }
  repeat split.
  - rewrite Ho. unfold cs. rewrite entries_app. simpl.
    rewrite <- (entries_length pre 256). apply list_lookup_middle. reflexivity.
  - simpl. unfold code_of. now rewrite Hcount.
  - intros Hl. simpl.
    destruct (Z.eqb_spec (slen (c_long_flag c)) 0) as [E | _]; [| reflexivity].
    now apply slen_zero_iff in E.
  - apply (registered_setter pre c post mem Hn Hall Hlen).
Qed.

Lemma registered_entry_and_setter_witness :
  length (options (register_all ([switch_v; long_only_input; string_o]
                                 ++ long_only_mode :: []) Options_new ∅).1)
  = length ([switch_v; long_only_input; string_o] ++ long_only_mode :: [])
  /\ exists e,
       options (register_all ([switch_v; long_only_input; string_o]
                              ++ long_only_mode :: []) Options_new ∅).1
         !! 3%nat = Some e
       /\ val e = 257
       /\ has_arg e = required_argument
       /\ flag e = None
       /\ name e = Some "mode"
       /\ setters (register_all ([switch_v; long_only_input; string_o]
                                 ++ long_only_mode :: []) Options_new ∅).1
            !! 257 = Some (SetStream 4).
Proof.
  destruct (registered_entry_and_setter [switch_v; long_only_input; string_o] []
              long_only_mode ∅) as (Hlen & e & H1 & H2 & H3 & H4 & H5 & H6).
  - vm_compute. reflexivity.
  - vm_compute. reflexivity.
  - vm_compute. reflexivity.
  - split; [exact Hlen |]. exists e.
    assert (Hv : val e = 257) by exact H2.
    rewrite Hv in H6.
    repeat split; try assumption. apply H5. discriminate.
Defined.

(** ** A call that throws *)

Lemma add_entry_duplicate_flag opt fl long_flag default_val description group
    ws_col o :
  short_registered o fl ->
  add_entry opt fl long_flag default_val description group ws_col o
  = (Throw ("Duplicate flag '" +:+ str1 fl +:+ "'"), opt, o).
Proof.
  intros [Hf Hin]. unfold add_entry, add_entry_code. rewrite Hf. simpl.
  apply elem_of_dom in Hin as [s Hs]. now rewrite Hs.
Qed.

Lemma add_entry_duplicate_long_flag opt fl long_flag default_val description
    group ws_col o :
  long_registered o long_flag -> ~ short_registered o fl ->
  exists opt',
    add_entry opt fl long_flag default_val description group ws_col o
    = (Throw ("Duplicate long flag " +:+ str1 "034" +:+ long_flag +:+ str1 "034"),
       opt',
       if is_nul fl then with_optval o (s32 (optval o + 1))
       else with_optstr o (optstr o +:+ str1 fl)).
Proof.
  intros [Hl Hin] Hshort. unfold add_entry, add_entry_code, add_entry_name.
  assert (Hlen : (slen long_flag =? 0) = false).
  { apply Z.eqb_neq. now rewrite slen_zero_iff. }
  rewrite Hlen, andb_false_r.
  destruct (is_nul fl) eqn:Hf.
  - simpl. rewrite bool_decide_eq_true_2 by exact Hin. eauto.
  - destruct (setters o !! char_to_int fl) as [s |] eqn:Hs.
    + exfalso. apply Hshort. split; [assumption |]. apply elem_of_dom. eauto.
    + simpl. rewrite bool_decide_eq_true_2 by exact Hin. eauto.
Qed.

(** X11: the object after a call that throws.  A call whose short flag is
    registered throws the error of the duplicate flag before it changes
    anything.  A call whose long flag is registered, its short flag being
    new, throws the error of the duplicate long flag after its code is
    taken: the short character stays appended to [optstr], or the counter
    stays incremented when the call has no short flag; the other members
    and the variables are as they were. *)
Theorem failed_registration_state (c : call) (o : Options)
    (mem : gmap nat value) :
  (short_registered o (c_flag c) ->
   register c o mem
   = (Throw ("Duplicate flag '" +:+ str1 (c_flag c) +:+ "'"), o, mem))
  /\ (long_registered o (c_long_flag c) -> ~ short_registered o (c_flag c) ->
      register c o mem
      = (Throw ("Duplicate long flag " +:+ str1 "034" +:+ c_long_flag c
                +:+ str1 "034"),
         (if is_nul (c_flag c) then with_optval o (s32 (optval o + 1))
          else with_optstr o (optstr o +:+ str1 (c_flag c))),
         mem)).
Proof.
  split.
  - intros Hs. unfold register, Add, AddSwitch.
    destruct (c_kind c); now rewrite add_entry_duplicate_flag.
  - intros Hl Hs. unfold register, Add, AddSwitch.
    destruct (c_kind c) as [d | b].
    + destruct (add_entry_duplicate_long_flag (c_op c) (c_flag c) (c_long_flag c)
                  d (c_description c) (c_group c) (c_ws_col c) o Hl Hs)
        as [opt' ->]. reflexivity.
    + destruct (add_entry_duplicate_long_flag (c_op c) (c_flag c) (c_long_flag c)
                  (VBool (read_bool mem (c_var c))) (c_description c) (c_group c)
                  (c_ws_col c) o Hl Hs) as [opt' ->]. reflexivity.
Qed.

Lemma failed_registration_state_witness :
  register string_x_output with_switch_and_string.1 with_switch_and_string.2
  = (Throw ("Duplicate long flag " +:+ str1 "034" +:+ "output" +:+ str1 "034"),
     with_optstr with_switch_and_string.1 "vo:x", with_switch_and_string.2).
Proof.
  apply (proj2 (failed_registration_state string_x_output
                  with_switch_and_string.1 with_switch_and_string.2)).
  - split; [discriminate | vm_compute; reflexivity].
  - intros [_ H]. vm_compute in H. discriminate H.
Defined.

(** ** Which calls add to the usage text *)

Lemma add_entry_usage opt fl long_flag default_val description group ws_col o
    out opt' o' :
  add_entry opt fl long_flag default_val description group ws_col o
  = (out, opt', o') ->
  Header o' = Header o
  /\ (description = "" \/ is_nul fl && (slen long_flag =? 0) = true
      \/ out <> Returned -> usage o' = usage o)
  /\ (description <> "" -> is_nul fl && (slen long_flag =? 0) = false ->
      out = Returned ->
      exists block,
        usage_block (IndentFlag o) (IndentDescription o) fl long_flag default_val
          description ws_col = Some block
        /\ usage o' = usage_push (usage o) group block).
Proof.
  unfold add_entry, add_entry_code, add_entry_name. intros H.
  assert (Hd : description = "" <-> (slen description =? 0) = true).
  { rewrite Z.eqb_eq. symmetry. apply slen_zero_iff. }
  repeat case_match; simplify_eq; simpl; (split; [reflexivity |]); split.
  all: try (intros _; reflexivity).
  all: try (intros; discriminate).
  all: try (intros ? ? ?; eexists; split; [eassumption | reflexivity]).
  all: try (intros Hne ? ?; exfalso; apply Hne; now apply Hd).
  all: intros [Hne | [Hne | Hne]]; try congruence;
    try (apply Hd in Hne; congruence).
Qed.

Lemma register_usage_block c o mem out o' mem' :
  register c o mem = (out, o', mem') ->
  Header o' = Header o
  /\ (c_description c = "" \/ names_flag c = false \/ out <> Returned ->
      usage o' = usage o)
  /\ (c_description c <> "" -> names_flag c = true -> out = Returned ->
      exists block,
        usage_block (IndentFlag o) (IndentDescription o) (c_flag c)
          (c_long_flag c) (c_default c) (c_description c) (c_ws_col c)
        = Some block
        /\ usage o' = usage_push (usage o) (c_group c) block).
Proof.
  intros H. unfold register, Add, AddSwitch, c_default, names_flag in *.
  destruct (c_kind c) as [d | b];
    match type of H with
    | context [add_entry ?a1 ?a2 ?a3 ?a4 ?a5 ?a6 ?a7 ?a8] =>
        destruct (add_entry a1 a2 a3 a4 a5 a6 a7 a8) as [[out1 op1] o1] eqn:E
    end;
    apply add_entry_usage in E; destruct E as (E1 & E2 & E3);
    assert (Hout : out = out1 /\ Header o' = Header o1 /\ usage o' = usage o1)
      by (destruct out1; simplify_eq; repeat split);
    destruct Hout as (-> & Hh & Hu); rewrite Hh, Hu; (split; [exact E1 |]);
    split.
  - intros [Hd | [Hn | Ho]]; apply E2; auto.
    right. left. now apply negb_false_iff.
  - intros Hd Hn Ho. apply E3; auto. now apply negb_true_iff.
  - intros [Hd | [Hn | Ho]]; apply E2; auto.
    right. left. now apply negb_false_iff.
  - intros Hd Hn Ho. apply negb_true_iff in Hn.
    exact (E3 Hd Hn Ho).
Qed.

(** X12: which calls add to the usage text.  A call with an empty
    description, a call that names no flag, and a call that does not
    return leave the usage table, and so the text of [Usage], as they
    were; a call that returns, names a flag and has a description pushes
    exactly one block to its group, the one that [usage_block] computes
    with the layout settings of the moment.  Hence registering flags
    without descriptions never changes the text of [Usage]. *)
Theorem usage_after_registration :
  (forall c o mem out o' mem',
     register c o mem = (out, o', mem') ->
     (c_description c = "" \/ names_flag c = false \/ out <> Returned ->
      usage o' = usage o /\ Usage o' = Usage o)
     /\ (c_description c <> "" -> names_flag c = true -> out = Returned ->
         exists block,
           usage_block (IndentFlag o) (IndentDescription o) (c_flag c)
             (c_long_flag c) (c_default c) (c_description c) (c_ws_col c)
           = Some block
           /\ usage o' = usage_push (usage o) (c_group c) block))
  /\ (forall cs o mem,
        Forall (fun c => c_description c = "") cs ->
        Usage (register_all cs o mem).1 = Usage o).
Proof.
  split.
  - intros c o mem out o' mem' H.
    destruct (register_usage_block _ _ _ _ _ _ H) as (Hh & H1 & H2).
    split; [| exact H2].
    intros Hc. specialize (H1 Hc). split; [exact H1 |].
    unfold Usage. now rewrite Hh, H1.
  - intros cs. induction cs as [| c cs IH]; intros o mem Hcs; [reflexivity |].
    apply Forall_cons in Hcs as [Hc Hcs]. simpl.
    destruct (register c o mem) as [[out o1] mem1] eqn:E.
    destruct (register_usage_block _ _ _ _ _ _ E) as (Hh & H1 & _).
    assert (HU : Usage o1 = Usage o).
    { unfold Usage. rewrite Hh, H1; auto. }
    destruct out; simpl; rewrite <- HU; try reflexivity; now apply IH.
Qed.

(** ** What [Parse] leaves alone *)

Section Frame.

Variable ex : value -> string -> value.

Lemma Parse_loop_frame st rs var : forall mem,
  (forall ch s, st !! ch = Some s -> setter_var s <> var) ->
  (Parse_loop ex st rs mem).2 !! var = mem !! var.
Proof.
  induction rs as [| [ch optarg] rs IH]; intros mem Hst; simpl; [reflexivity |].
  destruct (ch =? -1); [reflexivity |].
  destruct (st !! ch) as [s |] eqn:E; [| reflexivity].
  rewrite IH by exact Hst. apply call_setter_other.
  intros Heq. now apply (Hst ch s E).
Qed.

(** X9: what [Parse] leaves alone.  Of the object it changes [options]
    only, by the terminator it appends, so that [Usage] gives the same
    text before and after; and whatever the arguments, and whether it
    returns [true] or [false], a variable that no setter is bound to
    keeps its value. *)
Theorem Parse_leaves_unbound_variables (argv : list string) (o : Options)
    (mem : gmap nat value) :
  (Parse ex argv o mem).1.2 = with_options o (options o ++ [option_end])
  /\ Usage (Parse ex argv o mem).1.2 = Usage o
  /\ forall var : nat,
       (forall ch s, setters o !! ch = Some s -> setter_var s <> var) ->
       (Parse ex argv o mem).2 !! var = mem !! var.
Proof.
  unfold Parse.
  destruct (Parse_loop ex (setters (with_options o (options o ++ [option_end])))
              (Getopt.getopt_long argv
                 (optstr (with_options o (options o ++ [option_end])))
                 (options (with_options o (options o ++ [option_end])))) mem)
    as [r mem'] eqn:E.
  simpl. repeat split. intros var Hvar.
  change mem' with (r, mem').2. rewrite <- E.
  now apply Parse_loop_frame.
Qed.

End Frame.

Lemma Parse_leaves_unbound_variables_witness :
  (Parse keep_value ["prog"; "-v"; "-o"; "x"; "--bad"]
     with_switch_and_string.1
     (<[7%nat := VInt 3]> with_switch_and_string.2)).2 !! 7%nat
  = (<[7%nat := VInt 3]> with_switch_and_string.2) !! 7%nat.
Proof.
  apply (Parse_leaves_unbound_variables keep_value
           ["prog"; "-v"; "-o"; "x"; "--bad"] with_switch_and_string.1
           (<[7%nat := VInt 3]> with_switch_and_string.2)).
  intros ch s H. apply elem_of_map_to_list in H.
  vm_compute in H.
  repeat (apply elem_of_cons in H as [H | H]; [inversion H; discriminate |]).
  now apply elem_of_nil in H.
Defined.

(** ** Parsing one argument at a time *)

Lemma getopt_long_cons prog args optstring longopts :
  Getopt.getopt_long (prog :: args) optstring longopts
  = Getopt.scan (Getopt.ordering_of (chars optstring)).1
      (Getopt.ordering_of (chars optstring)).2 longopts args.
Proof.
  unfold Getopt.getopt_long.
  now destruct (Getopt.ordering_of (chars optstring)).
Qed.

(** One report of [getopt_long] that has a setter, and then the rest. *)
Lemma Parse_step (ex : value -> string -> value) prog args rest o mem ch
    optarg s :
  Getopt.getopt_long (prog :: args) (optstr o) (options o ++ [option_end])
  = (ch, optarg)
    :: Getopt.getopt_long (prog :: rest) (optstr o) (options o ++ [option_end]) ->
  ch <> -1 -> setters o !! ch = Some s ->
  Parse ex (prog :: args) o mem
  = Parse ex (prog :: rest) o (call_setter ex s (default "" optarg) mem).
Proof.
  intros Hres Hch Hs. unfold Parse. simpl options. simpl optstr. simpl setters.
  rewrite Hres. simpl. apply Z.eqb_neq in Hch. now rewrite Hch, Hs.
Qed.

(** *** Arguments that are not options *)

Lemma scan_skips ord os longopts (a : string) rest :
  Getopt.is_option (chars a) = false -> ord = Getopt.PERMUTE ->
  Getopt.scan ord os longopts (a :: rest) = Getopt.scan ord os longopts rest.
Proof.
  intros Ha ->. unfold Getopt.scan; fold Getopt.scan. rewrite Ha.
  destruct (String.eqb_spec a "--") as [-> | _]; [discriminate Ha | reflexivity].
Qed.

Lemma ordering_of_permute (l : list ascii) :
  head l <> Some "-"%char -> head l <> Some "+"%char ->
  Getopt.ordering_of l = (Getopt.PERMUTE, l).
Proof.
  destruct l as [| g l]; simpl; [reflexivity |]. intros Hm Hp.
  destruct g as [[] [] [] [] [] [] [] []]; try reflexivity; congruence.
Qed.

(** X8: arguments that are not options.  With the program name alone
    [Parse] returns [true] and calls no setter; an element [--] ends the
    options: what follows it is not looked at; and unless the option
    string begins with [+] or [-], an element that does not begin with a
    dash, or is a lone dash, is passed over. *)
Theorem Parse_positional_arguments (ex : value -> string -> value)
    (o : Options) (mem : gmap nat value) (prog : string) (rest : list string) :
  Parse ex [prog] o mem = (true, with_options o (options o ++ [option_end]), mem)
  /\ Parse ex (prog :: "--" :: rest) o mem
     = (true, with_options o (options o ++ [option_end]), mem)
  /\ forall a : string,
       Getopt.is_option (chars a) = false ->
       head (chars (optstr o)) <> Some "-"%char ->
       head (chars (optstr o)) <> Some "+"%char ->
       Parse ex (prog :: a :: rest) o mem = Parse ex (prog :: rest) o mem.
Proof.
  split; [| split].
  - unfold Parse. rewrite getopt_long_cons. reflexivity.
  - unfold Parse. rewrite getopt_long_cons. reflexivity.
  - intros a Ha Hm Hp. unfold Parse. rewrite !getopt_long_cons.
    simpl optstr. rewrite (ordering_of_permute _ Hm Hp). simpl fst. simpl snd.
    now rewrite scan_skips.
Qed.

Lemma Parse_positional_arguments_witness :
  Parse keep_value ["prog"; "input.png"; "-v"] with_switch_and_string.1
    with_switch_and_string.2
  = Parse keep_value ["prog"; "-v"] with_switch_and_string.1
      with_switch_and_string.2.
Proof.
  apply (proj2 (proj2 (Parse_positional_arguments keep_value
           with_switch_and_string.1 with_switch_and_string.2 "prog" ["-v"]))).
  - reflexivity.
  - vm_compute. discriminate.
  - vm_compute. discriminate.
Defined.

(** *** The option string of the registered flags *)

Lemma char_to_int_inj (a b : ascii) : char_to_int a = char_to_int b -> a = b.
Proof.
  unfold char_to_int. intros H.
  pose proof (N_ascii_bounded a). pose proof (N_ascii_bounded b).
  rewrite <- (ascii_N_embedding a), <- (ascii_N_embedding b). f_equal.
  destruct (Z.ltb_spec (Z.of_N (N_of_ascii a)) 128),
    (Z.ltb_spec (Z.of_N (N_of_ascii b)) 128); lia.
Qed.

Lemma plain_flag_not (f : ascii) :
  plain_flag f = true ->
  f <> ":"%char /\ f <> ";"%char /\ f <> "+"%char /\ f <> "-"%char
  /\ char_to_int f <> -1 /\ is_nul f = false.
Proof.
  unfold plain_flag. intros H. apply negb_true_iff in H.
  repeat (apply orb_false_iff in H as [H ?]).
  repeat split; try assumption; try (intros ->; discriminate).
  intros Hc.
  assert (f = "255"%char) as -> by (apply char_to_int_inj; rewrite Hc; reflexivity).
  discriminate.
Qed.

Lemma well_formed_names (cs : list call) :
  forallb well_formed cs = true -> forallb names_flag cs = true.
Proof.
  induction cs as [| c cs IH]; simpl; [reflexivity |].
  unfold well_formed at 1. intros H.
  repeat (apply andb_true_iff in H as [H ?]). rewrite IH by assumption.
  now rewrite H.
Qed.

Lemma well_formed_flag (c : call) :
  well_formed c = true ->
  (is_nul (c_flag c) = false -> plain_flag (c_flag c) = true)
  /\ (forall d, c_kind c = CallAdd d -> is_nul (c_flag c) = false).
Proof.
  unfold well_formed. intros H.
  repeat (apply andb_true_iff in H as [H ?]). split.
  - intros Hf. now rewrite Hf in *.
  - intros d Hk. rewrite Hk in *. now apply negb_true_iff.
Qed.

Lemma strchr_app_absent (l1 l2 : list ascii) (f : ascii) :
  f ∉ l1 -> Getopt.strchr (l1 ++ l2) f = Getopt.strchr l2 f.
Proof.
  induction l1 as [| d l1 IH]; simpl; intros H; [reflexivity |].
  apply not_elem_of_cons in H as [Hne H].
  destruct (Ascii.eqb_spec d f) as [-> | _]; [congruence | now apply IH].
Qed.

Lemma strchr_here (l : list ascii) (f : ascii) :
  Getopt.strchr (f :: l) f = Some (f :: l).
Proof. simpl. now rewrite Ascii.eqb_refl. Qed.

(** A leading [+] or [-] of the option string is no option character. *)
Lemma strchr_ordering (l : list ascii) (f : ascii) :
  f <> "+"%char -> f <> "-"%char ->
  Getopt.strchr (Getopt.ordering_of l).2 f = Getopt.strchr l f.
Proof.
  intros Hp Hm. destruct l as [| g l]; [reflexivity |].
  destruct (Ascii.eqb_spec g "-") as [-> | Hg1].
  { transitivity (Getopt.strchr l f); [reflexivity |].
    symmetry. apply (strchr_app_absent ["-"%char] l f).
    intros H. apply list_elem_of_singleton in H. congruence. }
  destruct (Ascii.eqb_spec g "+") as [-> | Hg2].
  { transitivity (Getopt.strchr l f); [reflexivity |].
    symmetry. apply (strchr_app_absent ["+"%char] l f).
    intros H. apply list_elem_of_singleton in H. congruence. }
  rewrite ordering_of_permute; [reflexivity | |]; simpl; congruence.
Qed.

Lemma chars_piece (c : call) :
  chars (optstr_piece c)
  = (if is_nul (c_flag c) then [] else [c_flag c])
    ++ match c_kind c with
       | CallAdd _ => [":"%char]
       | CallAddSwitch _ => []
       end.
Proof.
  unfold optstr_piece. rewrite chars_append.
  now destruct (is_nul (c_flag c)), (c_kind c).
Qed.

(** The pieces of well-formed calls begin with a plain flag, if they are
    not empty. *)
Lemma pieces_head (cs : list call) :
  forallb well_formed cs = true ->
  match head (chars (sconcat (map optstr_piece cs))) with
  | Some g => plain_flag g = true
  | None => True
  end.
Proof.
  induction cs as [| c cs IH]; simpl; [trivial |].
  intros H. apply andb_true_iff in H as [Hc Hcs]. specialize (IH Hcs).
  rewrite chars_append, chars_piece.
  destruct (well_formed_flag c Hc) as [Hp Hk].
  destruct (is_nul (c_flag c)) eqn:Hf; simpl in *.
  - destruct (c_kind c) as [d | b]; [| exact IH].
    specialize (Hk d eq_refl). discriminate.
  - now apply Hp.
Qed.

Lemma short_kind_required (f : ascii) (l : list ascii) :
  match head l with Some g => plain_flag g = true | None => True end ->
  Getopt.short_kind (f :: ":"%char :: l) = Getopt.RequiredArg.
Proof.
  destruct l as [| g l]; simpl; [reflexivity |]. intros Hg.
  apply plain_flag_not in Hg as (Hg & _).
  destruct g as [[] [] [] [] [] [] [] []]; try reflexivity. now elim Hg.
Qed.

Lemma short_kind_none (f : ascii) (l : list ascii) :
  match head l with Some g => plain_flag g = true | None => True end ->
  Getopt.short_kind (f :: l) = Getopt.NoArg.
Proof.
  destruct l as [| g l]; simpl; [reflexivity |]. intros Hg.
  apply plain_flag_not in Hg as (Hg & _).
  destruct g as [[] [] [] [] [] [] [] []]; try reflexivity. now elim Hg.
Qed.

(** The characters of the pieces are the short flags and colons. *)
Lemma pieces_chars (cs : list call) (f : ascii) :
  f ∈ chars (sconcat (map optstr_piece cs)) ->
  f = ":"%char \/ exists c, c ∈ cs /\ is_nul (c_flag c) = false /\ c_flag c = f.
Proof.
  induction cs as [| c cs IH]; simpl; intros H.
  - now apply elem_of_nil in H.
  - rewrite chars_append, chars_piece in H.
    apply elem_of_app in H as [H | H].
    + apply elem_of_app in H as [H | H].
      * destruct (is_nul (c_flag c)) eqn:Hf; [now apply elem_of_nil in H |].
        apply list_elem_of_singleton in H. right. exists c.
        split; [apply list_elem_of_here | auto].
      * destruct (c_kind c); [| now apply elem_of_nil in H].
        apply list_elem_of_singleton in H. now left.
    + destruct (IH H) as [-> | (c' & Hin & Hf & Hc)]; [now left |].
      right. exists c'. split; [now apply list_elem_of_further | auto].
Qed.

Lemma entries_elem (cs : list call) (c : call) : forall v,
  c ∈ cs -> exists v', entry_of c v' ∈ entries cs v.
Proof.
  induction cs as [| c0 cs IH]; intros v Hin.
  - now apply elem_of_nil in Hin.
  - apply elem_of_cons in Hin as [-> | Hin]; simpl.
    + exists v. apply list_elem_of_here.
    + destruct (IH (next_optval c0 v) Hin) as [v' Hv'].
      exists v'. now apply list_elem_of_further.
Qed.

(** In a sequence of calls that all return, no short flag is used twice. *)
Lemma flags_distinct pre c post mem :
  forallb names_flag (pre ++ c :: post) = true ->
  all_returned (pre ++ c :: post) Options_new mem = true ->
  Z.of_nat (length (pre ++ c :: post)) < 2 ^ 31 - 256 ->
  is_nul (c_flag c) = false ->
  Forall (fun c' => c_flag c' <> c_flag c) pre.
Proof.
  intros Hn Hall Hlen Hf.
  pose proof (entries_codes_NoDup _ _ Hn Hall Hlen) as Hnd.
  rewrite entries_app, map_app in Hnd. simpl in Hnd.
  apply NoDup_app in Hnd as (_ & Hdis & _).
  apply Forall_forall. intros c' Hin Heq.
  destruct (entries_elem pre c' 256 Hin) as [v' Hv'].
  apply (Hdis (val (entry_of c' v'))).
  - apply list_elem_of_fmap. eauto.
  - unfold code_of. simpl. unfold code_of. rewrite Heq, Hf.
    apply list_elem_of_here.
Qed.

(** Where [getopt_long] finds the short flag of a call in the option
    string, and the setter that [Parse] finds under its code. *)
Lemma registered_short_flag pre c post mem :
  let cs := pre ++ c :: post in
  let o := (register_all cs Options_new mem).1 in
  forallb names_flag cs = true ->
  all_returned cs Options_new mem = true ->
  Z.of_nat (length cs) < 2 ^ 31 - 256 ->
  plain_flag (c_flag c) = true ->
  Getopt.strchr (Getopt.ordering_of (chars (optstr o))).2 (c_flag c)
  = Some (c_flag c
          :: match c_kind c with
             | CallAdd _ => [":"%char]
             | CallAddSwitch _ => []
             end ++ chars (sconcat (map optstr_piece post)))
  /\ setters o !! char_to_int (c_flag c) = Some (setter_of c).
Proof.
  intros cs o Hn Hall Hlen Hplain.
  destruct (plain_flag_not _ Hplain) as (H1 & _ & H3 & H4 & _ & Hf).
  split.
  - destruct (register_all_returned cs Options_new mem Hn Hall) as (_ & _ & Hstr).
    change (optstr o = sconcat (map optstr_piece cs)) in Hstr.
    rewrite Hstr, strchr_ordering by assumption.
    unfold cs. rewrite map_app, sconcat_app, chars_append. simpl.
    rewrite strchr_app_absent.
    + rewrite chars_append, chars_piece, Hf. simpl. now rewrite Ascii.eqb_refl.
    + pose proof (flags_distinct pre c post mem Hn Hall Hlen Hf) as Hdist.
      intros Hin. apply pieces_chars in Hin as [Hcolon | (c' & Hin & _ & Heq)].
      * congruence.
      * rewrite Forall_forall in Hdist. now apply (Hdist c' Hin).
  - pose proof (registered_setter pre c post mem Hn Hall Hlen) as Hset.
    unfold code_of in Hset. now rewrite Hf in Hset.
Qed.

Lemma names_then_well_formed pre rest :
  forallb names_flag pre = true -> forallb well_formed rest = true ->
  forallb names_flag (pre ++ rest) = true.
Proof.
  intros H1 H2. rewrite forallb_app, H1. now apply well_formed_names.
Qed.

(** *** Short flags *)

Lemma dash_flag_not_terminator (f : ascii) (more : string) :
  f <> "-"%char -> String.eqb (String "-" (String f more)) "--" = false.
Proof. intros Hf. apply String.eqb_neq. intros H. inversion H. now elim Hf. Qed.

(** [-f text]: a short flag with a required argument takes the next
    element. *)
Lemma scan_short_separate ord os longopts (f : ascii) text rest temp :
  f <> "-"%char -> f <> ":"%char -> f <> ";"%char ->
  Getopt.strchr os f = Some temp ->
  Getopt.short_kind temp = Getopt.RequiredArg ->
  Getopt.scan ord os longopts (String "-" (String f "") :: text :: rest)
  = (char_to_int f, Some text) :: Getopt.scan ord os longopts rest.
Proof.
  intros H1 H2 H3 Hs Hk.
  unfold Getopt.scan; fold Getopt.scan.
  rewrite dash_flag_not_terminator by exact H1.
  change (chars (String "-" (String f ""))) with ["-"%char; f].
  change (Getopt.is_option ["-"%char; f]) with true. cbv iota.
  rewrite element_short by exact H1.
  unfold Getopt.short_options. rewrite Hs, Hk.
  apply Ascii.eqb_neq in H2, H3. rewrite H2, H3. reflexivity.
Qed.

(** [-ftext]: the rest of the element is the argument, required or
    optional. *)
Lemma scan_short_attached ord os longopts (f : ascii) (a : ascii) text rest temp :
  f <> "-"%char -> f <> ":"%char -> f <> ";"%char ->
  Getopt.strchr os f = Some temp ->
  Getopt.short_kind temp <> Getopt.NoArg ->
  Getopt.scan ord os longopts (String "-" (String f (String a text)) :: rest)
  = (char_to_int f, Some (String a text)) :: Getopt.scan ord os longopts rest.
Proof.
  intros H1 H2 H3 Hs Hk.
  unfold Getopt.scan; fold Getopt.scan.
  rewrite dash_flag_not_terminator by exact H1.
  change (chars (String "-" (String f (String a text))))
    with ("-"%char :: f :: a :: chars text).
  change (Getopt.is_option ("-"%char :: f :: a :: chars text)) with true.
  cbv iota. rewrite element_short by exact H1.
  unfold Getopt.short_options; fold Getopt.short_options. rewrite Hs.
  apply Ascii.eqb_neq in H2, H3. rewrite H2, H3. simpl orb. cbv iota.
  destruct (Getopt.short_kind temp); [congruence | |]; simpl;
    rewrite string_of_list_ascii_of_string; destruct rest; reflexivity.
Qed.


(** [-f]: a short flag without an argument. *)
Lemma scan_short_switch ord os longopts (f : ascii) rest temp :
  f <> "-"%char -> f <> ":"%char -> f <> ";"%char ->
  Getopt.strchr os f = Some temp ->
  Getopt.short_kind temp = Getopt.NoArg ->
  Getopt.scan ord os longopts (String "-" (String f "") :: rest)
  = (char_to_int f, None) :: Getopt.scan ord os longopts rest.
Proof.
  intros H1 H2 H3 Hs Hk.
  unfold Getopt.scan; fold Getopt.scan.
  rewrite dash_flag_not_terminator by exact H1.
  change (chars (String "-" (String f ""))) with ["-"%char; f].
  change (Getopt.is_option ["-"%char; f]) with true. cbv iota.
  rewrite element_short by exact H1.
  unfold Getopt.short_options. rewrite Hs, Hk.
  apply Ascii.eqb_neq in H2, H3. rewrite H2, H3. simpl.
  destruct rest; reflexivity.
Qed.

Lemma short_options_cons os (f : ascii) more next temp :
  f <> ":"%char -> f <> ";"%char ->
  Getopt.strchr os f = Some temp ->
  Getopt.short_kind temp = Getopt.NoArg ->
  Getopt.short_options os (f :: more) next
  = ((char_to_int f, None) :: (Getopt.short_options os more next).1,
     (Getopt.short_options os more next).2).
Proof.
  intros H2 H3 Hs Hk. simpl. rewrite Hs, Hk.
  apply Ascii.eqb_neq in H2, H3. rewrite H2, H3. simpl.
  now destruct (Getopt.short_options os more next).
Qed.

(** [-fmore]: a short flag without an argument, then the other
    characters of the element. *)
Lemma scan_short_cluster ord os longopts (f a : ascii) more rest temp :
  f <> "-"%char -> f <> ":"%char -> f <> ";"%char -> a <> "-"%char ->
  Getopt.strchr os f = Some temp ->
  Getopt.short_kind temp = Getopt.NoArg ->
  Getopt.scan ord os longopts (String "-" (String f (String a more)) :: rest)
  = (char_to_int f, None)
    :: Getopt.scan ord os longopts (String "-" (String a more) :: rest).
Proof.
  intros H1 H2 H3 Ha Hs Hk.
  unfold Getopt.scan; fold Getopt.scan.
  rewrite !dash_flag_not_terminator by assumption.
  change (chars (String "-" (String f (String a more))))
    with ("-"%char :: f :: a :: chars more).
  change (chars (String "-" (String a more))) with ("-"%char :: a :: chars more).
  change (Getopt.is_option ("-"%char :: f :: a :: chars more)) with true.
  change (Getopt.is_option ("-"%char :: a :: chars more)) with true.
  cbv iota. rewrite !element_short by assumption.
  rewrite (short_options_cons os f (a :: chars more) (head rest) temp)
    by assumption.
  destruct (Getopt.short_options os (a :: chars more) (head rest)) as [rs used].
  reflexivity.
Qed.

(** What [getopt_long] reports for [-f text] and [-ftext], [f] being the
    short flag of a call of [Add], and the setter under the reported
    code. *)
Lemma short_value_reports (pre post : list call) (c : call) (d : value)
    (mem0 : gmap nat value) (prog text : string) (rest : list string) :
  let cs := pre ++ c :: post in
  let o := (register_all cs Options_new mem0).1 in
  let results args :=
    Getopt.getopt_long (prog :: args) (optstr o) (options o ++ [option_end]) in
  forallb names_flag pre = true ->
  forallb well_formed (c :: post) = true ->
  all_returned cs Options_new mem0 = true ->
  Z.of_nat (length cs) < 2 ^ 31 - 256 ->
  c_kind c = CallAdd d ->
  char_to_int (c_flag c) <> -1
  /\ setters o !! char_to_int (c_flag c) = Some (bind_set d (c_var c))
  /\ results (("-" +:+ str1 (c_flag c)) :: text :: rest)
     = (char_to_int (c_flag c), Some text) :: results rest
  /\ (text <> "" ->
      results (("-" +:+ str1 (c_flag c) +:+ text) :: rest)
      = (char_to_int (c_flag c), Some text) :: results rest).
Proof.
  intros cs o results Hpre Hwf Hall Hlen Hk.
  pose proof (names_then_well_formed _ _ Hpre Hwf) as Hn. fold cs in Hn.
  simpl in Hwf. apply andb_true_iff in Hwf as [Hc Hpost].
  destruct (well_formed_flag c Hc) as [Hp Hadd].
  pose proof (Hp (Hadd d Hk)) as Hplain.
  destruct (registered_short_flag pre c post mem0 Hn Hall Hlen Hplain)
    as [Hst Hset].
  fold cs o in Hst, Hset. unfold setter_of in Hset. rewrite Hk in Hst, Hset.
  destruct (plain_flag_not _ Hplain) as (H1 & H2 & _ & H4 & Hcode & _).
  assert (Hkind : Getopt.short_kind
                    (c_flag c :: [":"%char] ++ chars (sconcat (map optstr_piece post)))
                  = Getopt.RequiredArg)
    by (apply short_kind_required, pieces_head, Hpost).
  split; [exact Hcode |]. split; [exact Hset |]. unfold results. split.
  - rewrite !getopt_long_cons.
    now apply (scan_short_separate _ _ _ _ _ _ _ H4 H1 H2 Hst).
  - intros Htext. destruct text as [| a text]; [congruence |].
    rewrite !getopt_long_cons.
    apply (scan_short_attached _ _ _ _ _ _ _ _ H4 H1 H2 Hst).
    rewrite Hkind. discriminate.
Qed.

(** X4: a value flag given by its short character.  After calls on a
    new object that all return, every one naming a flag, for a call of
    [Add] with a plain short flag [f] that is followed by well-formed
    calls only: [-f text] and [-ftext] call the setter of the flag with
    [text], and parsing goes on with the rest of the arguments. *)
Theorem Parse_short_value_flag (ex : value -> string -> value)
    (pre post : list call) (c : call) (d : value) (mem0 mem : gmap nat value)
    (prog text : string) (rest : list string) :
  let cs := pre ++ c :: post in
  let o := (register_all cs Options_new mem0).1 in
  forallb names_flag pre = true ->
  forallb well_formed (c :: post) = true ->
  all_returned cs Options_new mem0 = true ->
  Z.of_nat (length cs) < 2 ^ 31 - 256 ->
  c_kind c = CallAdd d ->
  Parse ex (prog :: ("-" +:+ str1 (c_flag c)) :: text :: rest) o mem
  = Parse ex (prog :: rest) o (call_setter ex (bind_set d (c_var c)) text mem)
  /\ (text <> "" ->
      Parse ex (prog :: ("-" +:+ str1 (c_flag c) +:+ text) :: rest) o mem
      = Parse ex (prog :: rest) o
          (call_setter ex (bind_set d (c_var c)) text mem)).
Proof.
  intros cs o Hpre Hwf Hall Hlen Hk.
  destruct (short_value_reports pre post c d mem0 prog text rest Hpre Hwf Hall
              Hlen Hk) as (Hcode & Hset & Hsep & Hjoin).
  split.
  - now apply (Parse_step ex prog _ rest o mem (char_to_int (c_flag c))
                 (Some text)).
  - intros Htext.
    apply (Parse_step ex prog _ rest o mem (char_to_int (c_flag c)) (Some text));
      auto.
Qed.

Lemma Parse_short_value_flag_witness :
  Parse keep_value ("prog" :: ("-" +:+ str1 (c_flag string_o)) :: "a.txt" :: ["-v"])
    (register_all ([switch_v] ++ string_o :: []) Options_new ∅).1
    with_switch_and_string.2
  = Parse keep_value ("prog" :: ["-v"])
      (register_all ([switch_v] ++ string_o :: []) Options_new ∅).1
      (call_setter keep_value (bind_set (VString "out.txt") (c_var string_o))
         "a.txt" with_switch_and_string.2)
  /\ Parse keep_value
       ("prog" :: ("-" +:+ str1 (c_flag string_o) +:+ "a.txt") :: ["-v"])
       (register_all ([switch_v] ++ string_o :: []) Options_new ∅).1
       with_switch_and_string.2
     = Parse keep_value ("prog" :: ["-v"])
         (register_all ([switch_v] ++ string_o :: []) Options_new ∅).1
         (call_setter keep_value (bind_set (VString "out.txt") (c_var string_o))
            "a.txt" with_switch_and_string.2).
Proof.
  destruct (Parse_short_value_flag keep_value [switch_v] [] string_o
              (VString "out.txt") ∅ with_switch_and_string.2 "prog" "a.txt"
              ["-v"]) as [H1 H2].
  - reflexivity.
  - vm_compute. reflexivity.
  - vm_compute. reflexivity.
  - vm_compute. reflexivity.
  - reflexivity.
  - split; [exact H1 | apply H2; discriminate].
Defined.

(** What [getopt_long] reports for [-f] and [-fmore], [f] being the
    short flag of a call of [AddSwitch]. *)
Lemma short_switch_reports (pre post : list call) (c : call) (b : bool)
    (mem0 : gmap nat value) (prog : string) (rest : list string) :
  let cs := pre ++ c :: post in
  let o := (register_all cs Options_new mem0).1 in
  let results args :=
    Getopt.getopt_long (prog :: args) (optstr o) (options o ++ [option_end]) in
  forallb names_flag pre = true ->
  forallb well_formed (c :: post) = true ->
  all_returned cs Options_new mem0 = true ->
  Z.of_nat (length cs) < 2 ^ 31 - 256 ->
  c_kind c = CallAddSwitch b ->
  is_nul (c_flag c) = false ->
  char_to_int (c_flag c) <> -1
  /\ setters o !! char_to_int (c_flag c) = Some (Negate (c_var c))
  /\ results (("-" +:+ str1 (c_flag c)) :: rest)
     = (char_to_int (c_flag c), None) :: results rest
  /\ (forall (a : ascii) (more : string), a <> "-"%char ->
      results (("-" +:+ str1 (c_flag c) +:+ String a more) :: rest)
      = (char_to_int (c_flag c), None)
        :: results (("-" +:+ String a more) :: rest)).
Proof.
  intros cs o results Hpre Hwf Hall Hlen Hk Hf.
  pose proof (names_then_well_formed _ _ Hpre Hwf) as Hn. fold cs in Hn.
  simpl in Hwf. apply andb_true_iff in Hwf as [Hc Hpost].
  destruct (well_formed_flag c Hc) as [Hp _].
  pose proof (Hp Hf) as Hplain.
  destruct (registered_short_flag pre c post mem0 Hn Hall Hlen Hplain)
    as [Hst Hset].
  fold cs o in Hst, Hset. unfold setter_of in Hset. rewrite Hk in Hst, Hset.
  destruct (plain_flag_not _ Hplain) as (H1 & H2 & _ & H4 & Hcode & _).
  assert (Hkind : Getopt.short_kind
                    (c_flag c :: [] ++ chars (sconcat (map optstr_piece post)))
                  = Getopt.NoArg)
    by (apply short_kind_none, pieces_head, Hpost).
  split; [exact Hcode |]. split; [exact Hset |]. unfold results. split.
  - rewrite !getopt_long_cons.
    now apply (scan_short_switch _ _ _ _ _ _ H4 H1 H2 Hst).
  - intros a more Ha. rewrite !getopt_long_cons.
    now apply (scan_short_cluster _ _ _ _ _ _ _ _ H4 H1 H2 Ha Hst).
Qed.

(** X6: a switch given by its short character.  After calls on a new
    object that all return, every one naming a flag, for a call of
    [AddSwitch] with a plain short flag [f] that is followed by
    well-formed calls only: [-f] calls the setter of the switch, which
    negates its variable, and parsing goes on with the rest; in [-fmore]
    the switch is taken and parsing goes on with [-more]. *)
Theorem Parse_short_switch (ex : value -> string -> value)
    (pre post : list call) (c : call) (b : bool) (mem0 mem : gmap nat value)
    (prog : string) (rest : list string) :
  let cs := pre ++ c :: post in
  let o := (register_all cs Options_new mem0).1 in
  forallb names_flag pre = true ->
  forallb well_formed (c :: post) = true ->
  all_returned cs Options_new mem0 = true ->
  Z.of_nat (length cs) < 2 ^ 31 - 256 ->
  c_kind c = CallAddSwitch b ->
  is_nul (c_flag c) = false ->
  Parse ex (prog :: ("-" +:+ str1 (c_flag c)) :: rest) o mem
  = Parse ex (prog :: rest) o (call_setter ex (Negate (c_var c)) "" mem)
  /\ (forall (a : ascii) (more : string), a <> "-"%char ->
      Parse ex (prog :: ("-" +:+ str1 (c_flag c) +:+ String a more) :: rest) o mem
      = Parse ex (prog :: ("-" +:+ String a more) :: rest) o
          (call_setter ex (Negate (c_var c)) "" mem)).
Proof.
  intros cs o Hpre Hwf Hall Hlen Hk Hf.
  destruct (short_switch_reports pre post c b mem0 prog rest Hpre Hwf Hall Hlen
              Hk Hf) as (Hcode & Hset & Halone & Hcluster).
  split.
  - now apply (Parse_step ex prog _ rest o mem (char_to_int (c_flag c)) None).
  - intros a more Ha.
    apply (Parse_step ex prog _ _ o mem (char_to_int (c_flag c)) None); auto.
Qed.

Lemma Parse_short_switch_witness :
  Parse keep_value ("prog" :: ("-" +:+ str1 (c_flag switch_v)) :: ["-o"; "x"])
    (register_all ([] ++ switch_v :: [string_o]) Options_new ∅).1
    with_switch_and_string.2
  = Parse keep_value ("prog" :: ["-o"; "x"])
      (register_all ([] ++ switch_v :: [string_o]) Options_new ∅).1
      (call_setter keep_value (Negate (c_var switch_v)) ""
         with_switch_and_string.2)
  /\ Parse keep_value
       ("prog" :: ("-" +:+ str1 (c_flag switch_v) +:+ String "o" "x")
        :: ["-o"; "x"])
       (register_all ([] ++ switch_v :: [string_o]) Options_new ∅).1
       with_switch_and_string.2
     = Parse keep_value ("prog" :: ("-" +:+ String "o" "x") :: ["-o"; "x"])
         (register_all ([] ++ switch_v :: [string_o]) Options_new ∅).1
         (call_setter keep_value (Negate (c_var switch_v)) ""
            with_switch_and_string.2).
Proof.
  destruct (Parse_short_switch keep_value [] [string_o] switch_v false ∅
              with_switch_and_string.2 "prog" ["-o"; "x"]) as [H1 H2].
  - reflexivity.
  - vm_compute. reflexivity.
  - vm_compute. reflexivity.
  - vm_compute. reflexivity.
  - reflexivity.
  - reflexivity.
  - split; [exact H1 | apply H2; discriminate].
Defined.



(** *** Long flags *)

Lemma registered_long_flags (pre : list call) : forall o mem c,
  all_returned pre o mem = true -> c ∈ pre -> c_long_flag c <> "" ->
  c_long_flag c ∈ long_flags (register_all pre o mem).1.
Proof.
  induction pre as [| c0 pre IH]; intros o mem c Hall Hin Hl.
  - now apply elem_of_nil in Hin.
  - simpl in *. destruct (register c0 o mem) as [[out o1] mem1] eqn:E.
    destruct out; try discriminate.
    apply elem_of_cons in Hin as [-> | Hin].
    + apply register_records in E as [_ E].
      destruct (register_all pre o1 mem1) as [o2 mem2] eqn:E2.
      apply register_all_frame in E2 as [_ E2]. simpl. apply E2, E, Hl.
    + now apply IH.
Qed.

(** In a sequence of calls that all return, no long flag is used twice. *)
Lemma long_flags_distinct pre c post o mem :
  names_flag c = true ->
  all_returned (pre ++ c :: post) o mem = true ->
  c_long_flag c <> "" ->
  Forall (fun c' => c_long_flag c' <> c_long_flag c) pre.
Proof.
  intros Hn Hall Hl. apply all_returned_app in Hall as [Hpre Hall].
  simpl in Hall.
  destruct (register c (register_all pre o mem).1 (register_all pre o mem).2)
    as [[out o1] mem1] eqn:E.
  destruct out; try discriminate.
  destruct (register_returned _ _ _ _ _ Hn E) as (_ & _ & _ & _ & Hnot).
  apply Forall_forall. intros c' Hin Heq. apply (Hnot Hl).
  rewrite <- Heq. apply registered_long_flags; [assumption | assumption |].
  now rewrite Heq.
Qed.

Lemma c_str_no_nul (s : string) : no_nul s = true -> c_str s = s.
Proof.
  unfold no_nul. induction s as [| ch s IH]; simpl; [reflexivity |].
  intros H. apply andb_true_iff in H as [Hch H].
  apply negb_true_iff in Hch. rewrite Hch. now rewrite IH.
Qed.

Lemma entry_of_name (c : call) (v : Z) :
  c_long_flag c <> "" -> name (entry_of c v) = Some (c_str (c_long_flag c)).
Proof.
  intros Hl. unfold entry_of. simpl.
  destruct (Z.eqb_spec (slen (c_long_flag c)) 0) as [E | _]; [| reflexivity].
  now apply slen_zero_iff in E.
Qed.

Lemma entries_named (pre : list call) (nm : string) : forall v,
  Forall (fun c' => c_long_flag c' <> "" /\ c_str (c_long_flag c') <> nm) pre ->
  Forall (fun p => exists n, name p = Some n /\ n <> nm) (entries pre v).
Proof.
  induction pre as [| c pre IH]; intros v H; simpl; [constructor |].
  apply Forall_cons in H as [[H1 H2] H]. constructor; [| now apply IH].
  exists (c_str (c_long_flag c)). split; [| assumption].
  unfold entry_of. simpl.
  destruct (Z.eqb_spec (slen (c_long_flag c)) 0) as [E | _]; [| reflexivity].
  now apply slen_zero_iff in E.
Qed.

(** Among calls that all return, the entries before the one of a call
    with a long flag have other names, when no long flag holds a NUL. *)
Lemma entries_before_named pre c post mem0 :
  names_flag c = true ->
  all_returned (pre ++ c :: post) Options_new mem0 = true ->
  Forall (fun c' => c_long_flag c' <> "" /\ no_nul (c_long_flag c') = true) pre ->
  c_long_flag c <> "" ->
  forall v,
    Forall (fun p => exists n, name p = Some n /\ n <> c_long_flag c)
      (entries pre v).
Proof.
  intros Hnc Hall Hpre Hl v.
  pose proof (long_flags_distinct pre c post Options_new mem0 Hnc Hall Hl) as Hdist.
  apply entries_named. apply Forall_forall. intros c' Hin.
  rewrite Forall_forall in Hpre, Hdist. destruct (Hpre c' Hin) as [H1 H2].
  split; [exact H1 |]. rewrite (c_str_no_nul _ H2). now apply Hdist.
Qed.

(** The entry whose name is [nm] is found when the entries before it
    have other names. *)
Lemma lookup_long_exact (l1 l2 : list struct_option) (e : struct_option)
    (nm : string) :
  Forall (fun p => exists n, name p = Some n /\ n <> nm) l1 ->
  name e = Some nm ->
  Getopt.lookup_long (Getopt.table (l1 ++ e :: l2)) nm = Getopt.Found e.
Proof.
  intros H He. unfold Getopt.lookup_long.
  assert (Hfind : find (fun x : string * struct_option => String.eqb (fst x) nm)
                    (Getopt.table (l1 ++ e :: l2)) = Some (nm, e)).
  { induction H as [| p l1 (n & Hn & Hne) _ IH]; simpl.
    - rewrite He. simpl. now rewrite String.eqb_refl.
    - rewrite Hn. simpl. apply String.eqb_neq in Hne. now rewrite Hne. }
  now rewrite Hfind.
Qed.

Lemma split_eq_name (nm : list ascii) :
  "="%char ∉ nm ->
  Getopt.split_eq nm = (nm, None)
  /\ forall text, Getopt.split_eq (nm ++ "="%char :: text) = (nm, Some text).
Proof.
  induction nm as [| x nm IH]; intros H.
  - split; [reflexivity | intros text; reflexivity].
  - apply not_elem_of_cons in H as [Hx H]. destruct (IH H) as [IH1 IH2].
    assert (Hx' : Ascii.eqb x "=" = false) by (apply Ascii.eqb_neq; congruence).
    split; [| intros text]; simpl; rewrite Hx'.
    + now rewrite IH1.
    + now rewrite IH2.
Qed.

Lemma long_element_not_terminator (s : string) :
  s <> "" -> String.eqb ("--" +:+ s) "--" = false.
Proof.
  intros Hs. apply String.eqb_neq. intros H. destruct s; [congruence |].
  discriminate H.
Qed.

Section LongOptions.

Variables (ord : Getopt.ordering) (os : list ascii).
Variables (l1 l2 : list struct_option) (e : struct_option) (nm : string).
Hypothesis before : Forall (fun p => exists n, name p = Some n /\ n <> nm) l1.
Hypothesis entry_name : name e = Some nm.
Hypothesis entry_flag : flag e = None.
Hypothesis no_equals : "="%char ∉ chars nm.

(** [--name=text] *)
Lemma scan_long_equals text rest :
  has_arg e <> 0 ->
  Getopt.scan ord os (l1 ++ e :: l2) (("--" +:+ nm +:+ "=" +:+ text) :: rest)
  = (val e, Some text) :: Getopt.scan ord os (l1 ++ e :: l2) rest.
Proof.
  intros Harg. unfold Getopt.scan; fold Getopt.scan.
  rewrite long_element_not_terminator
    by (intros H; apply (f_equal chars) in H; rewrite chars_append in H;
        destruct (chars nm); discriminate H).
  change (chars ("--" +:+ nm +:+ "=" +:+ text))
    with ("-"%char :: "-"%char :: chars (nm +:+ "=" +:+ text)).
  rewrite chars_append.
  change (chars ("=" +:+ text)) with ("="%char :: chars text).
  assert (Hopt : Getopt.is_option
                   ("-"%char :: "-"%char :: chars nm ++ "="%char :: chars text)
                 = true) by reflexivity.
  rewrite Hopt. cbv iota.
  unfold Getopt.element, Getopt.long_option.
  destruct (split_eq_name (chars nm) no_equals) as [_ Hsplit].
  rewrite Hsplit, string_of_list_ascii_of_string.
  rewrite (lookup_long_exact l1 l2 e nm before entry_name).
  apply Z.eqb_neq in Harg. rewrite Harg.
  unfold Getopt.long_return. rewrite entry_flag.
  rewrite string_of_list_ascii_of_string. simpl.
  destruct rest; reflexivity.
Qed.

(** [--name text] for an entry with a required argument. *)
Lemma scan_long_separate text rest :
  nm <> "" -> has_arg e = 1 ->
  Getopt.scan ord os (l1 ++ e :: l2) (("--" +:+ nm) :: text :: rest)
  = (val e, Some text) :: Getopt.scan ord os (l1 ++ e :: l2) rest.
Proof.
  intros Hnm Harg. unfold Getopt.scan; fold Getopt.scan.
  rewrite long_element_not_terminator by exact Hnm.
  change (chars ("--" +:+ nm)) with ("-"%char :: "-"%char :: chars nm).
  assert (Hopt : Getopt.is_option ("-"%char :: "-"%char :: chars nm) = true)
    by reflexivity.
  rewrite Hopt. cbv iota.
  unfold Getopt.element, Getopt.long_option.
  destruct (split_eq_name (chars nm) no_equals) as [Hsplit _].
  rewrite Hsplit, string_of_list_ascii_of_string.
  rewrite (lookup_long_exact l1 l2 e nm before entry_name).
  rewrite Harg. unfold Getopt.long_return. rewrite entry_flag. reflexivity.
Qed.

(** [--name] for an entry with an optional argument. *)
Lemma scan_long_alone rest :
  nm <> "" -> has_arg e = 2 ->
  Getopt.scan ord os (l1 ++ e :: l2) (("--" +:+ nm) :: rest)
  = (val e, None) :: Getopt.scan ord os (l1 ++ e :: l2) rest.
Proof.
  intros Hnm Harg. unfold Getopt.scan; fold Getopt.scan.
  rewrite long_element_not_terminator by exact Hnm.
  change (chars ("--" +:+ nm)) with ("-"%char :: "-"%char :: chars nm).
  assert (Hopt : Getopt.is_option ("-"%char :: "-"%char :: chars nm) = true)
    by reflexivity.
  rewrite Hopt. cbv iota.
  unfold Getopt.element, Getopt.long_option.
  destruct (split_eq_name (chars nm) no_equals) as [Hsplit _].
  rewrite Hsplit, string_of_list_ascii_of_string.
  rewrite (lookup_long_exact l1 l2 e nm before entry_name).
  rewrite Harg. unfold Getopt.long_return. rewrite entry_flag. simpl.
  destruct rest; reflexivity.
Qed.

End LongOptions.

Lemma counter_after_range (cs : list call) (v : Z) :
  256 <= v -> v + Z.of_nat (length cs) < 2 ^ 31 -> 256 <= counter_after cs v.
Proof. intros Hv Hlen. rewrite counter_after_count by assumption. lia. Qed.

Lemma code_of_not_minus_one (c : call) (v : Z) :
  256 <= v -> c_flag c <> "255"%char -> code_of c v <> -1.
Proof.
  unfold code_of. intros Hv Hf. destruct (is_nul (c_flag c)); [lia |].
  intros H. apply Hf. apply char_to_int_inj. rewrite H. reflexivity.
Qed.

(** What [getopt_long] reports for [--name=text], [--name text] and
    [--name], and the setter under the reported code. *)
Lemma long_flag_reports (pre post : list call) (c : call)
    (mem0 : gmap nat value) (prog text : string) (rest : list string) :
  let cs := pre ++ c :: post in
  let o := (register_all cs Options_new mem0).1 in
  let results args :=
    Getopt.getopt_long (prog :: args) (optstr o) (options o ++ [option_end]) in
  let code := code_of c (counter_after pre 256) in
  forallb names_flag cs = true ->
  all_returned cs Options_new mem0 = true ->
  Z.of_nat (length cs) < 2 ^ 31 - 256 ->
  Forall (fun c' => c_long_flag c' <> "" /\ no_nul (c_long_flag c') = true) pre ->
  c_long_flag c <> "" -> no_nul (c_long_flag c) = true ->
  "="%char ∉ chars (c_long_flag c) ->
  c_flag c <> "255"%char ->
  code <> -1
  /\ setters o !! code = Some (setter_of c)
  /\ results (("--" +:+ c_long_flag c +:+ "=" +:+ text) :: rest)
     = (code, Some text) :: results rest
  /\ match c_kind c with
     | CallAdd _ =>
         results (("--" +:+ c_long_flag c) :: text :: rest)
         = (code, Some text) :: results rest
     | CallAddSwitch _ =>
         results (("--" +:+ c_long_flag c) :: rest) = (code, None) :: results rest
     end.
Proof.
  intros cs o results code Hn Hall Hlen Hpre Hl Hnul Heq H255.
  destruct (register_all_returned cs Options_new mem0 Hn Hall) as (Ho & _).
  change (options o = entries cs 256) in Ho.
  unfold cs in Ho. rewrite entries_app in Ho. simpl in Ho.
  set (v := counter_after pre 256) in *.
  set (e := entry_of c v) in *.
  set (l1 := entries pre 256) in *.
  set (l2 := entries post (next_optval c v)) in *.
  assert (Hopts : options o ++ [option_end] = l1 ++ e :: (l2 ++ [option_end])).
  { rewrite Ho, <- app_assoc. reflexivity. }
  assert (Hnc : names_flag c = true).
  { unfold cs in Hn. rewrite forallb_app in Hn. simpl in Hn.
    apply andb_true_iff in Hn as [_ Hn]. now apply andb_true_iff in Hn as [Hn _]. }
  assert (Hbefore : Forall (fun p => exists n, name p = Some n /\ n <> c_long_flag c) l1).
  { exact (entries_before_named pre c post mem0 Hnc Hall Hpre Hl 256). }
  assert (Hname : name e = Some (c_long_flag c)).
  { unfold e. rewrite entry_of_name by exact Hl. now rewrite c_str_no_nul. }
  assert (Hv : 256 <= v).
  { unfold v. apply counter_after_range; [lia |].
    unfold cs in Hlen. rewrite length_app in Hlen. simpl in Hlen. lia. }
  split; [exact (code_of_not_minus_one c v Hv H255) |].
  split; [exact (registered_setter pre c post mem0 Hn Hall Hlen) |].
  unfold results. split.
  - rewrite !getopt_long_cons, Hopts.
    apply (scan_long_equals _ _ l1 _ e (c_long_flag c) Hbefore Hname eq_refl Heq).
    unfold e, entry_of. simpl. destruct (c_kind c); discriminate.
  - destruct (c_kind c) as [d | b] eqn:Hk.
    + rewrite !getopt_long_cons, Hopts.
      apply (scan_long_separate _ _ l1 _ e (c_long_flag c) Hbefore Hname eq_refl Heq);
        [assumption |].
      unfold e, entry_of. simpl. now rewrite Hk.
    + rewrite !getopt_long_cons, Hopts.
      apply (scan_long_alone _ _ l1 _ e (c_long_flag c) Hbefore Hname eq_refl Heq);
        [assumption |].
      unfold e, entry_of. simpl. now rewrite Hk.
Qed.



(** *** A value flag without its argument *)

Lemma missing_code_cases (os : list ascii) :
  Getopt.missing_code os = char_to_int "?"
  \/ Getopt.missing_code os = char_to_int ":".
Proof. unfold Getopt.missing_code. destruct (Getopt.colon_first os); auto. Qed.

(** [-f] as the last element, for a short flag with a required argument. *)
Lemma scan_short_missing ord os longopts (f : ascii) temp :
  f <> "-"%char -> f <> ":"%char -> f <> ";"%char ->
  Getopt.strchr os f = Some temp ->
  Getopt.short_kind temp = Getopt.RequiredArg ->
  Getopt.scan ord os longopts [String "-" (String f "")]
  = [(Getopt.missing_code os, None)].
Proof.
  intros H1 H2 H3 Hs Hk.
  unfold Getopt.scan.
  rewrite dash_flag_not_terminator by exact H1.
  change (chars (String "-" (String f ""))) with ["-"%char; f].
  change (Getopt.is_option ["-"%char; f]) with true. cbv iota.
  rewrite element_short by exact H1.
  unfold Getopt.short_options. rewrite Hs, Hk.
  apply Ascii.eqb_neq in H2, H3. rewrite H2, H3. reflexivity.
Qed.

(** [--name] as the last element, for an entry with a required
    argument. *)
Lemma scan_long_missing ord os (l1 l2 : list struct_option) (e : struct_option)
    (nm : string) :
  Forall (fun p => exists n, name p = Some n /\ n <> nm) l1 ->
  name e = Some nm -> "="%char ∉ chars nm -> nm <> "" -> has_arg e = 1 ->
  Getopt.scan ord os (l1 ++ e :: l2) ["--" +:+ nm]
  = [(Getopt.missing_code os, None)].
Proof.
  intros Hbefore Hname Heq Hnm Harg. unfold Getopt.scan.
  rewrite long_element_not_terminator by exact Hnm.
  change (chars ("--" +:+ nm)) with ("-"%char :: "-"%char :: chars nm).
  assert (Hopt : Getopt.is_option ("-"%char :: "-"%char :: chars nm) = true)
    by reflexivity.
  rewrite Hopt. cbv iota.
  unfold Getopt.element, Getopt.long_option.
  destruct (split_eq_name (chars nm) Heq) as [Hsplit _].
  rewrite Hsplit, string_of_list_ascii_of_string.
  rewrite (lookup_long_exact l1 l2 e nm Hbefore Hname).
  rewrite Harg. reflexivity.
Qed.

Lemma Parse_one_report_without_setter (ex : value -> string -> value) prog args
    o mem ch optarg :
  Getopt.getopt_long (prog :: args) (optstr o) (options o ++ [option_end])
  = [(ch, optarg)] ->
  ch <> -1 -> setters o !! ch = None ->
  Parse ex (prog :: args) o mem
  = (false, with_options o (options o ++ [option_end]), mem).
Proof.
  intros Hres Hch Hs. unfold Parse. simpl options. simpl optstr. simpl setters.
  rewrite Hres. simpl. apply Z.eqb_neq in Hch. now rewrite Hch, Hs.
Qed.

(** X18: a value flag without its argument.  After calls on a new object
    that all return, every one naming a flag and none having [?] or [:]
    as its short flag, for a call of [Add]: when [-f] is the last
    argument (the call and the later ones being well-formed)
    [getopt_long] reports a missing argument, no setter is called and
    [Parse] returns [false]; and so it is for [--name] as the last
    argument (the call having a long flag and following only calls with
    long flags, no NUL character occurring in these long flags). *)
Theorem Parse_missing_argument (ex : value -> string -> value)
    (pre post : list call) (c : call) (d : value) (mem0 mem : gmap nat value)
    (prog : string) :
  let cs := pre ++ c :: post in
  let o := (register_all cs Options_new mem0).1 in
  forallb names_flag cs = true ->
  all_returned cs Options_new mem0 = true ->
  Z.of_nat (length cs) < 2 ^ 31 - 256 ->
  c_kind c = CallAdd d ->
  setters o !! char_to_int "?" = None ->
  setters o !! char_to_int ":" = None ->
  (forallb well_formed (c :: post) = true ->
   Parse ex [prog; "-" +:+ str1 (c_flag c)] o mem
   = (false, with_options o (options o ++ [option_end]), mem))
  /\ (Forall (fun c' => c_long_flag c' <> ""
                          /\ no_nul (c_long_flag c') = true) pre ->
      c_long_flag c <> "" -> no_nul (c_long_flag c) = true ->
      "="%char ∉ chars (c_long_flag c) ->
      Parse ex [prog; "--" +:+ c_long_flag c] o mem
      = (false, with_options o (options o ++ [option_end]), mem)).
Proof.
  intros cs o Hn Hall Hlen Hk Hq Hcolon.
  assert (Hmiss : forall os, Getopt.missing_code os <> -1
                             /\ setters o !! Getopt.missing_code os = None).
  { intros os. destruct (missing_code_cases os) as [-> | ->];
      (split; [discriminate | assumption]). }
  split.
  - intros Hwf. simpl in Hwf. apply andb_true_iff in Hwf as [Hc Hpost].
    destruct (well_formed_flag c Hc) as [Hp Hadd].
    pose proof (Hp (Hadd d Hk)) as Hplain.
    destruct (registered_short_flag pre c post mem0 Hn Hall Hlen Hplain)
      as [Hst _].
    fold cs o in Hst. rewrite Hk in Hst.
    destruct (plain_flag_not _ Hplain) as (H1 & H2 & _ & H4 & _).
    destruct (Hmiss (Getopt.ordering_of (chars (optstr o))).2) as [Hne Hnone].
    apply (Parse_one_report_without_setter ex prog _ o mem
             (Getopt.missing_code (Getopt.ordering_of (chars (optstr o))).2) None);
      try assumption.
    rewrite getopt_long_cons.
    apply (scan_short_missing _ _ _ _ _ H4 H1 H2 Hst).
    apply short_kind_required, pieces_head, Hpost.
  - intros Hpre Hl Hnul Heq.
    destruct (register_all_returned cs Options_new mem0 Hn Hall) as (Ho & _).
    change (options o = entries cs 256) in Ho.
    unfold cs in Ho. rewrite entries_app in Ho. simpl in Ho.
    assert (Hopts : options o ++ [option_end]
                    = entries pre 256 ++ entry_of c (counter_after pre 256)
                      :: (entries post (next_optval c (counter_after pre 256))
                          ++ [option_end])).
    { rewrite Ho, <- app_assoc. reflexivity. }
    assert (Hnc : names_flag c = true).
    { unfold cs in Hn. rewrite forallb_app in Hn. simpl in Hn.
      apply andb_true_iff in Hn as [_ Hn]. now apply andb_true_iff in Hn as [Hn _]. }
    destruct (Hmiss (Getopt.ordering_of (chars (optstr o))).2) as [Hne Hnone].
    apply (Parse_one_report_without_setter ex prog _ o mem
             (Getopt.missing_code (Getopt.ordering_of (chars (optstr o))).2) None);
      try assumption.
    rewrite getopt_long_cons, Hopts.
    apply scan_long_missing; try assumption.
    + exact (entries_before_named pre c post mem0 Hnc Hall Hpre Hl 256).
    + rewrite entry_of_name by exact Hl. now rewrite c_str_no_nul.
    + unfold entry_of. simpl. now rewrite Hk.
Qed.

Lemma Parse_missing_argument_witness :
  Parse keep_value ["prog"; "-" +:+ str1 (c_flag string_o)]
    (register_all ([switch_v] ++ string_o :: []) Options_new ∅).1
    with_switch_and_string.2
  = (false,
     with_options (register_all ([switch_v] ++ string_o :: []) Options_new ∅).1
       (options (register_all ([switch_v] ++ string_o :: []) Options_new ∅).1
        ++ [option_end]),
     with_switch_and_string.2)
  /\ Parse keep_value ["prog"; "--" +:+ c_long_flag string_o]
       (register_all ([switch_v] ++ string_o :: []) Options_new ∅).1
       with_switch_and_string.2
     = (false,
        with_options (register_all ([switch_v] ++ string_o :: []) Options_new ∅).1
          (options (register_all ([switch_v] ++ string_o :: []) Options_new ∅).1
           ++ [option_end]),
        with_switch_and_string.2).
Proof.
  destruct (Parse_missing_argument keep_value [switch_v] [] string_o
              (VString "out.txt") ∅ with_switch_and_string.2 "prog")
    as [H1 H2].
  - vm_compute. reflexivity.
  - vm_compute. reflexivity.
  - vm_compute. reflexivity.
  - reflexivity.
  - vm_compute. reflexivity.
  - vm_compute. reflexivity.
  - split.
    + apply H1. vm_compute. reflexivity.
    + apply H2.
      * repeat constructor. discriminate.
      * discriminate.
      * reflexivity.
      * vm_compute. intros H.
        repeat (apply elem_of_cons in H as [H | H]; [discriminate H |]).
        now apply elem_of_nil in H.
Defined.

(** *** Whole command lines *)

Lemma well_formed_split (cs : list call) (c : call) :
  forallb well_formed cs = true -> c ∈ cs ->
  exists pre post,
    cs = pre ++ c :: post /\ forallb names_flag pre = true
    /\ forallb well_formed (c :: post) = true.
Proof.
  intros Hwf Hin. apply list_elem_of_split in Hin as (pre & post & ->).
  exists pre, post. rewrite forallb_app in Hwf.
  apply andb_true_iff in Hwf as [Hpre Hpost].
  split; [reflexivity |]. split; [now apply well_formed_names | exact Hpost].
Qed.

Lemma well_formed_not_255 (cs : list call) (c : call) :
  forallb well_formed cs = true -> c ∈ cs -> c_flag c <> "255"%char.
Proof.
  intros Hwf Hin. rewrite forallb_forall in Hwf.
  apply list_elem_of_In in Hin. specialize (Hwf c Hin).
  destruct (well_formed_flag c Hwf) as [Hp _].
  destruct (is_nul (c_flag c)) eqn:Hf.
  - apply is_nul_true in Hf. rewrite Hf. discriminate.
  - specialize (Hp eq_refl). intros E. rewrite E in Hp. discriminate.
Qed.

(** An operand is passed over when the option string does not begin with
    [+] or [-]. *)
Lemma Parse_operand (ex : value -> string -> value) o mem prog (a : string) rest :
  Getopt.is_option (chars a) = false ->
  head (chars (optstr o)) <> Some "-"%char ->
  head (chars (optstr o)) <> Some "+"%char ->
  Parse ex (prog :: a :: rest) o mem = Parse ex (prog :: rest) o mem.
Proof.
  intros Ha Hm Hp. unfold Parse. rewrite !getopt_long_cons.
  simpl optstr. rewrite (ordering_of_permute _ Hm Hp). simpl fst. simpl snd.
  now rewrite scan_skips.
Qed.

Lemma well_formed_optstr_head (cs : list call) (mem0 : gmap nat value) :
  forallb well_formed cs = true ->
  all_returned cs Options_new mem0 = true ->
  head (chars (optstr (register_all cs Options_new mem0).1)) <> Some "-"%char
  /\ head (chars (optstr (register_all cs Options_new mem0).1)) <> Some "+"%char.
Proof.
  intros Hwf Hall.
  destruct (register_all_returned cs Options_new mem0 (well_formed_names _ Hwf)
              Hall) as (_ & _ & Hstr).
  change (optstr (register_all cs Options_new mem0).1
          = sconcat (map optstr_piece cs)) in Hstr.
  rewrite Hstr. pose proof (pieces_head cs Hwf) as Hhead.
  destruct (head (chars (sconcat (map optstr_piece cs)))) as [g |];
    [| split; discriminate].
  destruct (plain_flag_not g Hhead) as (_ & _ & Hp & Hm & _).
  split; congruence.
Qed.

(** The items of a command line are taken one after the other; what
    follows them is parsed with the variables as the items leave them. *)
Lemma Parse_items (ex : value -> string -> value) (cs : list call)
    (mem0 : gmap nat value) (prog : string) (items : list argument)
    (rest : list string) :
  let o := (register_all cs Options_new mem0).1 in
  forallb well_formed cs = true ->
  all_returned cs Options_new mem0 = true ->
  Z.of_nat (length cs) < 2 ^ 31 - 256 ->
  Forall (allowed cs) items ->
  forall mem,
    Parse ex (prog :: concat (map render items) ++ rest) o mem
    = Parse ex (prog :: rest) o (fold_left (fun m a => effect ex a m) items mem).
Proof.
  intros o Hwf Hall Hlen Hitems.
  induction Hitems as [| a items Ha _ IH]; intros mem; [reflexivity |].
  change (concat (map render (a :: items)))
    with (render a ++ concat (map render items)).
  change (fold_left (fun m a0 => effect ex a0 m) (a :: items) mem)
    with (fold_left (fun m a0 => effect ex a0 m) items (effect ex a mem)).
  rewrite <- app_assoc, <- IH. clear IH.
  set (tl := concat (map render items) ++ rest).
  destruct a as [c f text | a]; simpl in Ha.
  + destruct Ha as [Hin Hf].
    pose proof (well_formed_not_255 cs c Hwf Hin) as H255.
    pose proof (well_formed_names cs Hwf) as Hn.
    destruct f; unfold render, effect.
    * destruct (well_formed_split cs c Hwf Hin) as (pre & post & E & Hpre & Hpost).
      subst cs. unfold is_switch, setter_of.
      destruct (c_kind c) as [d | b] eqn:Hk.
      -- destruct (short_value_reports pre post c d mem0 prog text tl Hpre
                     Hpost Hall Hlen Hk) as (Hcode & Hset & Hsep & _).
         now apply (Parse_step ex prog _ tl o mem (char_to_int (c_flag c))
                      (Some text)).
      -- destruct (short_switch_reports pre post c b mem0 prog tl Hpre Hpost
                     Hall Hlen Hk Hf) as (Hcode & Hset & Halone & _).
         change (call_setter ex (Negate (c_var c)) text mem)
           with (call_setter ex (Negate (c_var c)) "" mem).
         now apply (Parse_step ex prog _ tl o mem (char_to_int (c_flag c))
                      None).
    * destruct Hf as (Hnul & Hsw & Htext).
      destruct (well_formed_split cs c Hwf Hin) as (pre & post & E & Hpre & Hpost).
      subst cs. unfold is_switch in Hsw. unfold setter_of.
      destruct (c_kind c) as [d | b] eqn:Hk; [| discriminate].
      destruct (short_value_reports pre post c d mem0 prog text tl Hpre
                  Hpost Hall Hlen Hk) as (Hcode & Hset & _ & Hjoin).
      apply (Parse_step ex prog _ tl o mem (char_to_int (c_flag c))
               (Some text)); auto.
    * destruct Hf as (Hl & Heq & Hnn & pre & post & E & Hlong). subst cs.
      destruct (long_flag_reports pre post c mem0 prog text tl Hn Hall Hlen
                  Hlong Hl Hnn Heq H255) as (Hcode & Hset & Hjoin & _).
      now apply (Parse_step ex prog _ tl o mem
                   (code_of c (counter_after pre 256)) (Some text)).
    * destruct Hf as (Hl & Heq & Hnn & pre & post & E & Hlong). subst cs.
      destruct (long_flag_reports pre post c mem0 prog text tl Hn Hall Hlen
                  Hlong Hl Hnn Heq H255) as (Hcode & Hset & _ & Hsep).
      unfold is_switch. destruct (c_kind c) as [d | b] eqn:Hk.
      -- now apply (Parse_step ex prog _ tl o mem
                      (code_of c (counter_after pre 256)) (Some text)).
      -- assert (Hs : setter_of c = Negate (c_var c))
           by (unfold setter_of; now rewrite Hk).
         rewrite Hs in *.
         change (call_setter ex (Negate (c_var c)) text mem)
           with (call_setter ex (Negate (c_var c)) "" mem).
         now apply (Parse_step ex prog _ tl o mem
                      (code_of c (counter_after pre 256)) None).
  + destruct (well_formed_optstr_head cs mem0 Hwf Hall) as [Hm Hp].
    now apply Parse_operand.
Qed.

(** X19: whole command lines.  After well-formed calls on a new object
    that all return, a command line made of items that the calls provide
    for (flags in their short and long forms, each value flag with its
    text, and operands; a long form for long flags without NUL
    characters) is accepted: [Parse] returns [true], and the variables
    end as the setters of the items, called from left to right with their
    texts, leave them. *)
Theorem Parse_command_line (ex : value -> string -> value) (cs : list call)
    (mem0 : gmap nat value) (prog : string) (items : list argument)
    (mem : gmap nat value) :
  let o := (register_all cs Options_new mem0).1 in
  forallb well_formed cs = true ->
  all_returned cs Options_new mem0 = true ->
  Z.of_nat (length cs) < 2 ^ 31 - 256 ->
  Forall (allowed cs) items ->
  Parse ex (prog :: concat (map render items)) o mem
  = (true, with_options o (options o ++ [option_end]),
     fold_left (fun m a => effect ex a m) items mem).
Proof.
  intros o Hwf Hall Hlen Hitems.
  rewrite <- (app_nil_r (concat (map render items))).
  unfold o. rewrite (Parse_items ex cs mem0 prog items [] Hwf Hall Hlen Hitems).
  unfold Parse. rewrite getopt_long_cons. reflexivity.
Qed.

Lemma Parse_command_line_witness :
  Parse keep_value ("prog" :: concat (map render sample_command_line))
    (register_all [switch_v; string_o] Options_new ∅).1
    with_switch_and_string.2
  = (true,
     with_options (register_all [switch_v; string_o] Options_new ∅).1
       (options (register_all [switch_v; string_o] Options_new ∅).1
        ++ [option_end]),
     fold_left (fun m a => effect keep_value a m) sample_command_line
       with_switch_and_string.2).
Proof.
  assert (Hv : switch_v ∈ [switch_v; string_o]) by apply list_elem_of_here.
  assert (Ho : string_o ∈ [switch_v; string_o])
    by apply list_elem_of_further, list_elem_of_here.
  assert (Hnv : "="%char ∉ chars (c_long_flag switch_v)).
  { vm_compute. intros H.
    repeat (apply elem_of_cons in H as [H | H]; [discriminate H |]).
    now apply elem_of_nil in H. }
  assert (Hno : "="%char ∉ chars (c_long_flag string_o)).
  { vm_compute. intros H.
    repeat (apply elem_of_cons in H as [H | H]; [discriminate H |]).
    now apply elem_of_nil in H. }
  apply (Parse_command_line keep_value [switch_v; string_o] ∅ "prog"
           sample_command_line with_switch_and_string.2).
  - vm_compute. reflexivity.
  - vm_compute. reflexivity.
  - vm_compute. reflexivity.
  - unfold sample_command_line.
    repeat match goal with
           | |- Forall _ (_ :: _) => constructor
           | |- Forall _ [] => constructor
           end; unfold allowed.
    + split; [exact Hv | reflexivity].
    + reflexivity.
    + split; [exact Ho |]. split; [discriminate |]. split; [exact Hno |].
      split; [reflexivity |].
      exists [switch_v], []. split; [reflexivity |].
      repeat constructor. discriminate.
    + split; [exact Ho | reflexivity].
    + split; [exact Hv |]. split; [discriminate |]. split; [exact Hnv |].
      split; [reflexivity |].
      exists [], [string_o]. split; [reflexivity | constructor].
    + split; [exact Ho |]. repeat split; discriminate.
Defined.

(** *** An option that is not registered *)

(** C2, amended: [Parse] returns [false] as soon as [getopt_long] reports
    a code that has no setter, the setters of the reports before it having
    been called in order; it returns [true] when every report up to the
    end of the arguments had a setter; in the failure case a variable that
    is not the target of a setter called before the failing report keeps
    the value it had when [Parse] was called.  An element that the scanner
    comes to after the reports [rs], and that names no flag (a long name
    that is neither the name of an entry nor the beginning of one, a short
    character that is not in the option string), is reported as [?]:
    provided no flag has the short character [?], [Parse] returns [false]
    there, the setters of [rs] having been called.  So it is, after
    well-formed calls on a new object, for such an element at any place
    behind items that the calls provide for: the setters of the items
    have been called, and nothing behind the element is looked at. *)
Theorem Parse_fails_at_first_code_without_setter
    (ex : value -> string -> value) (argv : list string) (o : Options)
    (mem : gmap nat value) :
  let results :=
    Getopt.getopt_long argv (optstr o) (options o ++ [option_end]) in
  let final := Parse ex argv o mem in
  (forall pre ch optarg post,
     results = pre ++ (ch, optarg) :: post ->
     Forall (dispatched (setters o)) pre -> ch <> -1 ->
     setters o !! ch = None ->
     final.1.1 = false
     /\ final.2 = run_setters ex (setters o) pre mem
     /\ forall var, var ∉ targets (setters o) pre -> final.2 !! var = mem !! var)
  /\ (Forall (dispatched (setters o)) results ->
      final.1.1 = true /\ final.2 = run_setters ex (setters o) results mem)
  /\ (forall prog before a post rs,
        argv = prog :: before ++ a :: post ->
        results
        = rs ++ Getopt.getopt_long (prog :: a :: post) (optstr o)
                  (options o ++ [option_end]) ->
        Forall (dispatched (setters o)) rs ->
        unregistered o a ->
        setters o !! char_to_int "?" = None ->
        final.1.1 = false
        /\ final.2 = run_setters ex (setters o) rs mem
        /\ forall var,
             var ∉ targets (setters o) rs -> final.2 !! var = mem !! var)
  /\ (forall cs mem0 prog items a post,
        o = (register_all cs Options_new mem0).1 ->
        forallb well_formed cs = true ->
        all_returned cs Options_new mem0 = true ->
        Z.of_nat (length cs) < 2 ^ 31 - 256 ->
        Forall (allowed cs) items ->
        argv = prog :: concat (map render items) ++ a :: post ->
        unregistered o a ->
        setters o !! char_to_int "?" = None ->
        final.1.1 = false
        /\ final.2 = fold_left (fun m i => effect ex i m) items mem).
Proof.
  intros results final. subst results final.
  split; [| split; [| split]].
  - intros pre ch optarg post Hres Hpre Hch Hs. unfold Parse. simpl.
    rewrite Hres. rewrite Parse_loop_false by assumption. simpl.
    repeat split. intros var Hvar. now apply run_setters_other.
  - intros Hall. unfold Parse. simpl. now rewrite Parse_loop_true.
  - intros prog before a post rs -> Hres Hrs Hun Hq.
    destruct (getopt_unregistered prog a post o Hun) as [rs' Hrs'].
    rewrite Hrs' in Hres. unfold Parse. simpl. rewrite Hres.
    rewrite Parse_loop_false by (try assumption; discriminate). simpl.
    repeat split. intros var Hvar. now apply run_setters_other.
  - intros cs mem0 prog items a post -> Hwf Hall Hlen Hitems -> Hun Hq.
    rewrite (Parse_items ex cs mem0 prog items (a :: post) Hwf Hall Hlen Hitems).
    destruct (getopt_unregistered prog a post _ Hun) as [rs' Hrs'].
    unfold Parse. simpl options. simpl optstr. simpl setters.
    rewrite Hrs'. simpl. rewrite Hq. split; reflexivity.
Qed.

(** [prog -v in.png --output=b.txt --unknown -v] with [-v, --verbose]
    and [-o, --output] registered: [Parse] returns [false] at [--unknown],
    after the setters of [-v] and [--output=b.txt]. *)
Lemma Parse_fails_at_first_code_without_setter_witness :
  (Parse keep_value
     ("prog" :: concat (map render sample_items) ++ "--unknown" :: ["-v"])
     (register_all [switch_v; string_o] Options_new ∅).1
     with_switch_and_string.2).1.1 = false
  /\ (Parse keep_value
        ("prog" :: concat (map render sample_items) ++ "--unknown" :: ["-v"])
        (register_all [switch_v; string_o] Options_new ∅).1
        with_switch_and_string.2).2
     = fold_left (fun m i => effect keep_value i m) sample_items
         with_switch_and_string.2.
Proof.
  assert (Hv : switch_v ∈ [switch_v; string_o]) by apply list_elem_of_here.
  assert (Ho : string_o ∈ [switch_v; string_o])
    by apply list_elem_of_further, list_elem_of_here.
  assert (Hno : "="%char ∉ chars (c_long_flag string_o)).
  { vm_compute. intros H.
    repeat (apply elem_of_cons in H as [H | H]; [discriminate H |]).
    now apply elem_of_nil in H. }
  apply (proj2 (proj2 (proj2 (Parse_fails_at_first_code_without_setter
           keep_value
           ("prog" :: concat (map render sample_items) ++ "--unknown" :: ["-v"])
           (register_all [switch_v; string_o] Options_new ∅).1
           with_switch_and_string.2)))
         [switch_v; string_o] ∅ "prog" sample_items "--unknown" ["-v"]).
  - reflexivity.
  - vm_compute. reflexivity.
  - vm_compute. reflexivity.
  - vm_compute. reflexivity.
  - unfold sample_items.
    repeat match goal with
           | |- Forall _ (_ :: _) => constructor
           | |- Forall _ [] => constructor
           end; unfold allowed.
    + split; [exact Hv | reflexivity].
    + reflexivity.
    + split; [exact Ho |]. split; [discriminate |]. split; [exact Hno |].
      split; [reflexivity |].
      exists [switch_v], []. split; [reflexivity |].
      repeat constructor. discriminate.
  - reflexivity.
  - left. exists "unknown". split; [reflexivity |]. split; [discriminate |].
    vm_compute. repeat constructor.
  - vm_compute. reflexivity.
Defined.

(** ** More on the layout of a usage block *)

(** X13: the padded label.  The label is the indentation, [-f ] for a
    short flag (three characters) and [--name ] for a long flag (the name
    and three characters); it is padded with spaces to [IndentDescription]
    characters, and a label that is already longer gets one more space. *)
Theorem label_width (indent_flag indent_description : Z) (fl : ascii)
    (long_flag : string) :
  0 <= indent_flag ->
  let n := indent_flag + (if is_nul fl then 0 else 3)
           + (if slen long_flag =? 0 then 0 else slen long_flag + 3) in
  slen (label indent_flag indent_description fl long_flag)
  = if indent_description <? n then n + 1 else indent_description.
Proof.
  intros Hi n. unfold label.
  set (ss1 := if is_nul fl then spaces indent_flag
              else spaces indent_flag +:+ "-" +:+ str1 fl +:+ " ").
  set (ss2 := if slen long_flag =? 0 then ss1
              else ss1 +:+ "--" +:+ long_flag +:+ " ").
  assert (H1 : slen ss1 = indent_flag + (if is_nul fl then 0 else 3)).
  { subst ss1. destruct (is_nul fl).
    - rewrite slen_spaces by lia. lia.
    - rewrite !slen_append, slen_spaces by lia.
      change (slen "-") with 1. change (slen (str1 fl)) with 1.
      change (slen " ") with 1. lia. }
  assert (H2 : slen ss2 = n).
  { subst ss2 n. destruct (slen long_flag =? 0); [lia |].
    rewrite !slen_append. change (slen "--") with 2. change (slen " ") with 1.
    lia. }
  rewrite slen_append, H2.
  destruct (Z.ltb_spec indent_description n).
  - now rewrite slen_spaces by lia.
  - rewrite slen_spaces by lia. lia.
Qed.

Lemma label_width_witness :
  slen (label 2 18 "o" "output") = 18
  /\ slen (label 2 18 "o" "output-file-name") = 25.
Proof.
  split.
  - apply (label_width 2 18 "o" "output"). lia.
  - apply (label_width 2 18 "o" "output-file-name"). lia.
Defined.

(** *** A description that fits *)

Lemma substr_from_zero (s : string) : substr_from s 0 = s.
Proof. unfold substr_from. simpl. apply string_of_list_ascii_of_string. Qed.

Lemma head_not_space_skip (l : list ascii) (i : Z) :
  head l <> Some " "%char -> skip_spaces l i = i.
Proof.
  destruct l as [| c l]; [reflexivity |]. simpl head. intros H.
  rewrite skip_spaces_cons.
  destruct (Ascii.eqb_spec c " ") as [-> | _]; [now elim H | reflexivity].
Qed.

(** The loop on a text that is not longer than the column width, nor
    than [2 ^ 31], and does not begin with a space: the text is appended
    as it is.  The column width may be any [unsigned] value. *)
Lemma wrap_loop_one_chunk (desc : string) (column_width desc_pos : Z)
    (ss : string) :
  0 <= column_width < 2 ^ 32 -> slen desc <= column_width ->
  slen desc < 2 ^ 31 ->
  head (chars desc) <> Some " "%char ->
  wrap_loop (S (String.length desc)) desc column_width desc_pos 0 ss
  = Some (ss +:+ desc).
Proof.
  intros Hcw Hfit Hsize Hhead.
  destruct desc as [| c desc].
  - simpl. now rewrite append_empty_r.
  - set (d := String c desc) in *.
    assert (Hlen : 1 <= slen d) by (unfold slen, d; simpl String.length; lia).
    change (S (String.length d)) with (S (S (String.length desc))).
    unfold wrap_loop at 1. fold wrap_loop.
    rewrite (u64_small 0) by lia.
    destruct (Z.ltb_spec 0 (slen d)) as [_ | Hn]; [| lia].
    change (drop (Z.to_nat 0) (chars d)) with (chars d).
    rewrite head_not_space_skip by exact Hhead.
    rewrite (u32_small (0 + column_width)) by lia.
    destruct (Z.ltb_spec (0 + column_width) (slen d)) as [Hlt | _]; [lia |].
    rewrite substr_from_zero.
    unfold wrap_loop.
    assert (Hend : (u64 (s32 (0 + column_width)) <? slen d) = false).
    { apply Z.ltb_ge. unfold u64, s32. simpl Z.add.
      change (2 ^ 31) with 2147483648 in *. change (2 ^ 32) with 4294967296 in *.
      change (2 ^ 64) with 18446744073709551616.
      Z.div_mod_to_equations. lia. }
    now rewrite Hend.
Qed.

(** X14: a description that fits.  When the padded label is not wider
    than the terminal and the description with its suffix is not longer
    than the column width and does not begin with a space, the block is
    the label (and a newline, in the fallback layout) followed by the
    description and the suffix as they are. *)
Theorem usage_block_short_description (indent_flag indent_description : Z)
    (fl : ascii) (long_flag : string) (default_val : value)
    (description : string) (ws_col : Z) :
  let ss := label indent_flag indent_description fl long_flag in
  let desc := description +:+ get_default default_val in
  let width := tty_width ws_col in
  let remains := 3 * width <? 10 * (width - slen ss) in
  let desc_pos := if remains then slen ss else indent_flag + 2 in
  0 <= indent_flag ->
  is_nul fl && (slen long_flag =? 0) = false ->
  slen ss <= width ->
  slen desc <= width - desc_pos ->
  head (chars desc) <> Some " "%char ->
  usage_block indent_flag indent_description fl long_flag default_val
    description ws_col
  = Some ((if remains then ss else ss +:+ str1 "010") +:+ desc).
Proof.
  intros ss desc width remains desc_pos Hi Hf Hfit Hshort Hhead.
  pose proof (tty_width_range ws_col) as Hw. fold width in Hw.
  pose proof (label_length indent_flag indent_description fl long_flag Hi Hf)
    as Hlabel. fold ss in Hlabel.
  pose proof (slen_nonneg desc) as Hd.
  unfold usage_block. fold ss desc width.
  rewrite (u32_small width) by lia.
  rewrite description_start_fits by lia. fold remains desc_pos.
  assert (Hpos : 0 <= desc_pos <= width).
  { subst desc_pos. destruct remains; lia. }
  rewrite (u32_small (width - desc_pos)) by lia.
  rewrite (u32_small (indent_flag + 2)) by lia.
  assert (Hnl : (desc_pos =? indent_flag + 2) = negb remains).
  { subst desc_pos. destruct remains; simpl; [apply Z.eqb_neq | apply Z.eqb_eq]; lia. }
  rewrite Hnl.
  rewrite wrap_loop_one_chunk; try assumption; try lia.
  now destruct remains.
Qed.

Lemma usage_block_short_description_witness :
  usage_block 2 18 "o" "output" (VString "out.txt") "output file path" 80
  = Some ((if 3 * tty_width 80 <? 10 * (tty_width 80 - slen (label 2 18 "o" "output"))
           then label 2 18 "o" "output"
           else label 2 18 "o" "output" +:+ str1 "010")
          +:+ ("output file path" +:+ get_default (VString "out.txt"))).
Proof.
  apply (usage_block_short_description 2 18 "o" "output" (VString "out.txt")
           "output file path" 80).
  - lia.
  - reflexivity.
  - vm_compute. discriminate.
  - vm_compute. discriminate.
  - vm_compute. discriminate.
Defined.

(** *** A label wider than the terminal *)

(** Single precision of an integer just below [2 ^ 64]. *)
Lemma round24_huge (n : Z) : 2 ^ 63 <= n < 2 ^ 64 -> 2 ^ 63 <= Float32.round24 n.
Proof.
  intros Hn. unfold Float32.round24.
  destruct (Z.ltb_spec n (2 ^ 24)) as [H | _]; [lia |].
  assert (Hlog : Z.log2 n = 63) by (apply Z.log2_unique; lia).
  rewrite Hlog. change (63 - 23) with 40. cbv zeta.
  change (2 ^ 40) with 1099511627776. change (2 ^ (40 - 1)) with 549755813888.
  change (2 ^ 63) with 9223372036854775808 in *.
  change (2 ^ 64) with 18446744073709551616 in *.
  repeat match goal with
         | |- context [if ?b then _ else _] => destruct b
         end;
    Z.div_mod_to_equations; lia.
Qed.

Lemma u32_wrapped (d : Z) : 0 < d < 2 ^ 32 -> u32 (- d) = 2 ^ 32 - d.
Proof.
  intros Hd. unfold u32.
  replace (- d) with (2 ^ 32 - d + (-1) * 2 ^ 32) by lia.
  rewrite Z.mod_add by lia. apply Z.mod_small. lia.
Qed.

Lemma u64_wrapped (d : Z) : 0 < d < 2 ^ 64 -> u64 (- d) = 2 ^ 64 - d.
Proof.
  intros Hd. unfold u64.
  replace (- d) with (2 ^ 64 - d + (-1) * 2 ^ 64) by lia.
  rewrite Z.mod_add by lia. apply Z.mod_small. lia.
Qed.

(** A remaining width that has wrapped around in [size_t] exceeds
    [w * 0.3f]. *)
Lemma gt_03f_wrapped (d w : Z) :
  0 < d < 2 ^ 31 -> 0 <= w < 2 ^ 16 -> Float32.gt_03f (u64 (- d)) w = true.
Proof.
  intros Hd Hw. unfold Float32.gt_03f, Float32.of_unsigned, Float32.mul_03f.
  rewrite u64_wrapped by lia.
  assert (Hr : Float32.round24 w = w).
  { unfold Float32.round24. destruct (Z.ltb_spec w (2 ^ 24)); [reflexivity | lia]. }
  rewrite Hr.
  pose proof (mul_03f_floor w Hw) as Hfloor.
  pose proof (round24_huge (2 ^ 64 - d)) as Hhuge.
  apply Z.ltb_lt.
  assert (Hq : 3 * w / 10 < 2 ^ 16) by (apply Z.div_lt_upper_bound; lia).
  generalize dependent (Float32.round24 (w * Float32.c03)). intros m Hfloor.
  generalize dependent (Float32.round24 (2 ^ 64 - d)). intros h Hhuge.
  specialize (Hhuge ltac:(lia)).
  change (2 ^ 25) with 33554432 in *. change (2 ^ 16) with 65536 in *.
  change (2 ^ 63) with 9223372036854775808 in *.
  rewrite <- Hfloor in Hq. clear Hfloor.
  Z.div_mod_to_equations. lia.
Qed.

(** [desc_pos] and [column_width] when the label is wider than the
    terminal. *)
Lemma description_start_wrapped (indent_flag width prefix_len : Z) :
  0 <= width < 2 ^ 16 -> width < prefix_len < 2 ^ 31 ->
  description_start indent_flag width prefix_len = prefix_len
  /\ u32 (width - prefix_len) = 2 ^ 32 - (prefix_len - width).
Proof.
  intros Hw Hp. unfold description_start.
  replace (width - prefix_len) with (- (prefix_len - width)) by lia.
  rewrite gt_03f_wrapped by lia. rewrite u32_wrapped by lia.
  split; [apply u32_small; lia | reflexivity].
Qed.

(** X15: a label wider than the terminal.  For any label that is wider
    than the terminal (and shorter than [2 ^ 31]) the remaining width
    wraps around in [size_t] and passes the comparison, so the
    description starts at the end of the label and not at the fallback
    indentation, and the column width wraps around in [unsigned] to
    almost [2 ^ 32]: a description that does not begin with a space
    follows the label on one line, whatever its length. *)
Theorem usage_block_label_too_wide (indent_flag indent_description : Z)
    (fl : ascii) (long_flag : string) (default_val : value)
    (description : string) (ws_col : Z) :
  let ss := label indent_flag indent_description fl long_flag in
  let desc := description +:+ get_default default_val in
  let width := tty_width ws_col in
  0 <= indent_flag ->
  is_nul fl && (slen long_flag =? 0) = false ->
  width < slen ss < 2 ^ 31 ->
  slen desc < 2 ^ 31 ->
  head (chars desc) <> Some " "%char ->
  description_start indent_flag (u32 width) (slen ss) = slen ss
  /\ u32 (u32 width - slen ss) = 2 ^ 32 - (slen ss - width)
  /\ usage_block indent_flag indent_description fl long_flag default_val
       description ws_col
     = Some (ss +:+ desc).
Proof.
  intros ss desc width Hi Hf Hwide Hsize Hhead.
  pose proof (tty_width_range ws_col) as Hw. fold width in Hw.
  pose proof (label_length indent_flag indent_description fl long_flag Hi Hf)
    as Hlabel. fold ss in Hlabel.
  pose proof (slen_nonneg desc) as Hd.
  rewrite (u32_small width) by lia.
  destruct (description_start_wrapped indent_flag width (slen ss)) as [Hpos Hcw];
    [lia | lia |].
  split; [exact Hpos |]. split; [exact Hcw |].
  unfold usage_block. fold ss desc width.
  rewrite (u32_small width) by lia. rewrite Hpos, Hcw.
  rewrite (u32_small (indent_flag + 2)) by lia.
  destruct (Z.eqb_spec (slen ss) (indent_flag + 2)) as [E | _]; [lia |].
  apply wrap_loop_one_chunk; try assumption; lia.
Qed.

Lemma usage_block_label_too_wide_witness :
  description_start 2 (u32 (tty_width 40)) (slen (label 2 18 Ascii.zero long_label))
  = slen (label 2 18 Ascii.zero long_label)
  /\ u32 (u32 (tty_width 40) - slen (label 2 18 Ascii.zero long_label))
     = 2 ^ 32 - (slen (label 2 18 Ascii.zero long_label) - tty_width 40)
  /\ usage_block 2 18 Ascii.zero long_label (VUnsigned 7) long_description 40
     = Some (label 2 18 Ascii.zero long_label
             +:+ (long_description +:+ get_default (VUnsigned 7))).
Proof.
  apply (usage_block_label_too_wide 2 18 Ascii.zero long_label (VUnsigned 7)
           long_description 40).
  - lia.
  - reflexivity.
  - vm_compute. split; reflexivity.
  - vm_compute. reflexivity.
  - vm_compute. discriminate.
Defined.

(** *** When the loop does not end *)

Lemma skip_spaces_shift (l : list ascii) : forall i j,
  skip_spaces l (i + j) = skip_spaces l i + j.
Proof.
  induction l as [| c l IH]; intros i j; [reflexivity |].
  rewrite !skip_spaces_cons. destruct (Ascii.eqb c " "); [| reflexivity].
  replace (i + j + 1) with (i + 1 + j) by lia. apply IH.
Qed.

Lemma skip_spaces_bounds (l : list ascii) (i : Z) :
  i <= skip_spaces l i <= i + Z.of_nat (length l).
Proof.
  destruct (skip_spaces_spec l i) as (k & Hk & Hle & _). lia.
Qed.

(** From a position among the leading spaces the inner loop stops where
    it stops from the start. *)
Lemma skip_spaces_inside (l : list ascii) : forall i,
  0 <= i <= skip_spaces l 0 ->
  skip_spaces (drop (Z.to_nat i) l) i = skip_spaces l 0.
Proof.
  induction l as [| c l IH]; intros i Hi.
  - simpl in *. rewrite drop_nil. simpl. lia.
  - destruct (Z.eq_dec i 0) as [-> | Hne]; [reflexivity |].
    rewrite (skip_spaces_cons c l 0) in *.
    destruct (Ascii.eqb c " "); [| lia].
    pose proof (skip_spaces_shift l 0 1) as Hshift. simpl Z.add in *.
    rewrite Hshift in *.
    replace (Z.to_nat i) with (S (Z.to_nat (i - 1))) by lia. simpl drop.
    replace i with (i - 1 + 1) at 2 by lia.
    rewrite skip_spaces_shift. rewrite IH by lia. reflexivity.
Qed.

Lemma skip_spaces_leading (k : nat) (l : list ascii) :
  Z.of_nat k <= skip_spaces (repeat " "%char k ++ l) 0.
Proof.
  induction k as [| k IH]; simpl repeat; simpl app.
  - apply skip_spaces_bounds.
  - rewrite skip_spaces_cons. simpl Ascii.eqb. cbv iota.
    rewrite (skip_spaces_shift _ 0 1). lia.
Qed.

Section Endless.

Variable desc : string.
Variables d desc_pos : Z.
Hypothesis excess : 0 < d <= skip_spaces (chars desc) 0.
Hypothesis desc_size : slen desc < 2 ^ 31.

(** With the column width [2 ^ 32 - d], from a position that is at least
    [d] before the end of the leading spaces the loop comes back to such
    a position: it never ends. *)
Lemma wrap_loop_endless (fuel : nat) : forall i ss,
  0 <= i <= skip_spaces (chars desc) 0 - d ->
  wrap_loop fuel desc (2 ^ 32 - d) desc_pos i ss = None.
Proof.
  pose proof (skip_spaces_bounds (chars desc) 0) as Hk.
  rewrite <- slen_chars in Hk.
  set (K := skip_spaces (chars desc) 0) in *.
  induction fuel as [| fuel IH]; intros i ss Hi; [reflexivity |].
  simpl. rewrite (u64_small i) by lia.
  destruct (Z.ltb_spec i (slen desc)) as [_ | Hge]; [| lia].
  rewrite skip_spaces_inside by (fold K; lia). fold K.
  assert (Hu : u32 (K + (2 ^ 32 - d)) = K - d).
  { unfold u32. replace (K + (2 ^ 32 - d)) with (K - d + 1 * 2 ^ 32) by lia.
    rewrite Z.mod_add by lia. apply Z.mod_small. lia. }
  assert (Hs : s32 (K + (2 ^ 32 - d)) = K - d).
  { unfold s32.
    replace (K + (2 ^ 32 - d) + 2 ^ 31) with (K - d + 2 ^ 31 + 1 * 2 ^ 32) by lia.
    rewrite Z.mod_add by lia. rewrite Z.mod_small by lia. lia. }
  rewrite Hu, Hs.
  destruct (Z.ltb_spec (K - d) (slen desc)) as [_ | Hge]; [| lia].
  apply IH. lia.
Qed.

End Endless.

(** X16: a label wider than the terminal and a description that begins
    with spaces.  When the label exceeds the terminal width by [d]
    columns and the description begins with at least [d] spaces, the
    position after the leading spaces plus the wrapped column width is a
    position before them: the loop is back where it was, however many
    iterations it is given, and the block is never finished. *)
Theorem usage_block_never_ends (indent_flag indent_description : Z)
    (fl : ascii) (long_flag : string) (default_val : value)
    (rest : string) (k : nat) (ws_col : Z) :
  let ss := label indent_flag indent_description fl long_flag in
  let description := spaces (Z.of_nat k) +:+ rest in
  let desc := description +:+ get_default default_val in
  let width := tty_width ws_col in
  0 <= indent_flag ->
  is_nul fl && (slen long_flag =? 0) = false ->
  width < slen ss < 2 ^ 31 ->
  slen desc < 2 ^ 31 ->
  slen ss - width <= Z.of_nat k ->
  (forall fuel : nat,
     wrap_loop fuel desc (u32 (u32 width - slen ss))
       (description_start indent_flag (u32 width) (slen ss)) 0 ss = None)
  /\ usage_block indent_flag indent_description fl long_flag default_val
       description ws_col = None.
Proof.
  intros ss description desc width Hi Hf Hwide Hsize Hk.
  pose proof (tty_width_range ws_col) as Hw. fold width in Hw.
  pose proof (label_length indent_flag indent_description fl long_flag Hi Hf)
    as Hlabel. fold ss in Hlabel.
  rewrite (u32_small width) by lia.
  destruct (description_start_wrapped indent_flag width (slen ss)) as [Hpos Hcw];
    [lia | lia |].
  assert (Hlead : Z.of_nat k <= skip_spaces (chars desc) 0).
  { unfold desc, description, spaces. rewrite !chars_append.
    rewrite list_ascii_of_string_of_list_ascii, Nat2Z.id, <- app_assoc.
    apply skip_spaces_leading. }
  assert (Hloop : forall fuel out,
            wrap_loop fuel desc (2 ^ 32 - (slen ss - width)) (slen ss) 0 out = None).
  { intros fuel out. apply wrap_loop_endless; lia. }
  split.
  - intros fuel. rewrite Hpos, Hcw. apply Hloop.
  - unfold usage_block. fold ss desc width.
    rewrite (u32_small width) by lia. rewrite Hpos, Hcw. apply Hloop.
Qed.

Lemma usage_block_never_ends_witness :
  usage_block 2 18 Ascii.zero long_label (VUnsigned 0)
    (spaces (Z.of_nat 1) +:+ long_description) 40 = None.
Proof.
  apply (usage_block_never_ends 2 18 Ascii.zero long_label (VUnsigned 0)
           long_description 1 40).
  - lia.
  - reflexivity.
  - vm_compute. split; reflexivity.
  - vm_compute. reflexivity.
  - vm_compute. discriminate.
Defined.
